(** * EthicOps site-maintenance scripts: a shallow embedding

    The development follows two Python scripts of the repository:
    [fix_images.py] (image-link repair) and
    [tools_wire_ethicops_email.py] (mailto normalisation and contact
    footer).

    Python [str] values are modelled as [string]; a character is a code
    point in the range U+0000..U+00FF, and the character classes of the
    [re] module and the [str] methods are given on that range.  File
    paths follow [pathlib]'s POSIX flavour.  The catalogue of image
    names is a [gset string], the slug dictionary an insertion-ordered
    association list, the file system a [gmap string string].  What
    the command line of [fix_images.py] asks the file system besides
    the text of the HTML files (directories, listings) is a record of
    functions. *)

From Stdlib Require Import Ascii String List Arith Lia Bool QArith
  DecimalString.
From stdpp Require Import gmap strings.

Local Open Scope string_scope.
Local Open Scope nat_scope.

(** ** Characters and the [str] methods the scripts use *)

Module Char.

Definition code (c : ascii) : nat := nat_of_ascii c.

Definition between (lo hi : nat) (c : ascii) : bool :=
  (lo <=? code c) && (code c <=? hi).

(** [str.isspace] and the class [\s] of [re]. *)
Definition isspace (c : ascii) : bool :=
  between 9 13 c || between 28 32 c || (code c =? 133) || (code c =? 160).

Definition isdigit (c : ascii) : bool := between 48 57 c.
Definition islower_az (c : ascii) : bool := between 97 122 c.
Definition isupper_az (c : ascii) : bool := between 65 90 c.

(** The class [\w] of [re] on [str] patterns: alphanumerics and the
    underscore. *)
Definition isword (c : ascii) : bool :=
  isdigit c || islower_az c || isupper_az c || (code c =? 95)
  || (code c =? 170) || (code c =? 178) || (code c =? 179)
  || (code c =? 181) || (code c =? 185) || (code c =? 186)
  || between 188 190 c || between 192 214 c || between 216 246 c
  || between 248 255 c.

(** [str.lower] on one character. *)
Definition lower (c : ascii) : ascii :=
  if isupper_az c || (between 192 222 c && negb (code c =? 215))
  then ascii_of_nat (code c + 32) else c.

Definition eqb (c d : ascii) : bool := Ascii.eqb c d.

(** The double quote, U+0022. *)
Definition dquote : ascii := "034"%char.

End Char.

Module Str.

Fixpoint lower (s : string) : string :=
  match s with
  | EmptyString => EmptyString
  | String c s' => String (Char.lower c) (lower s')
  end.

(** [s.startswith(p)] *)
Fixpoint startswith (s p : string) {struct p} : bool :=
  match p, s with
  | EmptyString, _ => true
  | String _ _, EmptyString => false
  | String d p', String c s' => Char.eqb c d && startswith s' p'
  end.

(** [s.startswith(tuple)] *)
Definition startswith_any (s : string) (ps : list string) : bool :=
  existsb (startswith s) ps.

Fixpoint drop (n : nat) (s : string) : string :=
  match n, s with
  | O, _ => s
  | S _, EmptyString => EmptyString
  | S n', String _ s' => drop n' s'
  end.

Fixpoint take (n : nat) (s : string) : string :=
  match n, s with
  | O, _ => EmptyString
  | S _, EmptyString => EmptyString
  | S n', String c s' => String c (take n' s')
  end.

(** [s.endswith(p)] *)
Definition endswith (s p : string) : bool :=
  (String.length p <=? String.length s)
  && String.eqb (drop (String.length s - String.length p) s) p.

Definition endswith_any (s : string) (ps : list string) : bool :=
  existsb (endswith s) ps.

(** [sub in s] *)
Fixpoint contains (s sub : string) : bool :=
  startswith s sub
  || match s with
     | EmptyString => false
     | String _ s' => contains s' sub
     end.

(** [c in s] for one character. *)
Fixpoint has_char (c : ascii) (s : string) : bool :=
  match s with
  | EmptyString => false
  | String d s' => Char.eqb d c || has_char c s'
  end.

(** [s.split(c, 1)[0]]: the text before the first [c]. *)
Fixpoint before_first (c : ascii) (s : string) : string :=
  match s with
  | EmptyString => EmptyString
  | String d s' => if Char.eqb d c then EmptyString
                   else String d (before_first c s')
  end.

(** [s.split(c)] *)
Fixpoint split (c : ascii) (s : string) : list string :=
  match s with
  | EmptyString => [EmptyString]
  | String d s' =>
      if Char.eqb d c then EmptyString :: split c s'
      else match split c s' with
           | [] => [String d EmptyString]
           | w :: ws => String d w :: ws
           end
  end.

(** [s.lstrip()] and [s.lstrip(chars)], the class given as a predicate. *)
Fixpoint lstrip (p : ascii -> bool) (s : string) : string :=
  match s with
  | EmptyString => EmptyString
  | String c s' => if p c then lstrip p s' else s
  end.

Fixpoint rstrip (p : ascii -> bool) (s : string) : string :=
  match s with
  | EmptyString => EmptyString
  | String c s' =>
      match rstrip p s' with
      | EmptyString => if p c then EmptyString else String c EmptyString
      | r => String c r
      end
  end.

Definition strip (p : ascii -> bool) (s : string) : string :=
  rstrip p (lstrip p s).

(** [s.split()]: the maximal runs of non-whitespace characters.
    [cur] is the word being read. *)
Fixpoint split_ws_from (cur : option string) (s : string) : list string :=
  match s with
  | EmptyString => match cur with Some w => [w] | None => [] end
  | String c s' =>
      if Char.isspace c
      then match cur with
           | Some w => w :: split_ws_from None s'
           | None => split_ws_from None s'
           end
      else split_ws_from
             (Some (match cur with
                    | Some w => w ++ String c EmptyString
                    | None => String c EmptyString
                    end)) s'
  end.

Definition split_ws (s : string) : list string := split_ws_from None s.

(** [sep.join(l)] *)
Fixpoint join (sep : string) (l : list string) : string :=
  match l with
  | [] => EmptyString
  | [w] => w
  | w :: ws => w ++ sep ++ join sep ws
  end.

(** [s.rfind(c)], as an option. *)
Fixpoint rfind (c : ascii) (s : string) : option nat :=
  match s with
  | EmptyString => None
  | String d s' =>
      match rfind c s' with
      | Some i => Some (S i)
      | None => if Char.eqb d c then Some 0 else None
      end
  end.

(** The one-character string made of a double quote. *)
Definition DQ : string := String Char.dquote EmptyString.

(** Python's order on strings, by code points. *)
Definition ltb (s t : string) : bool :=
  match String.compare s t with Lt => true | _ => false end.

End Str.

(** ** [re]: the fragments of the regular-expression engine the scripts use *)

Module Re.

(** Case-insensitive match of a lower-case literal at the start of
    [s] (flag [re.IGNORECASE]). *)
Fixpoint istartswith (s p : string) {struct p} : bool :=
  match p, s with
  | EmptyString, _ => true
  | String _ _, EmptyString => false
  | String d p', String c s' =>
      Char.eqb (Char.lower c) d && istartswith s' p'
  end.

(** The longest prefix of [s] whose characters satisfy [p] (a greedy
    [[class]*]) and what follows it. *)
Fixpoint span (p : ascii -> bool) (s : string) : string * string :=
  match s with
  | EmptyString => (EmptyString, EmptyString)
  | String c s' =>
      if p c then let '(a, b) := span p s' in (String c a, b)
      else (EmptyString, s)
  end.

(** [pattern.sub(repl, s)] for a pattern that has no look-behind and
    never matches the empty string.  [match_at] tries the pattern at
    the start of its argument and gives the match and its length;
    [repl] is the callback, run on a state it may update.  [skip]
    counts the characters of the last match still to pass. *)
Section Sub.
Context {M St : Type}.
Variable match_at : string -> option (M * nat).
Variable repl : M -> St -> string * St.

Fixpoint sub_from (skip : nat) (s : string) (st : St) : string * St :=
  match s with
  | EmptyString => (EmptyString, st)
  | String c s' =>
      match skip with
      | S k => sub_from k s' st
      | O =>
          match match_at s with
          | Some (m, n) =>
              let '(r, st1) := repl m st in
              let '(rest, st2) := sub_from (Nat.pred n) s' st1 in
              (r ++ rest, st2)
          | None =>
              let '(rest, st1) := sub_from 0 s' st in
              (String c rest, st1)
          end
      end
  end.

Definition sub (s : string) (st : St) : string * St := sub_from 0 s st.

(** [pattern.finditer(s)]: the matches [sub] visits, in order. *)
Fixpoint finditer_from (skip : nat) (s : string) : list M :=
  match s with
  | EmptyString => []
  | String _ s' =>
      match skip with
      | S k => finditer_from k s'
      | O =>
          match match_at s with
          | Some (m, n) => m :: finditer_from (Nat.pred n) s'
          | None => finditer_from 0 s'
          end
      end
  end.

Definition finditer (s : string) : list M := finditer_from 0 s.
End Sub.

(** [pattern.sub(repl, s)] with a constant replacement; [match_len]
    gives the length of the match at the start of its argument. *)
Definition sub_const (match_len : string -> option nat) (repl : string)
           (s : string) : string :=
  fst (sub (fun t => option_map (fun n => (tt, n)) (match_len t))
           (fun _ (st : unit) => (repl, st)) s tt).

(** The pattern [[class]{n,}], greedy. *)
Definition at_least (n : nat) (p : ascii -> bool) (s : string) : option nat :=
  let k := String.length (fst (span p s)) in
  if (n <=? k) && (0 <? k) then Some k else None.

(** How many characters the greedy [(tok)*] takes at the start of
    [s]; [tok] is not empty, so [fuel] = [len(s)] rounds are enough. *)
Fixpoint reps (fuel : nat) (tok s : string) : nat :=
  match fuel with
  | O => 0
  | S fuel' =>
      if Str.startswith s tok
      then String.length tok + reps fuel' tok (Str.drop (String.length tok) s)
      else 0
  end.

(** The pattern [(tok)+], greedy. *)
Definition plus_token (tok s : string) : option nat :=
  let k := reps (String.length s) tok s in
  if 0 <? k then Some k else None.

(** [pattern.search(s)]: the first position where [match_at] succeeds. *)
Fixpoint search {M : Type} (match_at : string -> option M) (pos : nat)
         (s : string) : option (nat * M) :=
  match match_at s with
  | Some m => Some (pos, m)
  | None =>
      match s with
      | EmptyString => None
      | String _ s' => search match_at (S pos) s'
      end
  end.

End Re.

(** ** [pathlib]: the pure path operations, POSIX flavour *)

Module Pathlib.

(** The components of a path: the pieces between slashes, the empty
    ones and the single dots dropped. *)
Definition parts (p : string) : list string :=
  List.filter (fun x => negb (String.eqb x "") && negb (String.eqb x "."))
              (Str.split "/" p).

(** A name that can be the last component of a path. *)
Definition component (n : string) : Prop :=
  Str.has_char "/" n = false /\ n <> EmptyString /\ n <> ".".

(** [Path(p).name] *)
Definition name (p : string) : string := List.last (parts p) "".

(** The index of the dot that starts the suffix of a file name. *)
Definition suffix_at (n : string) : option nat :=
  match Str.rfind "." n with
  | Some i => if (0 <? i) && (i <? String.length n - 1) then Some i else None
  | None => None
  end.

(** [Path(p).suffix] *)
Definition suffix (p : string) : string :=
  let n := name p in
  match suffix_at n with Some i => Str.drop i n | None => "" end.

(** [Path(p).stem] *)
Definition stem (p : string) : string :=
  let n := name p in
  match suffix_at n with Some i => Str.take i n | None => n end.

(** [p.with_suffix(p.suffix + ext)], for a path that has a name: the
    old suffix is put back in front of [ext]. *)
Definition add_suffix (p ext : string) : string := p ++ ext.

End Pathlib.

(** ** [difflib]: [SequenceMatcher] and [get_close_matches]

    The matcher is the one [get_close_matches] builds: no junk predicate,
    [autojunk] on.  The ratios are floating-point numbers in Python; they
    are exact rationals here, which orders them the same way for all
    sequences shorter than 2^25 characters. *)

Module Difflib.

Section Matcher.
(** [a] is the first sequence, [b] the second. *)
Variables a b : list ascii.

Fixpoint indices_from (c : ascii) (l : list ascii) (i : nat) : list nat :=
  match l with
  | [] => []
  | d :: l' =>
      if Char.eqb d c then i :: indices_from c l' (S i)
      else indices_from c l' (S i)
  end.

(** An element of a long [b] is popular when it fills more than 1% of
    it (plus one); [__chain_b] removes those from [b2j]. *)
Definition popular (c : ascii) : bool :=
  (200 <=? length b)
  && (length b / 100 + 1 <? length (indices_from c b 0)).

(** [b2j.get(c, [])] *)
Definition b2j (c : ascii) : list nat :=
  if popular c then [] else indices_from c b 0.

Fixpoint lookup_len (m : list (nat * nat)) (j : nat) : nat :=
  match m with
  | [] => 0
  | (j', k) :: m' => if j' =? j then k else lookup_len m' j
  end.

(** [j2len.get(j-1, 0)] *)
Definition j2len_prev (j2len : list (nat * nat)) (j : nat) : nat :=
  match j with
  | O => 0
  | S j' => lookup_len j2len j'
  end.

(** The inner loop of [find_longest_match], over the positions [js]
    of [a[i]] in [b]. *)
Fixpoint row (i blo bhi : nat) (js : list nat) (j2len : list (nat * nat))
         (best : nat * nat * nat) (newj2len : list (nat * nat))
  : (nat * nat * nat) * list (nat * nat) :=
  match js with
  | [] => (best, newj2len)
  | j :: js' =>
      if j <? blo then row i blo bhi js' j2len best newj2len
      else if bhi <=? j then (best, newj2len)
      else
        let k := j2len_prev j2len j + 1 in
        let best' :=
          let '(_, _, bestsize) := best in
          if bestsize <? k then (i + 1 - k, j + 1 - k, k) else best in
        row i blo bhi js' j2len best' ((j, k) :: newj2len)
  end.

(** The outer loop, over [i] in [range(alo, ahi)]. *)
Fixpoint rows (rng : list nat) (blo bhi : nat) (j2len : list (nat * nat))
         (best : nat * nat * nat) : nat * nat * nat :=
  match rng with
  | [] => best
  | i :: rng' =>
      let '(best', newj2len) :=
        row i blo bhi (b2j (nth i a "000"%char)) j2len best [] in
      rows rng' blo bhi newj2len best'
  end.

Definition same_at (i j : nat) : bool :=
  match nth_error a i, nth_error b j with
  | Some c, Some d => Char.eqb c d
  | _, _ => false
  end.

(** The two loops that grow the best match at both ends. *)
Fixpoint extend_left (fuel alo blo besti bestj bestsize : nat)
  : nat * nat * nat :=
  match fuel with
  | O => (besti, bestj, bestsize)
  | S fuel' =>
      if (alo <? besti) && (blo <? bestj)
         && same_at (besti - 1) (bestj - 1)
      then extend_left fuel' alo blo (besti - 1) (bestj - 1) (bestsize + 1)
      else (besti, bestj, bestsize)
  end.

Fixpoint extend_right (fuel ahi bhi besti bestj bestsize : nat)
  : nat * nat * nat :=
  match fuel with
  | O => (besti, bestj, bestsize)
  | S fuel' =>
      if (besti + bestsize <? ahi) && (bestj + bestsize <? bhi)
         && same_at (besti + bestsize) (bestj + bestsize)
      then extend_right fuel' ahi bhi besti bestj (bestsize + 1)
      else (besti, bestj, bestsize)
  end.

(** [find_longest_match(alo, ahi, blo, bhi)].  There is no junk, so
    the two junk-absorbing loops at the end of the Python method do
    nothing and are left out. *)
Definition find_longest_match (alo ahi blo bhi : nat) : nat * nat * nat :=
  let '(besti, bestj, bestsize) :=
    rows (seq alo (ahi - alo)) blo bhi [] (alo, blo, 0) in
  let '(besti, bestj, bestsize) :=
    extend_left besti alo blo besti bestj bestsize in
  extend_right ahi ahi bhi besti bestj bestsize.

(** The work-list loop of [get_matching_blocks]; the head of [queue]
    is the entry [queue.pop()] takes. *)
Fixpoint matching_blocks (fuel : nat) (queue : list (nat * nat * nat * nat))
  : list (nat * nat * nat) :=
  match fuel with
  | O => []
  | S fuel' =>
      match queue with
      | [] => []
      | (alo, ahi, blo, bhi) :: q =>
          let '(i, j, k) := find_longest_match alo ahi blo bhi in
          if k =? 0 then matching_blocks fuel' q
          else
            let q1 := if (alo <? i) && (blo <? j)
                      then (alo, i, blo, j) :: q else q in
            let q2 := if (i + k <? ahi) && (j + k <? bhi)
                      then (i + k, ahi, j + k, bhi) :: q1 else q1 in
            (i, j, k) :: matching_blocks fuel' q2
      end
  end.

(** Every turn of the loop takes an entry whose two children cover
    fewer elements of [a], so [2 * len(a) + 1] turns are enough. *)
Definition get_matching_blocks : list (nat * nat * nat) :=
  matching_blocks (2 * length a + 1) [(0, length a, 0, length b)].

(** [_calculate_ratio] *)
Definition calculate_ratio (matches len : nat) : Q :=
  if len =? 0 then 1%Q
  else (Z.of_nat (2 * matches) # Pos.of_nat len)%Q.

(** [ratio()]: sorting and merging the blocks does not change the
    sum of their sizes. *)
Definition ratio : Q :=
  calculate_ratio
    (list_sum (List.map (fun t => snd t) get_matching_blocks))
    (length a + length b).

(** [quick_ratio()]: [avail c] is how many [c] of [b] are not yet
    paired. *)
Fixpoint quick_matches (l : list ascii) (avail : ascii -> nat) : nat :=
  match l with
  | [] => 0
  | c :: l' =>
      let numb := avail c in
      let avail' := fun d => if Char.eqb d c then numb - 1 else avail d in
      (if 0 <? numb then 1 else 0) + quick_matches l' avail'
  end.

Definition quick_ratio : Q :=
  calculate_ratio
    (quick_matches a (fun c => length (indices_from c b 0)))
    (length a + length b).

Definition real_quick_ratio : Q :=
  calculate_ratio (Nat.min (length a) (length b)) (length a + length b).
End Matcher.

(** The best match so far lies in [a[alo:hi]]. *)
Definition inside (alo hi : nat) (best : nat * nat * nat) : Prop :=
  let '(besti, _, bestsize) := best in alo <= besti /\ besti + bestsize <= hi.

(** No match recorded for the last row is longer than [n]. *)
Definition short (n : nat) (j2len : list (nat * nat)) : Prop :=
  forall j k, In (j, k) j2len -> k <= n.

(** What is left to do for a work list: each entry weighs twice the
    elements of [a] it covers, plus one. *)
Fixpoint weight (queue : list (nat * nat * nat * nat)) : nat :=
  match queue with
  | [] => 0
  | (alo, ahi, _, _) :: q => 2 * (ahi - alo) + 1 + weight q
  end.

(** Every entry of the work list is a proper range of [a]. *)
Definition ordered (queue : list (nat * nat * nat * nat)) : Prop :=
  forall alo ahi blo bhi, In (alo, ahi, blo, bhi) queue -> alo <= ahi.

Definition chars (s : string) : list ascii := list_ascii_of_string s.

(** The test [get_close_matches] applies to a possibility [x]. *)
Definition close_enough (cutoff : Q) (word x : string) : bool :=
  Qle_bool cutoff (real_quick_ratio (chars x) (chars word))
  && Qle_bool cutoff (quick_ratio (chars x) (chars word))
  && Qle_bool cutoff (ratio (chars x) (chars word)).

(** The order of the [(score, x)] tuples. *)
Definition tuple_ltb (p q : Q * string) : bool :=
  match Qcompare (fst p) (fst q) with
  | Lt => true
  | Gt => false
  | Eq => Str.ltb (snd p) (snd q)
  end.

(** [max] keeps the first of several greatest elements. *)
Fixpoint largest (cur : Q * string) (l : list (Q * string)) : Q * string :=
  match l with
  | [] => cur
  | p :: l' => largest (if tuple_ltb cur p then p else cur) l'
  end.

Definition scored (cutoff : Q) (word : string) (possibilities : list string)
  : list (Q * string) :=
  List.map (fun x => (ratio (chars x) (chars word), x))
           (List.filter (close_enough cutoff word) possibilities).

(** [get_close_matches(word, possibilities, n=1, cutoff)] *)
Definition get_close_matches (word : string) (possibilities : list string)
           (cutoff : Q) : list string :=
  match scored cutoff word possibilities with
  | [] => []
  | p :: l => [snd (largest p l)]
  end.

End Difflib.

(** ** Python dictionaries with string keys, in insertion order *)

Module Dict.

(** [d.setdefault(k, v)] *)
Fixpoint setdefault (m : list (string * string)) (k v : string)
  : list (string * string) :=
  match m with
  | [] => [(k, v)]
  | (k', v') :: m' =>
      if String.eqb k' k then m else (k', v') :: setdefault m' k v
  end.

(** [d.get(k)] *)
Fixpoint get (m : list (string * string)) (k : string) : option string :=
  match m with
  | [] => None
  | (k', v) :: m' => if String.eqb k' k then Some v else get m' k
  end.

(** [d.keys()] *)
Definition keys (m : list (string * string)) : list string := List.map fst m.

End Dict.

(** ** [fix_images.py] *)

Module FixImages.

Definition VALID_EXTS : list string :=
  [".jpg"; ".jpeg"; ".png"; ".webp"; ".gif"; ".svg"; ".avif"].

Definition is_quote (c : ascii) : bool :=
  Char.eqb c "'"%char || Char.eqb c Char.dquote.

(** *** The three compiled patterns *)

Record attr_match := {
  am_group0 : string;   (* the whole match *)
  am_attr : string;     (* the group attr, as written *)
  am_quote : ascii;     (* group 2 *)
  am_val : string       (* the group val *)
}.

(** What follows the attribute name: blanks, the equals sign, blanks,
    a quote, the value and the same quote again.  The value cannot hold
    a quote of either kind, so its greedy match is the whole run up to
    the next quote, which has to be the opening one. *)
Definition ATTR_tail (t : string) : option (ascii * string * nat) :=
  let '(w1, t1) := Re.span Char.isspace t in
  match t1 with
  | String "="%char t2 =>
      let '(w2, t3) := Re.span Char.isspace t2 in
      match t3 with
      | String q t4 =>
          if is_quote q then
            let '(v, t5) := Re.span (fun c => negb (is_quote c)) t4 in
            match v, t5 with
            | String _ _, String q' _ =>
                if Char.eqb q' q
                then Some (q, v, String.length w1 + 1 + String.length w2
                                 + 1 + String.length v + 1)
                else None
            | _, _ => None
            end
          else None
      | EmptyString => None
      end
  | _ => None
  end.

Fixpoint ATTR_alts (alts : list string) (s : string)
  : option (attr_match * nat) :=
  match alts with
  | [] => None
  | alt :: alts' =>
      let n := String.length alt in
      match (if Re.istartswith s alt then ATTR_tail (Str.drop n s)
             else None) with
      | Some (q, v, k) =>
          Some ({| am_group0 := Str.take (n + k) s;
                   am_attr := Str.take n s;
                   am_quote := q;
                   am_val := v |}, n + k)
      | None => ATTR_alts alts' s
      end
  end.

(** [ATTR_RE], tried at the start of [s]. *)
Definition ATTR_RE (s : string) : option (attr_match * nat) :=
  ATTR_alts ["src"; "srcset"; "href"] s.

Record css_match := {
  cm_group0 : string;
  cm_val : string
}.

Definition css_val_char (c : ascii) : bool :=
  negb (is_quote c || Char.eqb c ")"%char).

Definition last_char (s : string) : string :=
  Str.drop (String.length s - 1) s.

(** [CSS_URL_RE], tried at the start of [s]: the word url, an opening
    parenthesis, blanks, an optional quote, the value (no quote and no
    closing parenthesis in it), the same quote, blanks and the closing
    parenthesis.  With an opening quote the value is the run up to the
    closing one.  Without, it is the run up to the closing parenthesis,
    and when that run is empty the engine gives back the last blank it
    had skipped and takes it as the value. *)
Definition CSS_URL_RE (s : string) : option (css_match * nat) :=
  if Re.istartswith s "url(" then
    let t := Str.drop 4 s in
    let '(w, t1) := Re.span Char.isspace t in
    let found (v : string) (n : nat) :=
      Some ({| cm_group0 := Str.take n s; cm_val := v |}, n) in
    match t1 with
    | EmptyString => None
    | String c t2 =>
        if is_quote c then
          let '(v, t3) := Re.span css_val_char t2 in
          match v, t3 with
          | String _ _, String q t4 =>
              if Char.eqb q c then
                let '(w2, t5) := Re.span Char.isspace t4 in
                match t5 with
                | String ")"%char _ =>
                    found v (4 + String.length w + 1 + String.length v + 1
                             + String.length w2 + 1)
                | _ => None
                end
              else None
          | _, _ => None
          end
        else if Char.eqb c ")"%char then
          match w with
          | EmptyString => None
          | String _ _ => found (last_char w) (4 + String.length w + 1)
          end
        else
          let '(v, t3) := Re.span css_val_char t1 in
          match t3 with
          | String ")"%char _ =>
              found v (4 + String.length w + String.length v + 1)
          | _ => None
          end
    end
  else None.

Definition EXT_ALTS : list string :=
  ["jpg"; "jpeg"; "png"; "webp"; "gif"; "svg"; "avif"].

(** [\b] right after a word character: the text ends or goes on with a
    character that is not a word character. *)
Definition boundary_after_word (rest : string) : bool :=
  match rest with
  | EmptyString => true
  | String c _ => negb (Char.isword c)
  end.

(** [FIRST_EXT_RE], tried at the start of [s]; the length of the match. *)
Definition FIRST_EXT_RE (s : string) : option nat :=
  match s with
  | String "."%char t =>
      match List.find
              (fun alt => Re.istartswith t alt
                          && boundary_after_word
                               (Str.drop (String.length alt) t))
              EXT_ALTS with
      | Some alt => Some (1 + String.length alt)
      | None => None
      end
  | _ => None
  end.

(** *** The functions of the script *)

Definition slug (s : string) : string :=
  let s := Str.lower s in
  let s := Re.sub_const
             (Re.at_least 1 (fun c => Char.isspace c || Char.eqb c "_"%char))
             "-" s in
  let s := Re.sub_const
             (Re.at_least 1
                (fun c => negb (Char.islower_az c || Char.isdigit c
                                || Char.eqb c "-"%char)))
             "" s in
  let s := Re.sub_const (Re.at_least 2 (fun c => Char.eqb c "-"%char)) "-" s in
  Str.strip (fun c => Char.eqb c "-"%char) s.

(** [build_catalog]; [found] lists the regular files under the images
    directory, in the order [rglob] gives them. *)
Definition build_catalog (found : list string)
  : list string * gset string * list (string * string) :=
  let files :=
    List.filter
      (fun f => existsb (String.eqb (Str.lower (Pathlib.suffix f))) VALID_EXTS)
      found in
  let basenames : gset string := list_to_set (List.map Pathlib.name files) in
  let slug_map :=
    fold_left (fun m f => Dict.setdefault m (slug (Pathlib.stem f)) (Pathlib.name f))
              files [] in
  (files, basenames, slug_map).

Definition truncate_after_first_ext (name : string) : option string :=
  match Re.search FIRST_EXT_RE 0 name with
  | Some (start, n) => Some (Str.take (start + n) name)
  | None => None
  end.

Definition normalize_url (url : string) (make_relative : bool) : string :=
  let url := Str.before_first "#" (Str.before_first "?" url) in
  if make_relative && Str.startswith url "/" then Str.drop 1 url else url.

(** The schemes [maybe_fix_url] never touches. *)
Definition SKIPPED_PREFIXES : list string :=
  ["http:"; "https:"; "data:"; "mailto:"; "#"].

Definition in_set (x : string) (basenames : gset string) : bool :=
  bool_decide (x ∈ basenames).

(** The word the fuzzy step looks up: the slug of the stem, the
    repeated noise token taken out. *)
Definition cleaned_slug (fname : string) : string :=
  let s := slug (Pathlib.stem fname) in
  Re.sub_const (Re.plus_token "xresdefault") "" s.

(** [maybe_fix_url]; the parameter [images_dir] of the Python function
    is never read and is left out. *)
Definition maybe_fix_url (url : string) (basenames : gset string)
           (slug_map : list (string * string)) (images_web_root : string)
           (make_relative : bool) : option string :=
  if Str.startswith_any url SKIPPED_PREFIXES
  then None
  else
    let norm := normalize_url url make_relative in
    let fname := Pathlib.name norm in
    if in_set fname basenames then
      let new_url := images_web_root ++ fname in
      if String.eqb new_url url then None else Some new_url
    else
      let cut := truncate_after_first_ext fname in
      match (match cut with
             | Some c => if in_set c basenames then Some c else None
             | None => None
             end) with
      | Some c => Some (images_web_root ++ c)
      | None =>
          let s := cleaned_slug fname in
          match Difflib.get_close_matches s (Dict.keys slug_map) (6 # 10) with
          | c :: _ =>
              (* [slug_map[cand[0]]]: the key comes from [keys slug_map] *)
              match Dict.get slug_map c with
              | Some v => Some (images_web_root ++ v)
              | None => None
              end
          | [] =>
              if String.eqb norm fname && in_set fname basenames
              then Some (images_web_root ++ fname)
              else None
          end
      end.

(** Python's truth value of an optional string: [None] and the empty
    string are false. *)
Definition truthy (o : option string) : bool :=
  match o with
  | Some (String _ _) => true
  | _ => false
  end.

(** [new_url or url] *)
Definition or_else (o : option string) (d : string) : string :=
  match o with
  | Some (String c r) => String c r
  | _ => d
  end.

Section Engine.
(** The catalogue and the flag a run works with. *)
Variable basenames : gset string.
Variable slug_map : list (string * string).
Variable make_relative : bool.

Definition images_web_root : string :=
  if make_relative then "images/" else "/images/".

Definition fix_url (url : string) : option string :=
  maybe_fix_url url basenames slug_map images_web_root make_relative.

(** One turn of the loop of [fix_srcset], on a stripped entry that
    is not empty; such an entry has a first token. *)
Definition fix_entry (part : string) : string :=
  match Str.split_ws part with
  | [] => part
  | url :: tokens =>
      let rest := Str.join " " tokens in
      let new_url := fix_url url in
      Str.strip Char.isspace
        (or_else new_url url
         ++ (match rest with
             | EmptyString => ""
             | String _ _ => " " ++ rest
             end))
  end.

Definition fix_srcset (val : string) : string :=
  let parts := List.map (Str.strip Char.isspace) (Str.split "," val) in
  let out :=
    List.map fix_entry
             (List.filter (fun p => negb (String.eqb p "")) parts) in
  Str.join ", " out.

(** The filter on [src] and [href] values and on [url()] values. *)
Definition eligible (val : string) : bool :=
  Str.contains val "/images/"
  || Str.endswith_any (Str.lower val) VALID_EXTS.

(** The value [repl_attr_safe] computes for a match. *)
Definition attr_new_val (m : attr_match) : option string :=
  if String.eqb (Str.lower (am_attr m)) "srcset"
  then Some (fix_srcset (am_val m))
  else if eligible (am_val m) then fix_url (am_val m) else None.

Definition quote_of (m : attr_match) : string :=
  if Str.contains (am_group0 m) Str.DQ then Str.DQ else "'".

(** [repl_attr_safe]; the state is the counter [changed]. *)
Definition repl_attr_safe (m : attr_match) (changed : nat) : string * nat :=
  let new_val := attr_new_val m in
  if truthy new_val && negb (String.eqb (or_else new_val "") (am_val m))
  then (am_attr m ++ "=" ++ quote_of m ++ or_else new_val "" ++ quote_of m,
        changed + 1)
  else (am_group0 m, changed).

(** [repl_css] *)
Definition repl_css (m : css_match) (changed : nat) : string * nat :=
  let val := cm_val m in
  if eligible val then
    let new_val := fix_url val in
    if truthy new_val && negb (String.eqb (or_else new_val "") val)
    then ("url(" ++ Str.DQ ++ or_else new_val "" ++ Str.DQ ++ ")",
          changed + 1)
    else (cm_group0 m, changed)
  else (cm_group0 m, changed).

(** The test [new_val and new_val != val] of the two callbacks: the
    occurrence gets a new value. *)
Definition attr_substituted (m : attr_match) : bool :=
  let new_val := attr_new_val m in
  truthy new_val && negb (String.eqb (or_else new_val "") (am_val m)).

Definition css_substituted (m : css_match) : bool :=
  let new_val := fix_url (cm_val m) in
  eligible (cm_val m)
  && truthy new_val && negb (String.eqb (or_else new_val "") (cm_val m)).

(** The text transformation of [process_html]: the new text and the
    number of changes. *)
Definition process_text (text : string) : string * nat :=
  let '(new_text, changed) := Re.sub ATTR_RE repl_attr_safe text 0 in
  Re.sub CSS_URL_RE repl_css new_text changed.

(** [process_html] on a file system: the count it returns and the
    files it leaves, or nothing when [path] cannot be read. *)
Definition process_html (path : string) (write : bool)
           (fs : gmap string string) : option (nat * gmap string string) :=
  match fs !! path with
  | None => None
  | Some text =>
      let '(new_text, changed) := process_text text in
      if negb (changed =? 0) && write then
        let backup := Pathlib.add_suffix path ".bak" in
        let fs1 := match fs !! backup with
                   | Some _ => fs
                   | None => <[backup := text]> fs
                   end in
        Some (changed, <[path := new_text]> fs1)
      else Some (changed, fs)
  end.
End Engine.

End FixImages.

(** ** [tools_wire_ethicops_email.py] *)

Module WireEmail.

Definition DOMAIN : string := "ethicops.org".
Definition NAME : string := "EthicOps".

(** Role mapping: alias to canonical local part. *)
Definition local_map : list (string * string) :=
  [("hello", "hello"); ("contact", "hello"); ("info", "hello");
   ("support", "support"); ("help", "support");
   ("security", "security");
   ("press", "press"); ("media", "press");
   ("billing", "billing"); ("sales", "billing");
   ("abuse", "abuse"); ("postmaster", "postmaster")].

Definition NL : string := String "010"%char EmptyString.

(** One link of the footer block, as the template formats it. *)
Definition footer_link (local subject : string) : string :=
  "  <a href=" ++ Str.DQ ++ "mailto:" ++ local ++ "@" ++ DOMAIN
  ++ "?subject=" ++ subject ++ Str.DQ ++ ">" ++ local ++ "@" ++ DOMAIN
  ++ "</a>".

(** The opening of the contact block up to the end of its [id], and
    that of the block older versions of the script inserted; each is an
    angle bracket and what follows it. *)
Definition contacts_id : string :=
  "div id=" ++ Str.DQ ++ "contacts-ethicops" ++ Str.DQ.
Definition contacts_opener : string := String "<"%char contacts_id.

Definition auto_id : string :=
  "div id=" ++ Str.DQ ++ "auto-contacts" ++ Str.DQ.
Definition auto_opener : string := String "<"%char auto_id.

(** [footer_block], stripped and formatted. *)
Definition footer_block : string :=
  contacts_opener ++ " style=" ++ Str.DQ
  ++ "margin-top:1.25rem;font-size:.95rem;line-height:1.5" ++ Str.DQ ++ ">"
  ++ NL ++ "  <strong>Contact " ++ NAME ++ ":</strong>"
  ++ NL ++ footer_link "hello" "General%20Inquiry%20-%20EthicOps"
  ++ " &middot;"
  ++ NL ++ footer_link "support" "Support%20Request%20-%20Kame-Ha"
  ++ " &middot;"
  ++ NL ++ footer_link "security" "Vulnerability%20Disclosure%20-%20EthicOps"
  ++ " &middot;"
  ++ NL ++ footer_link "press" "Media%20Inquiry%20-%20EthicOps"
  ++ " &middot;"
  ++ NL ++ footer_link "billing" "Billing%20Question%20-%20EthicOps"
  ++ NL ++ "</div>".

(** *** [mailto_re] and [rewrite_mailto] *)

Record mailto_match := {
  mm_group0 : string;
  mm_local : string;            (* group 1 *)
  mm_dom : string;              (* group 2 *)
  mm_query : option string      (* group 3, [None] when it took no part *)
}.

Definition isalpha_az (c : ascii) : bool :=
  Char.islower_az c || Char.isupper_az c.

(** [[A-Z0-9._%+\-]] under [(?i)] *)
Definition local_char (c : ascii) : bool :=
  isalpha_az c || Char.isdigit c
  || Char.eqb c "."%char || Char.eqb c "_"%char || Char.eqb c "%"%char
  || Char.eqb c "+"%char || Char.eqb c "-"%char.

(** [[A-Z0-9.\-]] under [(?i)] *)
Definition dom_char (c : ascii) : bool :=
  isalpha_az c || Char.isdigit c
  || Char.eqb c "."%char || Char.eqb c "-"%char.

(** The class of the query string: anything but a quote, a blank
    and the closing angle bracket. *)
Definition query_char (c : ascii) : bool :=
  negb (Char.eqb c Char.dquote || Char.eqb c "'"%char || Char.isspace c
        || Char.eqb c ">"%char).

(** Where [[A-Z0-9.\-]+\.[A-Z]{2,}] ends inside [d], a run of domain
    characters read from position [pos] of the run: the greedy first
    part gives back characters until a dot followed by two letters or
    more comes next, so the last such dot that is not the first
    character is taken, with all the letters after it. *)
Fixpoint dom_end (d : string) (pos : nat) : option nat :=
  match d with
  | EmptyString => None
  | String c d' =>
      match dom_end d' (S pos) with
      | Some e => Some e
      | None =>
          let letters := String.length (fst (Re.span isalpha_az d')) in
          if Char.eqb c "."%char && (0 <? pos) && (2 <=? letters)
          then Some (pos + 1 + letters) else None
      end
  end.

(** [mailto_re], tried at the start of [s]. *)
Definition mailto_re (s : string) : option (mailto_match * nat) :=
  if Re.istartswith s "mailto:" then
    let '(local, t1) := Re.span local_char (Str.drop 7 s) in
    match local, t1 with
    | String _ _, String "@"%char t2 =>
        match dom_end (fst (Re.span dom_char t2)) 0 with
        | Some e =>
            let t3 := Str.drop e t2 in
            let query :=
              match t3 with
              | String "?"%char t4 =>
                  Some (String "?"%char (fst (Re.span query_char t4)))
              | _ => None
              end in
            let n := 7 + String.length local + 1 + e
                     + match query with
                       | Some q => String.length q
                       | None => 0
                       end in
            Some ({| mm_group0 := Str.take n s;
                     mm_local := local;
                     mm_dom := Str.take e t2;
                     mm_query := query |}, n)
        | None => None
        end
    | _, _ => None
    end
  else None.

(** [rewrite_mailto] *)
Definition rewrite_mailto (m : mailto_match) : string :=
  let query := match mm_query m with
               | Some (String c q) => String c q
               | _ => EmptyString
               end in
  match Dict.get local_map (Str.lower (mm_local m)) with
  | Some (String c r) =>
      "mailto:" ++ String c r ++ "@" ++ DOMAIN ++ query
  | _ => mm_group0 m
  end.

(** [mailto_re.sub(rewrite_mailto, t)] *)
Definition normalize_mailto (t : string) : string :=
  fst (Re.sub mailto_re (fun m (st : unit) => (rewrite_mailto m, st)) t tt).

(** *** [insert_footer] *)

(** [re.search(pat, s, flags=re.I)] for a literal [pat]: where it
    first occurs. *)
Fixpoint find_ci (pat s : string) : option nat :=
  if Re.istartswith s pat then Some 0
  else match s with
       | EmptyString => None
       | String _ s' => option_map S (find_ci pat s')
       end.

(** [opener.*?</div>\s*] with [re.I|re.S], tried at the start of [s]:
    the lazy [.*?] stops at the first closing tag. *)
Definition block_re (opener : string) (s : string) : option nat :=
  if Re.istartswith s opener then
    let n := String.length opener in
    match find_ci "</div>" (Str.drop n s) with
    | Some i =>
        let blanks := fst (Re.span Char.isspace (Str.drop (n + i + 6) s)) in
        Some (n + i + 6 + String.length blanks)
    | None => None
    end
  else None.

Definition remove_blocks (opener : string) (html : string) : string :=
  Re.sub_const (block_re opener) EmptyString html.

(** [re.sub(tag, footer_block + NL + tag, html, count=1, flags=re.I)],
    when [tag] occurs at [i]. *)
Definition insert_before (i : nat) (tag html : string) : string :=
  Str.take i html ++ footer_block ++ NL ++ tag
  ++ Str.drop (i + String.length tag) html.

(** The text the two removals leave. *)
Definition without_old_blocks (html : string) : string :=
  remove_blocks contacts_opener (remove_blocks auto_opener html).

(** How many times [pat] occurs in [s], whatever the case: the count
    of the positions where [re.match(pat, s[k:], re.I)] succeeds. *)
Fixpoint count_ci (pat s : string) : nat :=
  (if Re.istartswith s pat then 1 else 0)
  + match s with
    | EmptyString => 0
    | String _ s' => count_ci pat s'
    end.

(** The insertion alone, on the text the removals left. *)
Definition place_block (h : string) : string :=
  match find_ci "</footer>" h with
  | Some i => insert_before i "</footer>" h
  | None =>
      match find_ci "</body>" h with
      | Some i => insert_before i "</body>" h
      | None => h ++ NL ++ footer_block ++ NL
      end
  end.

(** A text with no opener of either kind. *)
Definition clean (h : string) : Prop :=
  count_ci contacts_opener h = 0 /\ count_ci auto_opener h = 0.

(** The text [r] cannot continue a match of [o] begun before it: it is
    empty, or its first character is none of the characters of [o]. *)
Definition blocked (r o : string) : Prop :=
  match r with
  | EmptyString => True
  | String c _ => Str.has_char (Char.lower c) o = false
  end.

Definition insert_footer (html : string) : string :=
  let html := remove_blocks auto_opener html in
  let html := remove_blocks contacts_opener html in
  match find_ci "</footer>" html with
  | Some i => insert_before i "</footer>" html
  | None =>
      match find_ci "</body>" html with
      | Some i => insert_before i "</body>" html
      | None => html ++ NL ++ footer_block ++ NL
      end
  end.

End WireEmail.

(** ** Shapes of strings *)

Module Shape.

(** Every character of [s] is in the class [p]. *)
Fixpoint all_chars (p : ascii -> bool) (s : string) : bool :=
  match s with
  | EmptyString => true
  | String c s' => p c && all_chars p s'
  end.

(** No two characters of the class [p] stand next to each other. *)
Fixpoint no_run2 (p : ascii -> bool) (s : string) : bool :=
  match s with
  | EmptyString => true
  | String c s' =>
      match s' with
      | EmptyString => true
      | String d _ => negb (p c && p d) && no_run2 p s'
      end
  end.

Definition first_in (p : ascii -> bool) (s : string) : bool :=
  match s with
  | EmptyString => false
  | String c _ => p c
  end.

Fixpoint last_in (p : ascii -> bool) (s : string) : bool :=
  match s with
  | EmptyString => false
  | String c s' =>
      match s' with
      | EmptyString => p c
      | String _ _ => last_in p s'
      end
  end.

Definition is_hyphen (c : ascii) : bool := Char.eqb c "-"%char.

(** The characters a slug is made of. *)
Definition slug_char (c : ascii) : bool :=
  Char.islower_az c || Char.isdigit c || is_hyphen c.

(** A slug in normal form: lower-case letters, digits and single
    hyphens, none of them at either end. *)
Definition slug_shaped (s : string) : bool :=
  all_chars slug_char s && no_run2 is_hyphen s
  && negb (first_in is_hyphen s) && negb (last_in is_hyphen s).

(** [re.sub] of the pattern [[class]{n,}] by the constant [r]. *)
Definition runs_replaced (n : nat) (p : ascii -> bool) (r s : string)
  : string :=
  Re.sub_const (Re.at_least n p) r s.

(** The two classes [slug] substitutes. *)
Definition blank_or_underscore (c : ascii) : bool :=
  Char.isspace c || Char.eqb c "_"%char.

Definition not_slug_char (c : ascii) : bool :=
  negb (Char.islower_az c || Char.isdigit c || Char.eqb c "-"%char).

(** A token of a [srcset] entry: not empty, no blank and no comma in it. *)
Definition token_char (c : ascii) : bool :=
  negb (Char.isspace c) && negb (Char.eqb c ","%char).

Definition token (t : string) : bool :=
  negb (String.eqb t "") && all_chars token_char t.

(** An entry of a [srcset] as a list of tokens: the URL first. *)
Definition entry (tokens : list string) : bool :=
  match tokens with
  | [] => false
  | _ :: _ => forallb token tokens
  end.

(** A text that is not empty and has no blank at either end. *)
Definition trimmed (e : string) : Prop :=
  e <> "" /\ first_in Char.isspace e = false
  /\ last_in Char.isspace e = false.

(** A text that is a directory part: empty, or ended by a slash. *)
Definition dir_part (d : string) : Prop :=
  d = "" \/ exists dir, d = dir ++ "/".

(** The text of a [srcset] in normal form. *)
Definition srcset_text (entries : list (list string)) : string :=
  Str.join ", " (List.map (Str.join " ") entries).






End Shape.

(** ** [json.dumps] on strings, lists and dictionaries *)

Module Json.

#[warnings="-register-all"]
Inductive value :=
| Str (s : string)
| Arr (l : list value)
| Obj (l : list (string * value)).

Definition hexdigit (n : nat) : ascii :=
  nth n (list_ascii_of_string "0123456789abcdef") "0"%char.

Definition BS : string := String "092"%char EmptyString.

(** The escape of one character, [ensure_ascii=False]. *)
Definition escape_char (c : ascii) : string :=
  let n := Char.code c in
  if n =? 34 then BS ++ Str.DQ
  else if n =? 92 then BS ++ BS
  else if n =? 10 then BS ++ "n"
  else if n =? 13 then BS ++ "r"
  else if n =? 9 then BS ++ "t"
  else if n =? 8 then BS ++ "b"
  else if n =? 12 then BS ++ "f"
  else if n <? 32
       then BS ++ "u00" ++ String (hexdigit (n / 16))
                             (String (hexdigit (n mod 16)) EmptyString)
  else String c EmptyString.

Fixpoint escape (s : string) : string :=
  match s with
  | EmptyString => EmptyString
  | String c s' => escape_char c ++ escape s'
  end.

Definition encode_string (s : string) : string := Str.DQ ++ escape s ++ Str.DQ.

(** [json.dumps(v, ensure_ascii=False)] with the default separators. *)
Fixpoint dumps (v : value) : string :=
  match v with
  | Str s => encode_string s
  | Arr l => "[" ++ Str.join ", " (List.map dumps l) ++ "]"
  | Obj l =>
      "{" ++ Str.join ", "
               (List.map (fun kv => encode_string (fst kv) ++ ": "
                                    ++ dumps (snd kv)) l)
      ++ "}"
  end.

End Json.

(** ** [fix_images.py]: the command line *)

Module FixImagesMain.
Import FixImages.

(** What [find_images_root] ends with: the directory, or the line it
    prints on the standard error and the status it exits with. *)
Inductive located :=
| Root (p : string)
| SysExit (stderr : string) (code : nat).

Definition CANDIDATES : list string :=
  ["images"; "public/images"; "static/images"; "assets/images"].

(** [find_images_root]; [is_dir p] is [Path(p).is_dir()], and the
    string returned stands for the path made of it. *)
Definition find_images_root (is_dir : string -> bool)
           (explicit : option string) : located :=
  if truthy explicit then
    let e := or_else explicit "" in
    if is_dir e then Root e
    else SysExit ("[!] --images-dir '" ++ e ++ "' not found.") 1
  else
    match List.find is_dir CANDIDATES with
    | Some p => Root p
    | None =>
        SysExit
          "[!] Could not find an images directory (tried images/, public/images/, static/images/, assets/images/)."
          1
    end.

(** [str(n)] for a natural number. *)
Definition str_of_nat (n : nat) : string :=
  NilZero.string_of_uint (Nat.to_uint n).

(** The parsed command line. *)
Record Args := {
  images_dir : option string;
  make_paths_relative : bool;
  dry_run : bool;
  root : string
}.

(** What the script asks the file system besides the text of the HTML
    files: which paths are directories, the regular files [rglob] finds
    under a directory and the paths [rglob] finds for the pattern of
    the HTML files under the project root, each in the order [rglob]
    gives them. *)
Record World := {
  is_dir : string -> bool;
  regular_files : string -> list string;
  html_files : string -> list string
}.

(** The line printed for a file that was changed. *)
Definition fix_line (f : string) (changed : nat) : string :=
  "[fix] " ++ f ++ "  (+" ++ str_of_nat changed ++ " change"
  ++ (if negb (changed =? 1) then "s" else "") ++ ")".

(** How the loop over the HTML files ends: with the total, the lines
    printed and the files left, or with the exception [process_html]
    raised on a path it could not read. *)
Inductive looped :=
| Looped (total : nat) (stdout : list string) (fs : gmap string string)
| Raised (stdout : list string) (fs : gmap string string).

Section Loop.
Variable basenames : gset string.
Variable slug_map : list (string * string).
Variable make_relative : bool.
Variable write : bool.

Fixpoint html_loop (files : list string) (total_changes : nat)
         (stdout : list string) (fs : gmap string string) : looped :=
  match files with
  | [] => Looped total_changes stdout fs
  | f :: files' =>
      match process_html basenames slug_map make_relative f write fs with
      | None => Raised stdout fs
      | Some (changed, fs') =>
          if negb (changed =? 0)
          then html_loop files' (total_changes + changed)
                         (stdout ++ [fix_line f changed]) fs'
          else html_loop files' total_changes stdout fs'
      end
  end.
(** The text of a file, the count [process_html] gives for it and
    whether it is rewritten, as the files stand in [fs]. *)
Definition text_in (fs : gmap string string) (f : string) : string :=
  default "" (fs !! f).
Definition changed_in (fs : gmap string string) (f : string) : nat :=
  snd (process_text basenames slug_map make_relative (text_in fs f)).
Definition rewritten_in (fs : gmap string string) (f : string) : bool :=
  negb (changed_in fs f =? 0) && write.
End Loop.

(** Lines of the kind the loop prints. *)
Definition fix_lines (out : list string) : Prop :=
  Forall (fun l => Str.startswith l "[fix] " = true) out.

(** How [main] ends. *)
Inductive outcome :=
| Exited (stderr : string) (code : nat)
| Crashed (stdout : list string) (fs : gmap string string)
| Returned (stdout : list string) (fs : gmap string string).

(** [main], after the command line is parsed.  The namespace has no
    attribute of the name with a hyphen in it, so the directory given
    to [find_images_root] is the attribute [images_dir]. *)
Definition main (args : Args) (w : World) (fs : gmap string string)
  : outcome :=
  match find_images_root (is_dir w) (images_dir args) with
  | SysExit msg code => Exited msg code
  | Root dir =>
      let '(files, basenames, slug_map) :=
        build_catalog (regular_files w dir) in
      match html_loop basenames slug_map (make_paths_relative args)
                      (negb (dry_run args))
                      (html_files w (root args)) 0 [] fs with
      | Raised stdout fs' => Crashed stdout fs'
      | Looped total_changes stdout fs' =>
          Returned
            (stdout
             ++ (if total_changes =? 0 then ["No changes needed."]
                 else ("Done. " ++ str_of_nat total_changes
                       ++ " replacement(s) made.")
                      :: (if negb (dry_run args)
                          then ["Backups written alongside files as *.bak"]
                          else [])))
            fs'
      end
  end.

(** The runs of [process_html] on one path, one after the other, each
    with a catalogue and flags of its own; nothing when a run cannot
    read the path. *)
Fixpoint runs (path : string)
         (l : list (gset string * list (string * string) * bool * bool))
         (fs : gmap string string) : option (gmap string string) :=
  match l with
  | [] => Some fs
  | (basenames, slug_map, make_relative, write) :: l' =>
      match process_html basenames slug_map make_relative path write fs with
      | None => None
      | Some (_, fs') => runs path l' fs'
      end
  end.

End FixImagesMain.

(** ** [tools_wire_ethicops_email.py]: the structured data and the loop *)

Module WireEmailMain.
Import WireEmail.

(** [json_ld] *)
Definition json_ld : Json.value :=
  Json.Obj
    [("@context", Json.Str "https://schema.org");
     ("@type", Json.Str "Organization");
     ("name", Json.Str NAME);
     ("url", Json.Str ("https://" ++ DOMAIN ++ "/"));
     ("contactPoint",
      Json.Arr
        [Json.Obj [("@type", Json.Str "ContactPoint");
                   ("contactType", Json.Str "customer support");
                   ("email", Json.Str ("support@" ++ DOMAIN))];
         Json.Obj [("@type", Json.Str "ContactPoint");
                   ("contactType", Json.Str "security");
                   ("email", Json.Str ("security@" ++ DOMAIN))]])].

Definition json_ld_tag : string :=
  "<script type=" ++ Str.DQ ++ "application/ld+json" ++ Str.DQ ++ ">"
  ++ Json.dumps json_ld ++ "</script>".

(** The test on the page: one of the two spellings of the media type
    occurs in it, and so does the name. *)
Definition has_json_ld (html : string) : bool :=
  (Str.contains html "Application/ld+json"
   || Str.contains html "application/ld+json")
  && Str.contains html NAME.

(** [insert_json_ld].  The replacement text holds no backslash, so
    [re.sub] puts it in as it stands. *)
Definition insert_json_ld (html : string) : string :=
  if has_json_ld html then html
  else
    match find_ci "</head>" html with
    | Some i =>
        Str.take i html ++ json_ld_tag ++ NL ++ "</head>"
        ++ Str.drop (i + 7) html
    | None => html
    end.

(** The text with the tag matched at [i] written as [tag]. *)
Definition retagged (i : nat) (tag h : string) : string :=
  Str.take i h ++ tag ++ Str.drop (i + String.length tag) h.


(** The three steps the script runs on the text of a page. *)
Definition wire (t : string) : string :=
  let t2 := normalize_mailto t in
  let t3 := insert_footer t2 in
  insert_json_ld t3.

(** How the loop over the pages ends: with the names of the files it
    wrote and the files left, or with the exception [read_text]
    raised. *)
Inductive looped :=
| Looped (updated : list string) (fs : gmap string string)
| Raised (fs : gmap string string).

Fixpoint html_loop (html_files : list string) (updated : list string)
         (fs : gmap string string) : looped :=
  match html_files with
  | [] => Looped updated fs
  | p :: html_files' =>
      match fs !! p with
      | None => Raised fs
      | Some t =>
          let t4 := wire t in
          if negb (String.eqb t4 t)
          then html_loop html_files' (updated ++ [Pathlib.name p])
                         (<[p := t4]> fs)
          else html_loop html_files' updated fs
      end
  end.

(** The lines the script prints at its end. *)
Definition report (updated : list string) : list string :=
  "Updated files:" :: List.map (fun n => " - " ++ n) updated.

End WireEmailMain.

(** ** Sample catalogues *)

Module Samples.
Import FixImages.

(** The files, the names and the slugs [build_catalog] gives for a
    listing. *)
Definition catalog_files (found : list string) : list string :=
  fst (fst (build_catalog found)).
Definition names_of (found : list string) : gset string :=
  snd (fst (build_catalog found)).
Definition slugs_of (found : list string) : list (string * string) :=
  snd (build_catalog found).

(** The catalogue of one image, [images/minneapolis_skyline.webp]. *)
Definition skyline : list string := ["images/minneapolis_skyline.webp"].
Definition skyline_names : gset string := names_of skyline.
Definition skyline_slugs : list (string * string) := slugs_of skyline.

(** A thumbnail and its converted copy. *)
Definition thumbs : list string :=
  ["images/thumbnail.jpg"; "images/thumbnail-jpg.webp"].

(** Two plain images. *)
Definition pair_ab : list string := ["images/a.jpg"; "images/b.jpg"].

(** An image whose name has a blank in it, and another. *)
Definition photos : list string := ["images/my photo.jpg"; "images/my.jpg"].

End Samples.

(** * Properties *)

(** ** Facts on strings *)

Module StrFacts.

#[local] Arguments String.append !s1 s2 / : simpl nomatch.

Lemma app_cons (c : ascii) (s t : string) :
  String c s ++ t = String c (s ++ t).
Proof. reflexivity. Qed.

Lemma app_empty_r (s : string) : s ++ EmptyString = s.
Proof. induction s as [|c s IH]; [reflexivity|]. rewrite app_cons, IH. reflexivity. Qed.

Lemma app_assoc (s t u : string) : (s ++ t) ++ u = s ++ t ++ u.
Proof.
  induction s as [|c s IH]; [reflexivity|].
  rewrite !app_cons, IH. reflexivity.
Qed.

Lemma length_app (s t : string) :
  String.length (s ++ t) = String.length s + String.length t.
Proof.
  induction s as [|c s IH]; [reflexivity|].
  rewrite app_cons. simpl. rewrite IH. reflexivity.
Qed.

Lemma char_eqb_refl (c : ascii) : Char.eqb c c = true.
Proof. apply Ascii.eqb_refl. Qed.

Lemma char_eqb_eq (c d : ascii) : Char.eqb c d = true <-> c = d.
Proof. apply Ascii.eqb_eq. Qed.

Lemma char_eqb_neq (c d : ascii) : Char.eqb c d = false <-> c <> d.
Proof. apply Ascii.eqb_neq. Qed.

Lemma startswith_app (p x : string) : Str.startswith (p ++ x) p = true.
Proof.
  induction p as [|c p IH]; [reflexivity|].
  rewrite app_cons. simpl. rewrite char_eqb_refl, IH. reflexivity.
Qed.

Lemma startswith_spec (s p : string) :
  Str.startswith s p = true <-> exists r, s = p ++ r.
Proof.
  revert s. induction p as [|d p IH]; intros s.
  - split; [exists s; reflexivity | reflexivity].
  - destruct s as [|c s]; simpl.
    + split; [discriminate | intros [r Hr]; discriminate].
    + rewrite andb_true_iff, char_eqb_eq, IH. split.
      * intros [-> [r ->]]. exists r. reflexivity.
      * intros [r Hr]. injection Hr as -> ->. eauto.
Qed.

Lemma take_drop (n : nat) (s : string) : Str.take n s ++ Str.drop n s = s.
Proof.
  revert s. induction n as [|n IH]; intros [|c s]; try reflexivity.
  simpl. rewrite IH. reflexivity.
Qed.

Lemma drop_app_length (s t : string) : Str.drop (String.length s) (s ++ t) = t.
Proof. induction s as [|c s IH]; [reflexivity|]. exact IH. Qed.

Lemma take_app_length (s t : string) : Str.take (String.length s) (s ++ t) = s.
Proof.
  induction s as [|c s IH]; [reflexivity|].
  rewrite app_cons. simpl. rewrite IH. reflexivity.
Qed.

End StrFacts.

(** ** The resolution of one value: [maybe_fix_url] *)

Module Resolution.
Import StrFacts FixImages Samples.

Ltac split_ifs :=
  repeat match goal with
         | H : context [if ?b then _ else _] |- _ => destruct b eqn:?
         | H : context [match ?x with _ => _ end] |- _ => destruct x eqn:?
         end.

(** Whatever [maybe_fix_url] returns is the web root followed by a name. *)
Lemma maybe_fix_url_shape url bn sm root flag v :
  maybe_fix_url url bn sm root flag = Some v -> exists x, v = root ++ x.
Proof.
  unfold maybe_fix_url. intros H.
  split_ifs; try discriminate; injection H as <-; eauto.
Qed.

Lemma maybe_fix_url_skips url bn sm root flag :
  Str.startswith_any url SKIPPED_PREFIXES = true ->
  maybe_fix_url url bn sm root flag = None.
Proof. unfold maybe_fix_url. intros ->. reflexivity. Qed.

(** C7.  Every value the resolution produces starts with the canonical
    images web root.  With the relative-paths flag the root is [images/]
    and the value does not start with a slash; without the flag the
    root is [/images/] and the value starts with a slash. *)
Theorem resolved_value_has_canonical_prefix
  (basenames : gset string) (slug_map : list (string * string))
  (make_relative : bool) (url v : string) :
  fix_url basenames slug_map make_relative url = Some v ->
  Str.startswith v (images_web_root make_relative) = true
  /\ (if make_relative
      then images_web_root make_relative = "images/"
           /\ Str.startswith v "/" = false
      else images_web_root make_relative = "/images/"
           /\ Str.startswith v "/" = true).
Proof.
  unfold fix_url. intros H.
  destruct (maybe_fix_url_shape _ _ _ _ _ _ H) as [x ->].
  split; [apply startswith_app|].
  destruct make_relative; split; reflexivity.
Qed.

Lemma resolved_value_has_canonical_prefix_witness :
  fix_url skyline_names skyline_slugs false "minneapolis-skyline.webp"
  = Some "/images/minneapolis_skyline.webp"
  /\ Str.startswith "/images/minneapolis_skyline.webp" "/images/" = true
  /\ Str.startswith "/images/minneapolis_skyline.webp" "/" = true.
Proof.
  assert (H : fix_url skyline_names skyline_slugs false
                "minneapolis-skyline.webp"
              = Some "/images/minneapolis_skyline.webp")
    by (vm_compute; reflexivity).
  split; [exact H|].
  destruct (resolved_value_has_canonical_prefix _ _ _ _ _ H) as [H1 [_ H2]].
  split; assumption.
Defined.

(** C4, as amended.  A value that starts with [http:], [https:],
    [data:], [mailto:] or [#] is never resolved, whatever the catalogue:
    [maybe_fix_url] returns nothing for it; a [src] or [href] attribute
    and a [url()] with such a value are put back as they were matched,
    the counter unchanged; and an entry of a [srcset] whose URL is such
    a value keeps that URL, followed by its descriptor. *)
Theorem skipped_schemes_are_left_alone
  (basenames : gset string) (slug_map : list (string * string))
  (make_relative : bool) (url : string) :
  Str.startswith_any url SKIPPED_PREFIXES = true ->
  fix_url basenames slug_map make_relative url = None
  /\ (forall (m : attr_match) (changed : nat),
        am_val m = url ->
        Str.lower (am_attr m) <> "srcset" ->
        repl_attr_safe basenames slug_map make_relative m changed
        = (am_group0 m, changed))
  /\ (forall (m : css_match) (changed : nat),
        cm_val m = url ->
        repl_css basenames slug_map make_relative m changed
        = (cm_group0 m, changed))
  /\ (forall (part : string) (tokens : list string),
        Str.split_ws part = url :: tokens ->
        fix_entry basenames slug_map make_relative part
        = Str.strip Char.isspace
            (url ++ match Str.join " " tokens with
                    | EmptyString => EmptyString
                    | String c r => " " ++ String c r
                    end)).
Proof.
  intros Hskip.
  assert (Hnone : fix_url basenames slug_map make_relative url = None)
    by (apply maybe_fix_url_skips; exact Hskip).
  split; [exact Hnone|]. split; [|split].
  - intros m changed Hval Hattr. unfold repl_attr_safe, attr_new_val.
    apply String.eqb_neq in Hattr. rewrite Hattr, Hval, Hnone.
    destruct (eligible url); reflexivity.
  - intros m changed Hval. unfold repl_css. rewrite Hval, Hnone.
    destruct (eligible url); reflexivity.
  - intros part tokens Hsplit. unfold fix_entry.
    rewrite Hsplit, Hnone. simpl or_else.
    destruct (Str.join " " tokens); reflexivity.
Qed.

Lemma skipped_schemes_are_left_alone_witness :
  Str.startswith_any "https://cdn.example/a.jpg" SKIPPED_PREFIXES = true
  /\ fix_url skyline_names skyline_slugs true "https://cdn.example/a.jpg"
     = None.
Proof.
  split; [reflexivity|].
  apply (skipped_schemes_are_left_alone skyline_names skyline_slugs true
           "https://cdn.example/a.jpg").
  reflexivity.
Defined.

(** C4, as stated, fails on a [srcset]: the value of the attribute
    starts with [https:], nothing in the catalogue matches, and yet the
    value comes out changed (re-joined with a blank after the comma)
    and is counted. *)
Lemma srcset_value_with_https_is_rewritten :
  List.map am_val
    (Re.finditer ATTR_RE
       "<img srcset='https://cdn.example/a.jpg 1x,https://cdn.example/b.jpg 2x'>")
  = ["https://cdn.example/a.jpg 1x,https://cdn.example/b.jpg 2x"]
  /\ Str.startswith_any
       "https://cdn.example/a.jpg 1x,https://cdn.example/b.jpg 2x"
       SKIPPED_PREFIXES = true
  /\ process_text ∅ [] true
       "<img srcset='https://cdn.example/a.jpg 1x,https://cdn.example/b.jpg 2x'>"
     = ("<img srcset='https://cdn.example/a.jpg 1x, https://cdn.example/b.jpg 2x'>",
        1).
Proof. repeat split; vm_compute; reflexivity. Qed.

(** C2.  The code does not do what the claim (and the comment above
    the truncation step) says: [FIRST_EXT_RE] ends in a word boundary,
    so an extension followed by a letter is not a match, and the first
    match in [thumbnail.jpgxresdefault.jpg] is the extension at its very
    end.  The truncation keeps the whole name; the value is resolved by
    the fuzzy step, which prefers [thumbnail-jpg.webp] when the
    catalogue has it next to [thumbnail.jpg].  Garbage that starts with
    a character outside the word class is cut as the claim says. *)
Lemma truncation_stops_at_word_boundary_only :
  FIRST_EXT_RE ".jpgxresdefault.jpg" = None
  /\ truncate_after_first_ext "thumbnail.jpgxresdefault.jpg"
     = Some "thumbnail.jpgxresdefault.jpg"
  /\ in_set "thumbnail.jpg" (names_of thumbs) = true
  /\ fix_url (names_of thumbs) (slugs_of thumbs) true
       "media/thumbnail.jpgxresdefault.jpg"
     = Some "images/thumbnail-jpg.webp"
  /\ truncate_after_first_ext "thumbnail.jpg-xresdefault.jpg"
     = Some "thumbnail.jpg".
Proof. repeat split; vm_compute; reflexivity. Qed.

End Resolution.

(** ** The fuzzy step: [difflib.get_close_matches] *)

Module DifflibFacts.
Import Difflib.









End DifflibFacts.

(** ** The loops of [SequenceMatcher] run to their end *)

Module DifflibTotal.
Import Difflib.

Section Bounds.
Variables a b : list ascii.

Lemma lookup_len_short (n : nat) (m : list (nat * nat)) (j : nat) :
  short n m -> lookup_len m j <= n.
Proof.
  induction m as [|[j' k] m IH]; simpl; intros H; [lia|].
  destruct (j' =? j).
  - apply (H j' k). left. reflexivity.
  - apply IH. intros j0 k0 H0. apply (H j0 k0). right. exact H0.
Qed.

Lemma j2len_prev_short (n : nat) (m : list (nat * nat)) (j : nat) :
  short n m -> j2len_prev m j <= n.
Proof.
  intros H. destruct j as [|j]; simpl; [lia|]. apply lookup_len_short. exact H.
Qed.

Lemma row_inside (alo i blo bhi : nat) (js : list nat)
      (j2len : list (nat * nat)) (best : nat * nat * nat)
      (newj2len : list (nat * nat)) :
  alo <= i -> short (i - alo) j2len ->
  inside alo (S i) best -> short (S i - alo) newj2len ->
  inside alo (S i) (fst (row i blo bhi js j2len best newj2len))
  /\ short (S i - alo) (snd (row i blo bhi js j2len best newj2len)).
Proof.
  intros Hi Hprev. revert best newj2len.
  induction js as [|j js IH]; intros best newj2len Hbest Hnew; simpl.
  - auto.
  - destruct (j <? blo); [apply IH; assumption|].
    destruct (bhi <=? j); [auto|].
    pose proof (j2len_prev_short _ _ j Hprev) as Hk.
    apply IH.
    + destruct best as [[bi bj] bs].
      destruct (bs <? j2len_prev j2len j + 1); [|exact Hbest].
      simpl. lia.
    + intros j0 k0 [H|H]; [injection H as <- <-; lia | eapply Hnew; exact H].
Qed.

Lemma rows_inside (alo blo bhi : nat) (n i : nat)
      (j2len : list (nat * nat)) (best : nat * nat * nat) :
  alo <= i -> short (i - alo) j2len -> inside alo i best ->
  inside alo (i + n) (rows a b (seq i n) blo bhi j2len best).
Proof.
  revert i j2len best. induction n as [|n IH]; intros i j2len best Hi Hs Hb.
  - simpl. rewrite Nat.add_0_r. exact Hb.
  - simpl.
    assert (Hb' : inside alo (S i) best).
    { destruct best as [[bi bj] bs]. simpl in *. lia. }
    assert (Hnil : short (S i - alo) []) by (intros j k []).
    pose proof (row_inside alo i blo bhi (b2j b (nth i a "000"%char))
                  j2len best [] Hi Hs Hb' Hnil) as [H1 H2].
    destruct (row i blo bhi (b2j b (nth i a "000"%char)) j2len best [])
      as [best' new].
    simpl in H1, H2.
    replace (i + S n) with (S i + n) by lia.
    apply IH; [lia | exact H2 | exact H1].
Qed.

Lemma extend_left_inside (fuel alo blo hi bi bj bs : nat) :
  inside alo hi (bi, bj, bs) ->
  inside alo hi (extend_left a b fuel alo blo bi bj bs).
Proof.
  revert bi bj bs. induction fuel as [|fuel IH]; intros bi bj bs H; simpl.
  - exact H.
  - destruct ((alo <? bi) && (blo <? bj) && same_at a b (bi - 1) (bj - 1))
      eqn:E; [|exact H].
    apply IH. apply andb_true_iff in E. destruct E as [E _].
    apply andb_true_iff in E. destruct E as [E _].
    apply Nat.ltb_lt in E. simpl in *. lia.
Qed.

Lemma extend_right_inside (fuel alo ahi bhi bi bj bs : nat) :
  inside alo ahi (bi, bj, bs) ->
  inside alo ahi (extend_right a b fuel ahi bhi bi bj bs).
Proof.
  revert bs. induction fuel as [|fuel IH]; intros bs H; simpl.
  - exact H.
  - destruct ((bi + bs <? ahi) && (bj + bs <? bhi)
              && same_at a b (bi + bs) (bj + bs)) eqn:E; [|exact H].
    apply IH. apply andb_true_iff in E. destruct E as [E _].
    apply andb_true_iff in E. destruct E as [E _].
    apply Nat.ltb_lt in E. simpl in *. lia.
Qed.

(** The match [find_longest_match] returns lies in [a[alo:ahi]]. *)
Lemma find_longest_match_inside (alo ahi blo bhi : nat) :
  alo <= ahi ->
  inside alo ahi (find_longest_match a b alo ahi blo bhi).
Proof.
  intros H. unfold find_longest_match.
  assert (H0 : inside alo (alo + (ahi - alo))
                 (rows a b (seq alo (ahi - alo)) blo bhi [] (alo, blo, 0))).
  { apply rows_inside; [lia | intros j k [] | simpl; lia]. }
  replace (alo + (ahi - alo)) with ahi in H0 by lia.
  destruct (rows a b (seq alo (ahi - alo)) blo bhi [] (alo, blo, 0))
    as [[bi bj] bs].
  pose proof (extend_left_inside bi alo blo ahi bi bj bs H0) as H1.
  destruct (extend_left a b bi alo blo bi bj bs) as [[bi' bj'] bs'].
  apply extend_right_inside. exact H1.
Qed.

(** With fuel for the weight of the work list the loop runs to its end:
    more fuel gives the same blocks. *)
Lemma matching_blocks_enough (fuel extra : nat)
      (queue : list (nat * nat * nat * nat)) :
  ordered queue -> weight queue <= fuel ->
  matching_blocks a b (fuel + extra) queue = matching_blocks a b fuel queue.
Proof.
  revert queue. induction fuel as [|fuel IH]; intros queue Ho Hw.
  - destruct queue as [|[[[alo ahi] blo] bhi] q]; [|simpl in Hw; lia].
    destruct extra; reflexivity.
  - destruct queue as [|[[[alo ahi] blo] bhi] q]; [reflexivity|].
    simpl in Hw. simpl.
    assert (Hle : alo <= ahi) by (apply (Ho alo ahi blo bhi); left; reflexivity).
    assert (Hq : ordered q).
    { intros x y z w H. apply (Ho x y z w). right. exact H. }
    pose proof (find_longest_match_inside alo ahi blo bhi Hle) as Hin.
    destruct (find_longest_match a b alo ahi blo bhi) as [[i j] k].
    simpl in Hin.
    destruct (k =? 0) eqn:Ek.
    + apply IH; [exact Hq | lia].
    + apply Nat.eqb_neq in Ek. f_equal. apply IH.
      * intros x y z w H.
        destruct ((i + k <? ahi) && (j + k <? bhi)) eqn:E1;
          destruct ((alo <? i) && (blo <? j)) eqn:E2;
          simpl in H;
          repeat match goal with
                 | H : _ \/ _ |- _ => destruct H as [H|H]
                 | H : (_, _, _, _) = (_, _, _, _) |- _ =>
                     injection H as <- <- <- <-
                 end;
          try (eapply Hq; eassumption);
          try (apply andb_true_iff in E1; destruct E1 as [E1 _];
               apply Nat.ltb_lt in E1; lia);
          try (apply andb_true_iff in E2; destruct E2 as [E2 _];
               apply Nat.ltb_lt in E2; lia).
      * destruct ((i + k <? ahi) && (j + k <? bhi)) eqn:E1;
          destruct ((alo <? i) && (blo <? j)) eqn:E2; simpl; lia.
Qed.

(** [get_matching_blocks] has fuel enough. *)
Lemma get_matching_blocks_total (extra : nat) :
  matching_blocks a b (2 * length a + 1 + extra) [(0, length a, 0, length b)]
  = get_matching_blocks a b.
Proof.
  unfold get_matching_blocks. apply matching_blocks_enough.
  - intros x y z w [H|[]]. injection H as <- <- <- <-. lia.
  - simpl. lia.
Qed.
End Bounds.

(** The two extension loops of [find_longest_match] run to their end
    with the fuel the model gives them. *)
Lemma extend_left_enough (a b : list ascii) (fuel extra alo blo bi bj bs : nat) :
  bi <= fuel ->
  extend_left a b (fuel + extra) alo blo bi bj bs
  = extend_left a b fuel alo blo bi bj bs.
Proof.
  revert bi bj bs. induction fuel as [|fuel IH]; intros bi bj bs H.
  - assert (bi = 0) as -> by lia. destruct extra; [reflexivity|].
    simpl. destruct (alo <? 0) eqn:E; [apply Nat.ltb_lt in E; lia|reflexivity].
  - simpl.
    destruct ((alo <? bi) && (blo <? bj) && same_at a b (bi - 1) (bj - 1))
      eqn:E; [|reflexivity].
    apply IH. apply andb_true_iff in E. destruct E as [E _].
    apply andb_true_iff in E. destruct E as [E _].
    apply Nat.ltb_lt in E. lia.
Qed.

Lemma extend_right_enough (a b : list ascii) (fuel extra ahi bhi bi bj bs : nat) :
  ahi <= fuel + (bi + bs) ->
  extend_right a b (fuel + extra) ahi bhi bi bj bs
  = extend_right a b fuel ahi bhi bi bj bs.
Proof.
  revert bs. induction fuel as [|fuel IH]; intros bs H.
  - destruct extra; [reflexivity|]. simpl.
    destruct (bi + bs <? ahi) eqn:E; [apply Nat.ltb_lt in E; lia|reflexivity].
  - simpl.
    destruct ((bi + bs <? ahi) && (bj + bs <? bhi)
              && same_at a b (bi + bs) (bj + bs)) eqn:E; [|reflexivity].
    apply IH. lia.
Qed.

End DifflibTotal.

(** ** The repetition loop of the regular expressions has fuel enough *)

Module ReFacts.

Lemma drop_length_le (n : nat) (s : string) :
  String.length (Str.drop n s) <= String.length s - n.
Proof.
  revert s. induction n as [|n IH]; intros [|c s]; simpl; try lia.
  apply IH.
Qed.



End ReFacts.

(** ** Substitution with a counting callback *)

Module SubFacts.

Section SubCount.
Context {M : Type}.
Variable match_at : string -> option (M * nat).
Variable repl : M -> nat -> string * nat.
Variable hit : M -> bool.
Hypothesis repl_counts :
  forall m c, snd (repl m c) = if hit m then c + 1 else c.

Lemma sub_from_counts (skip : nat) (s : string) (c : nat) :
  snd (Re.sub_from match_at repl skip s c)
  = c + length (List.filter hit (Re.finditer_from match_at skip s)).
Proof.
  revert skip c. induction s as [|ch s IH]; intros skip c; simpl.
  - lia.
  - destruct skip as [|k]; [|apply IH].
    destruct (match_at (String ch s)) as [[m n]|].
    + pose proof (repl_counts m c) as Hm.
      destruct (repl m c) as [r st1]. simpl in Hm. subst st1.
      pose proof (IH (Nat.pred n) (if hit m then c + 1 else c)) as H.
      destruct (Re.sub_from match_at repl (Nat.pred n) s
                  (if hit m then c + 1 else c)) as [rest st2].
      simpl in H. simpl. rewrite H. destruct (hit m); simpl; lia.
    + pose proof (IH 0 c) as H.
      destruct (Re.sub_from match_at repl 0 s c) as [rest st1].
      exact H.
Qed.
End SubCount.

End SubFacts.

(** ** The callbacks and the pass over a text *)

Module EngineFacts.
Import StrFacts FixImages Samples.

Lemma istartswith_lower_take (s p : string) :
  Re.istartswith s p = true -> Str.lower (Str.take (String.length p) s) = p.
Proof.
  revert s. induction p as [|d p IH]; intros s; [reflexivity|].
  destruct s as [|c s]; simpl; [discriminate|].
  rewrite andb_true_iff, char_eqb_eq. intros [-> H].
  rewrite (IH _ H). reflexivity.
Qed.

Lemma ATTR_alts_attr (alts : list string) (s : string) (m : attr_match) (n : nat) :
  ATTR_alts alts s = Some (m, n) -> In (Str.lower (am_attr m)) alts.
Proof.
  induction alts as [|alt alts IH]; simpl; [discriminate|].
  destruct (Re.istartswith s alt) eqn:E.
  - destruct (ATTR_tail (Str.drop (String.length alt) s)) as [[[q v] k]|].
    + intros H. injection H as <- _. simpl. left.
      symmetry. apply istartswith_lower_take. exact E.
    + auto.
  - auto.
Qed.

Section Callbacks.
Variable basenames : gset string.
Variable slug_map : list (string * string).
Variable make_relative : bool.

(** C3, as amended.  The filter is on every attribute that is not a
    [srcset], so on [src] as much as on [href], and on [url()]: such a
    value is resolved only if it contains [/images/] or ends, whatever
    the case, in an allowed extension, and is put back as matched
    otherwise; a [srcset] value always goes through [fix_srcset]. *)
Theorem filter_applies_to_src_and_href_not_to_srcset :
  (forall (s : string) (m : attr_match) (n : nat) (changed : nat),
      ATTR_RE s = Some (m, n) ->
      (Str.lower (am_attr m) = "srcset"
       /\ attr_new_val basenames slug_map make_relative m
          = Some (fix_srcset basenames slug_map make_relative (am_val m)))
      \/ ((Str.lower (am_attr m) = "src" \/ Str.lower (am_attr m) = "href")
          /\ attr_new_val basenames slug_map make_relative m
             = (if eligible (am_val m)
                then fix_url basenames slug_map make_relative (am_val m)
                else None)
          /\ (eligible (am_val m) = false ->
              repl_attr_safe basenames slug_map make_relative m changed
              = (am_group0 m, changed))))
  /\ (forall (m : css_match) (changed : nat),
        eligible (cm_val m) = false ->
        repl_css basenames slug_map make_relative m changed
        = (cm_group0 m, changed))
  /\ (forall val : string,
        eligible val
        = Str.contains val "/images/"
          || existsb (Str.endswith (Str.lower val)) VALID_EXTS).
Proof.
  split; [|split].
  - intros s m n changed H. apply ATTR_alts_attr in H.
    unfold repl_attr_safe, attr_new_val.
    destruct H as [H|[H|[H|[]]]]; rewrite <- H.
    + right. split; [auto|]. split; [reflexivity|].
      intros ->. reflexivity.
    + left. split; reflexivity.
    + right. split; [auto|]. split; [reflexivity|].
      intros ->. reflexivity.
  - intros m changed H. unfold repl_css. rewrite H. reflexivity.
  - reflexivity.
Qed.

Lemma repl_attr_safe_spec (m : attr_match) (changed : nat) :
  repl_attr_safe basenames slug_map make_relative m changed
  = if attr_substituted basenames slug_map make_relative m
    then (am_attr m ++ "=" ++ quote_of m
          ++ or_else (attr_new_val basenames slug_map make_relative m) ""
          ++ quote_of m, changed + 1)
    else (am_group0 m, changed).
Proof. reflexivity. Qed.

Lemma repl_css_spec (m : css_match) (changed : nat) :
  repl_css basenames slug_map make_relative m changed
  = if css_substituted basenames slug_map make_relative m
    then ("url(" ++ Str.DQ
          ++ or_else (fix_url basenames slug_map make_relative (cm_val m)) ""
          ++ Str.DQ ++ ")", changed + 1)
    else (cm_group0 m, changed).
Proof.
  unfold repl_css, css_substituted.
  destruct (eligible (cm_val m)); reflexivity.
Qed.

(** C6, as amended.  The count [process_html] returns is the number
    of matched occurrences that got a new value: the attributes
    [ATTR_RE] finds in the text, then the [url()] values [CSS_URL_RE]
    finds in the text the first pass left.  Each such occurrence adds
    exactly one, a [srcset] attribute too, however many of its entries
    were resolved; an occurrence put back as matched adds nothing. *)
Theorem change_count_is_number_of_substituted_occurrences (text : string) :
  snd (process_text basenames slug_map make_relative text)
  = length (List.filter
              (attr_substituted basenames slug_map make_relative)
              (Re.finditer ATTR_RE text))
    + length (List.filter
                (css_substituted basenames slug_map make_relative)
                (Re.finditer CSS_URL_RE
                   (fst (Re.sub ATTR_RE
                           (repl_attr_safe basenames slug_map make_relative)
                           text 0))))
  /\ (forall (m : attr_match) (changed : nat),
        repl_attr_safe basenames slug_map make_relative m changed
        = if attr_substituted basenames slug_map make_relative m
          then (fst (repl_attr_safe basenames slug_map make_relative m changed),
                changed + 1)
          else (am_group0 m, changed))
  /\ (forall (m : css_match) (changed : nat),
        repl_css basenames slug_map make_relative m changed
        = if css_substituted basenames slug_map make_relative m
          then (fst (repl_css basenames slug_map make_relative m changed),
                changed + 1)
          else (cm_group0 m, changed)).
Proof.
  split; [|split].
  - assert (Ha : forall m c,
               snd (repl_attr_safe basenames slug_map make_relative m c)
               = if attr_substituted basenames slug_map make_relative m
                 then c + 1 else c).
    { intros m c. rewrite repl_attr_safe_spec.
      destruct (attr_substituted basenames slug_map make_relative m);
        reflexivity. }
    assert (Hc : forall m c,
               snd (repl_css basenames slug_map make_relative m c)
               = if css_substituted basenames slug_map make_relative m
                 then c + 1 else c).
    { intros m c. rewrite repl_css_spec.
      destruct (css_substituted basenames slug_map make_relative m);
        reflexivity. }
    unfold process_text, Re.sub, Re.finditer.
    pose proof (SubFacts.sub_from_counts ATTR_RE _ _ Ha 0 text 0) as H1.
    destruct (Re.sub_from ATTR_RE
                (repl_attr_safe basenames slug_map make_relative) 0 text 0)
      as [mid c1] eqn:E1.
    rewrite (SubFacts.sub_from_counts CSS_URL_RE _ _ Hc).
    simpl in H1. simpl. rewrite H1. reflexivity.
  - intros m changed. rewrite repl_attr_safe_spec.
    destruct (attr_substituted basenames slug_map make_relative m);
      reflexivity.
  - intros m changed. rewrite repl_css_spec.
    destruct (css_substituted basenames slug_map make_relative m);
      reflexivity.
Qed.

End Callbacks.

Lemma filter_applies_to_src_and_href_not_to_srcset_witness :
  ATTR_RE "HREF = 'docs/manual.pdf'>"
  = Some ({| am_group0 := "HREF = 'docs/manual.pdf'";
             am_attr := "HREF";
             am_quote := "'";
             am_val := "docs/manual.pdf" |}, 24)
  /\ eligible "docs/manual.pdf" = false
  /\ attr_new_val skyline_names skyline_slugs true
       {| am_group0 := "HREF = 'docs/manual.pdf'";
          am_attr := "HREF";
          am_quote := "'";
          am_val := "docs/manual.pdf" |} = None.
Proof.
  assert (H : ATTR_RE "HREF = 'docs/manual.pdf'>"
              = Some ({| am_group0 := "HREF = 'docs/manual.pdf'";
                         am_attr := "HREF";
                         am_quote := "'";
                         am_val := "docs/manual.pdf" |}, 24))
    by (vm_compute; reflexivity).
  split; [exact H|]. split; [vm_compute; reflexivity|].
  destruct (proj1 (filter_applies_to_src_and_href_not_to_srcset
                     skyline_names skyline_slugs true) _ _ _ 0 H)
    as [[H1 _]|[_ [H2 _]]].
  - vm_compute in H1. discriminate.
  - exact H2.
Defined.

(** C3, as stated, fails on [src]: a [src] value with no extension and
    no [/images/] in it is not looked at, though the resolution would
    find its image, while the same value in a [srcset] is resolved. *)
Lemma src_value_goes_through_the_filter :
  fix_url (names_of ["images/thumbnail.jpg"]) (slugs_of ["images/thumbnail.jpg"])
    true "thumbnail" = Some "images/thumbnail.jpg"
  /\ process_text (names_of ["images/thumbnail.jpg"])
       (slugs_of ["images/thumbnail.jpg"]) true "<img src='thumbnail'>"
     = ("<img src='thumbnail'>", 0)
  /\ process_text (names_of ["images/thumbnail.jpg"])
       (slugs_of ["images/thumbnail.jpg"]) true "<img srcset='thumbnail'>"
     = ("<img srcset='images/thumbnail.jpg'>", 1).
Proof. repeat split; vm_compute; reflexivity. Qed.

(** C6, as stated, fails on [srcset]: two values resolved in one
    attribute count as one change, and an attribute in which no value
    is resolved counts as a change when its entries are re-joined. *)
Lemma srcset_counts_once_and_counts_rejoining :
  process_text (names_of pair_ab) (slugs_of pair_ab) true
    "<img srcset='x/a.jpg 1x, x/b.jpg 2x'>"
  = ("<img srcset='images/a.jpg 1x, images/b.jpg 2x'>", 1)
  /\ fix_url (names_of pair_ab) (slugs_of pair_ab) true "x/a.jpg"
     = Some "images/a.jpg"
  /\ fix_url (names_of pair_ab) (slugs_of pair_ab) true "x/b.jpg"
     = Some "images/b.jpg"
  /\ process_text ∅ [] true "<img srcset='a.jpg 1x,b.jpg 2x'>"
     = ("<img srcset='a.jpg 1x, b.jpg 2x'>", 1)
  /\ fix_url ∅ [] true "a.jpg" = None
  /\ fix_url ∅ [] true "b.jpg" = None.
Proof. repeat split; vm_compute; reflexivity. Qed.

Section FileEffect.
Variable basenames : gset string.
Variable slug_map : list (string * string).
Variable make_relative : bool.

Lemma backup_path_differs (path : string) :
  Pathlib.add_suffix path ".bak" <> path.
Proof.
  unfold Pathlib.add_suffix. intros H.
  apply (f_equal String.length) in H. rewrite length_app in H.
  simpl in H. lia.
Qed.

(** C8.  [process_html] leaves every file as it was when the count is
    zero or when it is run without [write] (a dry run).  Otherwise the
    processed file holds the transformed text, the [.bak] file next to
    it holds what it held before if it existed and the original text if
    it did not, and no other file is touched. *)
Theorem process_html_file_effect
  (path : string) (write : bool) (fs : gmap string string) (text : string) :
  fs !! path = Some text ->
  let new_text := fst (process_text basenames slug_map make_relative text) in
  let changed := snd (process_text basenames slug_map make_relative text) in
  let backup := Pathlib.add_suffix path ".bak" in
  exists fs' : gmap string string,
    process_html basenames slug_map make_relative path write fs
    = Some (changed, fs')
    /\ (changed = 0 \/ write = false -> fs' = fs)
    /\ (changed <> 0 -> write = true ->
        fs' !! path = Some new_text
        /\ fs' !! backup = Some (match fs !! backup with
                                 | Some old => old
                                 | None => text
                                 end)
        /\ forall p : string, p <> path -> p <> backup -> fs' !! p = fs !! p).
Proof.
  intros Hread new_text changed backup. unfold process_html. rewrite Hread.
  subst new_text changed.
  destruct (process_text basenames slug_map make_relative text)
    as [new_text changed].
  simpl fst. simpl snd.
  pose proof (backup_path_differs path) as Hne. fold backup in Hne.
  destruct (changed =? 0) eqn:Ez; simpl negb; simpl andb.
  - apply Nat.eqb_eq in Ez. eexists. split; [reflexivity|].
    split; [reflexivity|]. intros Hnz. contradiction.
  - apply Nat.eqb_neq in Ez. destruct write.
    + eexists. split; [reflexivity|]. split.
      * intros [H|H]; [contradiction|discriminate].
      * intros _ _. fold backup. split; [apply lookup_insert_eq|]. split.
        -- rewrite lookup_insert_ne by (intros H; apply Hne; symmetry; exact H).
           destruct (fs !! backup) as [old|] eqn:Eb.
           ++ exact Eb.
           ++ apply lookup_insert_eq.
        -- intros p Hp Hb.
           rewrite lookup_insert_ne by (intros H; apply Hp; symmetry; exact H).
           destruct (fs !! backup); [reflexivity|].
           rewrite lookup_insert_ne by (intros H; apply Hb; symmetry; exact H).
           reflexivity.
    + eexists. split; [reflexivity|]. split; [reflexivity|].
      intros _ H. discriminate.
Qed.

End FileEffect.

Lemma process_html_file_effect_witness :
  exists fs' : gmap string string,
    process_html (names_of pair_ab) (slugs_of pair_ab) true "index.html" true
      {[ "index.html" := "<img src='x/a.jpg'>" ]}
    = Some (1, fs')
    /\ fs' !! "index.html" = Some "<img src='images/a.jpg'>"
    /\ fs' !! "index.html.bak" = Some "<img src='x/a.jpg'>".
Proof.
  assert (Hread : ({[ "index.html" := "<img src='x/a.jpg'>" ]}
                   : gmap string string) !! "index.html"
                  = Some "<img src='x/a.jpg'>")
    by (vm_compute; reflexivity).
  destruct (process_html_file_effect (names_of pair_ab) (slugs_of pair_ab)
              true "index.html" true _ _ Hread)
    as [fs' [H1 [_ H2]]].
  exists fs'.
  assert (E : process_text (names_of pair_ab) (slugs_of pair_ab) true
                "<img src='x/a.jpg'>" = ("<img src='images/a.jpg'>", 1))
    by (vm_compute; reflexivity).
  rewrite E in H1, H2. simpl in H1, H2.
  split; [exact H1|].
  destruct (H2 ltac:(discriminate) eq_refl) as [Ha [Hb _]].
  split; [exact Ha|].
  rewrite Hb. vm_compute. reflexivity.
Defined.

End EngineFacts.

(** ** Running the engine twice *)

Module SecondRun.
Import StrFacts FixImages Samples Resolution.
#[local] Arguments String.append !s1 s2 / : simpl nomatch.

Lemma split_no_sep (c : ascii) (s : string) :
  Str.has_char c s = false -> Str.split c s = [s].
Proof.
  induction s as [|d s IH]; simpl; [reflexivity|].
  rewrite orb_false_iff. intros [-> H]. rewrite (IH H). reflexivity.
Qed.

Lemma split_app_sep (c : ascii) (a b : string) :
  Str.has_char c a = false ->
  Str.split c (a ++ String c b) = a :: Str.split c b.
Proof.
  induction a as [|d a IH]; simpl.
  - intros _. rewrite char_eqb_refl. reflexivity.
  - rewrite orb_false_iff. intros [-> H]. rewrite (IH H). reflexivity.
Qed.

Lemma split_pieces (c : ascii) (s w : string) :
  In w (Str.split c s) -> Str.has_char c w = false.
Proof.
  revert w. induction s as [|d s IH]; simpl; intros w.
  - intros [<-|[]]. reflexivity.
  - destruct (Char.eqb d c) eqn:E.
    + intros [<-|H]; [reflexivity|auto].
    + destruct (Str.split c s) as [|w0 ws] eqn:Es.
      * intros [<-|[]]. simpl. rewrite E. reflexivity.
      * intros [<-|H].
        -- simpl. rewrite E. apply IH. left. reflexivity.
        -- apply IH. right. exact H.
Qed.

Lemma last_in_or_default {A : Type} (l : list A) (d : A) :
  List.last l d = d \/ In (List.last l d) l.
Proof.
  induction l as [|x l IH]; [left; reflexivity|].
  destruct l as [|y l]; [right; left; reflexivity|].
  destruct IH as [H|H].
  - change (List.last (x :: y :: l) d) with (List.last (y :: l) d).
    rewrite H. left. reflexivity.
  - right. right. exact H.
Qed.

Lemma name_no_slash (p : string) : Str.has_char "/" (Pathlib.name p) = false.
Proof.
  unfold Pathlib.name.
  destruct (last_in_or_default (Pathlib.parts p) "") as [->|H]; [reflexivity|].
  unfold Pathlib.parts in H. apply filter_In in H. destruct H as [H _].
  apply split_pieces in H. exact H.
Qed.

Lemma before_first_absent (c : ascii) (s : string) :
  Str.has_char c s = false -> Str.before_first c s = s.
Proof.
  induction s as [|d s IH]; simpl; [reflexivity|].
  rewrite orb_false_iff. intros [-> H]. rewrite (IH H). reflexivity.
Qed.

Lemma name_under_root (flag : bool) (n : string) :
  Pathlib.component n -> Pathlib.name (images_web_root flag ++ n) = n.
Proof.
  intros [Hs [He Hd]].
  apply String.eqb_neq in He. apply String.eqb_neq in Hd.
  unfold Pathlib.name, Pathlib.parts.
  destruct flag.
  - change (images_web_root true ++ n) with ("images" ++ String "/" n).
    rewrite split_app_sep by reflexivity. rewrite (split_no_sep _ _ Hs).
    simpl. rewrite He, Hd. reflexivity.
  - change (images_web_root false ++ n)
      with ("" ++ String "/" ("images" ++ String "/" n)).
    rewrite split_app_sep by reflexivity.
    rewrite split_app_sep by reflexivity. rewrite (split_no_sep _ _ Hs).
    simpl. rewrite He, Hd. reflexivity.
Qed.

Lemma has_char_app (c : ascii) (s t : string) :
  Str.has_char c (s ++ t) = Str.has_char c s || Str.has_char c t.
Proof.
  induction s as [|d s IH]; simpl; [reflexivity|].
  rewrite IH. apply orb_assoc.
Qed.

Lemma normalize_under_root (flag : bool) (n : string) :
  Str.has_char "?" n = false -> Str.has_char "#" n = false ->
  normalize_url (images_web_root flag ++ n) flag = images_web_root flag ++ n.
Proof.
  intros Hq Hh. unfold normalize_url.
  rewrite !before_first_absent.
  - destruct flag; reflexivity.
  - rewrite has_char_app, Hq. destruct flag; reflexivity.
  - rewrite before_first_absent.
    + rewrite has_char_app, Hh. destruct flag; reflexivity.
    + rewrite has_char_app, Hq. destruct flag; reflexivity.
Qed.

Lemma in_set_true (x : string) (bn : gset string) :
  in_set x bn = true <-> x ∈ bn.
Proof. unfold in_set. apply bool_decide_eq_true. Qed.

(** A value already in canonical form is not resolved again. *)
Lemma canonical_value_is_kept (bn : gset string) (sm : list (string * string))
      (flag : bool) (n : string) :
  n ∈ bn -> Pathlib.component n ->
  Str.has_char "?" n = false -> Str.has_char "#" n = false ->
  fix_url bn sm flag (images_web_root flag ++ n) = None.
Proof.
  intros Hin Hc Hq Hh. unfold fix_url, maybe_fix_url.
  replace (Str.startswith_any (images_web_root flag ++ n) SKIPPED_PREFIXES)
    with false by (destruct flag; reflexivity).
  rewrite normalize_under_root by assumption.
  rewrite name_under_root by assumption.
  apply in_set_true in Hin. rewrite Hin.
  rewrite String.eqb_refl. reflexivity.
Qed.

Lemma maybe_fix_url_in_catalog url (bn : gset string) sm root flag v :
  (forall k x, Dict.get sm k = Some x -> x ∈ bn) ->
  maybe_fix_url url bn sm root flag = Some v ->
  exists n, v = root ++ n /\ n ∈ bn.
Proof.
  intros Hsm. unfold maybe_fix_url.
  destruct (Str.startswith_any url SKIPPED_PREFIXES); [discriminate|].
  set (fname := Pathlib.name (normalize_url url flag)).
  destruct (in_set fname bn) eqn:E1.
  - destruct (String.eqb (root ++ fname) url); [discriminate|].
    intros H. injection H as <-. exists fname.
    split; [reflexivity | apply in_set_true; exact E1].
  - rewrite andb_false_r.
    assert (Hfuzzy :
              match Difflib.get_close_matches (cleaned_slug fname)
                      (Dict.keys sm) (6 # 10) with
              | [] => None
              | c :: _ => match Dict.get sm c with
                          | Some x => Some (root ++ x)
                          | None => None
                          end
              end = Some v -> exists n, v = root ++ n /\ n ∈ bn).
    { destruct (Difflib.get_close_matches _ _ _) as [|c rest];
        [discriminate|].
      destruct (Dict.get sm c) as [x|] eqn:Ex; [|discriminate].
      intros H. injection H as <-. exists x.
      split; [reflexivity | eapply Hsm; exact Ex]. }
    destruct (truncate_after_first_ext fname) as [c|]; [|exact Hfuzzy].
    destruct (in_set c bn) eqn:E2; [|exact Hfuzzy].
    intros H. injection H as <-. exists c.
    split; [reflexivity | apply in_set_true; exact E2].
Qed.

(* catalogue invariants *)
Lemma dict_get_in (m : list (string * string)) (k v : string) :
  Dict.get m k = Some v -> In (k, v) m.
Proof.
  induction m as [|[k' v'] m IH]; simpl; [discriminate|].
  destruct (String.eqb k' k) eqn:E.
  - apply String.eqb_eq in E. intros H. injection H as ->. subst. auto.
  - auto.
Qed.

Lemma setdefault_values (m : list (string * string)) (k v : string) p :
  In p (Dict.setdefault m k v) -> In p m \/ p = (k, v).
Proof.
  induction m as [|[k' v'] m IH]; simpl.
  - intros [<-|[]]. auto.
  - destruct (String.eqb k' k).
    + intros H. left. exact H.
    + intros [<-|H]; [auto|].
      destruct (IH H); auto.
Qed.

Lemma slug_map_values (files : list string) (m : list (string * string)) p :
  In p (fold_left (fun m f => Dict.setdefault m (slug (Pathlib.stem f))
                                (Pathlib.name f)) files m) ->
  In p m \/ exists f, In f files /\ snd p = Pathlib.name f.
Proof.
  revert m. induction files as [|f files IH]; simpl; intros m H; [auto|].
  destruct (IH _ H) as [H1|[g [Hg Hp]]].
  - destruct (setdefault_values _ _ _ _ H1) as [H2| ->]; [auto|].
    right. exists f. auto.
  - right. exists g. auto.
Qed.

Lemma names_of_spec (found : list string) (n : string) :
  n ∈ names_of found <->
  exists f, In f (catalog_files found) /\ n = Pathlib.name f.
Proof.
  unfold names_of, catalog_files, build_catalog. simpl.
  rewrite elem_of_list_to_set, list_elem_of_In, in_map_iff.
  split; intros [f [H1 H2]]; exists f; auto.
Qed.

Lemma slugs_of_values (found : list string) (k v : string) :
  Dict.get (slugs_of found) k = Some v -> v ∈ names_of found.
Proof.
  intros H. apply dict_get_in in H.
  unfold slugs_of, build_catalog in H. simpl in H.
  apply slug_map_values in H. destruct H as [[]|[f [Hf Hv]]].
  apply names_of_spec. exists f. auto.
Qed.

Lemma suffix_at_bounds (n : string) (i : nat) :
  Pathlib.suffix_at n = Some i -> 0 < i /\ i < String.length n - 1.
Proof.
  unfold Pathlib.suffix_at. destruct (Str.rfind "." n) as [j|]; [|discriminate].
  destruct ((0 <? j) && (j <? String.length n - 1)) eqn:E; [|discriminate].
  intros H. injection H as <-. apply andb_true_iff in E.
  destruct E as [E1 E2]. apply Nat.ltb_lt in E1. apply Nat.ltb_lt in E2. auto.
Qed.

Lemma catalog_file_component (found : list string) (f : string) :
  In f (catalog_files found) -> Pathlib.component (Pathlib.name f).
Proof.
  unfold catalog_files, build_catalog. simpl. intros H.
  apply filter_In in H. destruct H as [_ H].
  split; [apply name_no_slash|].
  unfold Pathlib.suffix in H.
  destruct (Pathlib.suffix_at (Pathlib.name f)) as [i|] eqn:E.
  - apply suffix_at_bounds in E.
    split; intros Hn; rewrite Hn in E; simpl in E; lia.
  - vm_compute in H. discriminate.
Qed.

(** C1, as amended.  For a catalogue [build_catalog] made, whose file
    names have no [?] and no [#] in them: a value the resolution
    produced is not resolved a second time, so a [src] or [href]
    attribute and a [url()] that carry it are put back as matched and
    add nothing to the count of the second run. *)
Theorem resolved_value_is_not_resolved_again
  (found : list string) (make_relative : bool) (url v : string) :
  (forall n : string, n ∈ names_of found ->
     Str.has_char "?" n = false /\ Str.has_char "#" n = false) ->
  fix_url (names_of found) (slugs_of found) make_relative url = Some v ->
  fix_url (names_of found) (slugs_of found) make_relative v = None
  /\ (forall (m : attr_match) (changed : nat),
        am_val m = v ->
        Str.lower (am_attr m) <> "srcset" ->
        repl_attr_safe (names_of found) (slugs_of found) make_relative
          m changed = (am_group0 m, changed))
  /\ (forall (m : css_match) (changed : nat),
        cm_val m = v ->
        repl_css (names_of found) (slugs_of found) make_relative m changed
        = (cm_group0 m, changed)).
Proof.
  intros Hclean Hfix.
  assert (Hnone : fix_url (names_of found) (slugs_of found) make_relative v
                  = None).
  { unfold fix_url in Hfix.
    apply maybe_fix_url_in_catalog in Hfix; [|apply slugs_of_values].
    destruct Hfix as [n [-> Hn]].
    destruct (Hclean n Hn) as [Hq Hh].
    apply canonical_value_is_kept; try assumption.
    apply names_of_spec in Hn. destruct Hn as [f [Hf ->]].
    eapply catalog_file_component. exact Hf. }
  split; [exact Hnone|]. split.
  - intros m changed Hval Hattr. unfold repl_attr_safe, attr_new_val.
    apply String.eqb_neq in Hattr. rewrite Hattr, Hval, Hnone.
    destruct (eligible v); reflexivity.
  - intros m changed Hval. unfold repl_css. rewrite Hval, Hnone.
    destruct (eligible v); reflexivity.
Qed.

Lemma resolved_value_is_not_resolved_again_witness :
  fix_url (names_of pair_ab) (slugs_of pair_ab) true "x/a.jpg?v=3"
  = Some "images/a.jpg"
  /\ fix_url (names_of pair_ab) (slugs_of pair_ab) true "images/a.jpg" = None.
Proof.
  assert (H : fix_url (names_of pair_ab) (slugs_of pair_ab) true "x/a.jpg?v=3"
              = Some "images/a.jpg") by (vm_compute; reflexivity).
  split; [exact H|].
  apply (resolved_value_is_not_resolved_again pair_ab true "x/a.jpg?v=3"
           "images/a.jpg"); [|exact H].
  intros n Hn. apply names_of_spec in Hn. destruct Hn as [f [Hf ->]].
  vm_compute in Hf. destruct Hf as [<-|[<-|[]]]; split; reflexivity.
Defined.

(** C1, as stated, fails.  With an image whose name has a blank in it,
    the value a first run writes into a [srcset] is read by the second
    run as a URL followed by a descriptor, and that URL is resolved to
    another image.  With plain names, a first run can close a quote
    that was left open before a [url()], and the second run then finds
    an attribute the first did not. *)
Lemma second_run_changes_the_text :
  process_text (names_of photos) (slugs_of photos) true
    "<img srcset='my-photo.jpg 2x'>"
  = ("<img srcset='images/my photo.jpg 2x'>", 1)
  /\ process_text (names_of photos) (slugs_of photos) true
       "<img srcset='images/my photo.jpg 2x'>"
     = ("<img srcset='images/my.jpg photo.jpg 2x'>", 1)
  /\ process_text (names_of pair_ab) (slugs_of pair_ab) true
       ("<img src=" ++ Str.DQ ++ "/images/a.jpg url('x/b.jpg')>")
     = ("<img src=" ++ Str.DQ ++ "/images/a.jpg url(" ++ Str.DQ
        ++ "images/b.jpg" ++ Str.DQ ++ ")>", 1)
  /\ process_text (names_of pair_ab) (slugs_of pair_ab) true
       ("<img src=" ++ Str.DQ ++ "/images/a.jpg url(" ++ Str.DQ
        ++ "images/b.jpg" ++ Str.DQ ++ ")>")
     = ("<img src=" ++ Str.DQ ++ "images/a.jpg" ++ Str.DQ
        ++ "images/b.jpg" ++ Str.DQ ++ ")>", 1).
Proof. repeat split; vm_compute; reflexivity. Qed.

End SecondRun.

(** ** The mailto links: [rewrite_mailto] *)

Module MailtoFacts.
Import StrFacts WireEmail.

(** C9.  [rewrite_mailto] looks at the local part of the link only,
    lower-cased: an alias of a role gives the link to the canonical
    local part at [ethicops.org], the query string kept as it was,
    whatever the domain of the link; any other local part gives the
    link back as it was matched. *)
Theorem rewrite_mailto_maps_role_aliases (m : mailto_match) :
  let local := Str.lower (mm_local m) in
  let query := match mm_query m with Some q => q | None => EmptyString end in
  (In local ["hello"; "contact"; "info"] ->
   rewrite_mailto m = "mailto:hello@ethicops.org" ++ query)
  /\ (In local ["support"; "help"] ->
      rewrite_mailto m = "mailto:support@ethicops.org" ++ query)
  /\ (local = "security" ->
      rewrite_mailto m = "mailto:security@ethicops.org" ++ query)
  /\ (In local ["press"; "media"] ->
      rewrite_mailto m = "mailto:press@ethicops.org" ++ query)
  /\ (In local ["billing"; "sales"] ->
      rewrite_mailto m = "mailto:billing@ethicops.org" ++ query)
  /\ (local = "abuse" ->
      rewrite_mailto m = "mailto:abuse@ethicops.org" ++ query)
  /\ (local = "postmaster" ->
      rewrite_mailto m = "mailto:postmaster@ethicops.org" ++ query)
  /\ (~ In local ["hello"; "contact"; "info"; "support"; "help"; "security";
                   "press"; "media"; "billing"; "sales"; "abuse";
                   "postmaster"] ->
      rewrite_mailto m = mm_group0 m).
Proof.
  intros local query.
  assert (Hq : match mm_query m with
               | Some (String c q) => String c q
               | _ => EmptyString
               end = query).
  { subst query. destruct (mm_query m) as [[|c q]|]; reflexivity. }
  unfold rewrite_mailto. fold local. rewrite Hq.
  repeat split; intros H; simpl in H;
    repeat match goal with
           | H : _ \/ _ |- _ => destruct H as [H|H]
           | H : False |- _ => destruct H
           end;
    try (rewrite <- H; reflexivity); try (rewrite H; reflexivity).
  destruct (Dict.get local_map local) as [[|c r]|] eqn:E; try reflexivity.
  exfalso. apply H. clear -E. unfold local_map in E. cbn [Dict.get] in E.
  repeat match type of E with
         | (if String.eqb ?k local then _ else _) = _ =>
             let Hk := fresh "Hk" in
             destruct (String.eqb k local) eqn:Hk;
             [apply String.eqb_eq in Hk; rewrite <- Hk; cbn [In]; tauto
             |clear Hk]
         end.
  discriminate.
Qed.

Lemma rewrite_mailto_maps_role_aliases_witness :
  exists (m : mailto_match) (n : nat),
    mailto_re "mailto:Info@Example.COM?subject=Hi'>Write</a>" = Some (m, n)
    /\ Str.lower (mm_local m) = "info"
    /\ mm_dom m = "Example.COM"
    /\ rewrite_mailto m = "mailto:hello@ethicops.org?subject=Hi".
Proof.
  eexists _, _. split; [vm_compute; reflexivity|].
  split; [reflexivity|]. split; [reflexivity|].
  refine (proj1 (rewrite_mailto_maps_role_aliases _) _).
  right. right. left. reflexivity.
Defined.

(** The substitution over a text: a known alias at another domain is
    rewritten, an unknown local part is not. *)
Lemma normalize_mailto_examples :
  normalize_mailto "<a href='MAILTO:Sales@ethicops.gt.tc?subject=Quote'>"
  = "<a href='mailto:billing@ethicops.org?subject=Quote'>"
  /\ normalize_mailto "<a href='mailto:jane.doe@ethicops.gt.tc'>"
     = "<a href='mailto:jane.doe@ethicops.gt.tc'>".
Proof. split; vm_compute; reflexivity. Qed.

End MailtoFacts.

(** ** The contact block: [insert_footer] *)

Module FooterFacts.
Import StrFacts WireEmail.
#[local] Arguments String.append !s1 s2 / : simpl nomatch.

Lemma lower_idem (c : ascii) : Char.lower (Char.lower c) = Char.lower c.
Proof. destruct c as [[] [] [] [] [] [] [] []]; vm_compute; reflexivity. Qed.

Lemma lower_app (a b : string) :
  Str.lower (a ++ b) = Str.lower a ++ Str.lower b.
Proof.
  induction a as [|c a IH]; [reflexivity|]. simpl. rewrite IH. reflexivity.
Qed.

Lemma istartswith_lower (s p : string) :
  Re.istartswith (Str.lower s) p = Re.istartswith s p.
Proof.
  revert s. induction p as [|d p IH]; intros s; [reflexivity|].
  destruct s as [|c s]; [reflexivity|]. simpl.
  rewrite lower_idem, IH. reflexivity.
Qed.

Lemma istartswith_take_lower (s p : string) :
  Re.istartswith s p = true -> Str.lower (Str.take (String.length p) s) = p.
Proof.
  revert s. induction p as [|d p IH]; intros s; [reflexivity|].
  destruct s as [|c s]; simpl; [discriminate|].
  rewrite andb_true_iff, char_eqb_eq. intros [-> H].
  rewrite (IH _ H). reflexivity.
Qed.

Lemma count_ci_cons (p : string) (c : ascii) (s : string) :
  count_ci p (String c s)
  = (if Re.istartswith (String c s) p then 1 else 0) + count_ci p s.
Proof. reflexivity. Qed.

Lemma count_lower (p s : string) : count_ci p (Str.lower s) = count_ci p s.
Proof.
  induction s as [|c s IH]; [reflexivity|].
  rewrite count_ci_cons, <- IH, <- (istartswith_lower (String c s)).
  reflexivity.
Qed.

Lemma istartswith_blocked (x r o : string) :
  blocked r o -> Re.istartswith (x ++ r) o = Re.istartswith x o.
Proof.
  revert x. induction o as [|d o IH]; intros x Hb; [reflexivity|].
  destruct x as [|c x].
  - simpl. destruct r as [|c r]; [reflexivity|].
    simpl in Hb. apply orb_false_iff in Hb. destruct Hb as [Hb _].
    simpl. unfold Char.eqb in *. rewrite Ascii.eqb_sym, Hb. reflexivity.
  - simpl. rewrite IH; [reflexivity|].
    destruct r as [|c' r]; [exact I|].
    simpl in Hb. apply orb_false_iff in Hb. apply Hb.
Qed.

(** Openers of [a ++ r] are those of [a] and those of [r] when [r]
    cannot continue one begun in [a]. *)
Lemma count_app (d : ascii) (o a r : string) :
  blocked r o ->
  count_ci (String d o) (a ++ r)
  = count_ci (String d o) a + count_ci (String d o) r.
Proof.
  intros Hb. induction a as [|c a IH]; [reflexivity|].
  change (String c a ++ r) with (String c (a ++ r)).
  rewrite !count_ci_cons, IH.
  change (String c (a ++ r)) with (String c a ++ r).
  replace (Re.istartswith (String c a ++ r) (String d o))
    with (Re.istartswith (String c a) (String d o)); [lia|].
  simpl. rewrite istartswith_blocked by exact Hb. reflexivity.
Qed.

Lemma find_ci_spec (pat s : string) (i : nat) :
  find_ci pat s = Some i ->
  Re.istartswith (Str.drop i s) pat = true
  /\ forall j, j < i -> Re.istartswith (Str.drop j s) pat = false.
Proof.
  revert i. induction s as [|c s IH]; intros i; simpl.
  - destruct (Re.istartswith "" pat) eqn:E; [|discriminate].
    intros H. injection H as <-. split; [exact E|]. intros j Hj. lia.
  - destruct (Re.istartswith (String c s) pat) eqn:E.
    + intros H. injection H as <-. split; [exact E|]. intros j Hj. lia.
    + destruct (find_ci pat s) as [k|]; [|discriminate].
      intros H. injection H as <-. destruct (IH k eq_refl) as [H1 H2].
      split; [exact H1|]. intros [|j] Hj; [exact E|]. apply H2. lia.
Qed.

Lemma drop_drop (i j : nat) (s : string) :
  Str.drop j (Str.drop i s) = Str.drop (i + j) s.
Proof.
  revert s. induction i as [|i IH]; intros s; [reflexivity|].
  destruct s as [|c s]; [destruct j; reflexivity|]. simpl. apply IH.
Qed.

Lemma count_cons_nomatch (p : string) (c : ascii) (s : string) :
  Re.istartswith (String c s) p = false ->
  count_ci p (String c s) = count_ci p s.
Proof. intros H. rewrite count_ci_cons, H. reflexivity. Qed.

Ltac pass_tag :=
  cbn [String.append];
  repeat (rewrite count_cons_nomatch by reflexivity);
  reflexivity.

(** The two tags hold no opener and begin none. *)
Lemma footer_tag_pure (o c : string) :
  o = contacts_id \/ o = auto_id ->
  count_ci (String "<"%char o) ("</footer>" ++ c)
  = count_ci (String "<"%char o) c.
Proof. intros [->| ->]; pass_tag. Qed.

Lemma body_tag_pure (o c : string) :
  o = contacts_id \/ o = auto_id ->
  count_ci (String "<"%char o) ("</body>" ++ c)
  = count_ci (String "<"%char o) c.
Proof. intros [->| ->]; pass_tag. Qed.

Section Insertion.
(** The opener counted is an angle bracket and [o]; [tag] is the tag
    the block goes in front of, [n_block] the number of openers in the
    block. *)
Variables (o : string) (t0 : ascii) (tag1 : string) (n_block : nat).
Let tag := String t0 tag1.
Let opener := String "<"%char o.
Hypothesis tag_blocked : blocked tag o.
Hypothesis block_blocked : blocked footer_block o.
Hypothesis tag_pure :
  forall c, count_ci opener (tag ++ c) = count_ci opener c.
Hypothesis block_count : count_ci opener (footer_block ++ NL) = n_block.

Lemma blocked_lower (r : string) : blocked (Str.lower r) o <-> blocked r o.
Proof. destruct r as [|c r]; simpl; [tauto|]. rewrite lower_idem. tauto. Qed.

Lemma count_at_tag (h : string) (i : nat) :
  Re.istartswith (Str.drop i h) tag = true ->
  count_ci opener h
  = count_ci opener (Str.take i h)
    + count_ci opener (Str.drop (i + String.length tag) h).
Proof.
  intros Ht.
  assert (Hl : Str.lower (Str.drop i h)
               = tag ++ Str.lower (Str.drop (i + String.length tag) h)).
  { rewrite <- (take_drop (String.length tag) (Str.drop i h)) at 1.
    rewrite lower_app, (istartswith_take_lower _ _ Ht), drop_drop.
    reflexivity. }
  rewrite <- (take_drop i h) at 1.
  unfold opener. rewrite count_app.
  - f_equal. fold opener. rewrite <- count_lower, Hl, tag_pure.
    apply count_lower.
  - apply blocked_lower. rewrite Hl. exact tag_blocked.
Qed.

Lemma count_block_then_tag (c : string) :
  count_ci opener (footer_block ++ NL ++ tag ++ c)
  = n_block + count_ci opener c.
Proof.
  rewrite <- app_assoc. unfold opener. rewrite count_app by exact tag_blocked.
  fold opener. rewrite block_count, tag_pure. reflexivity.
Qed.

Lemma count_insert_before (h : string) (i : nat) :
  Re.istartswith (Str.drop i h) tag = true ->
  count_ci opener (insert_before i tag h) = n_block + count_ci opener h.
Proof.
  intros Ht. rewrite (count_at_tag h i Ht). unfold insert_before.
  unfold opener. rewrite count_app.
  - fold opener. rewrite count_block_then_tag. lia.
  - destruct footer_block eqn:E; [discriminate|]. exact block_blocked.
Qed.
End Insertion.


Lemma auto_in_block : count_ci auto_opener (footer_block ++ NL) = 0.
Proof. vm_compute. reflexivity. Qed.


Lemma insert_footer_place (html : string) :
  insert_footer html = place_block (without_old_blocks html).
Proof. reflexivity. Qed.

(** *** The removal of old blocks *)

Lemma sub_from_skip {M St : Type} (match_at : string -> option (M * nat))
      (repl : M -> St -> string * St) (k : nat) (s : string) (st : St) :
  Re.sub_from match_at repl k s st
  = Re.sub_from match_at repl 0 (Str.drop k s) st.
Proof.
  revert k. induction s as [|c s IH]; intros [|k]; try reflexivity.
  simpl. apply IH.
Qed.

Lemma sub_const_nomatch (f : string -> option nat) (r : string)
      (c : ascii) (s : string) :
  f (String c s) = None ->
  Re.sub_const f r (String c s) = String c (Re.sub_const f r s).
Proof.
  intros H. unfold Re.sub_const, Re.sub. simpl. rewrite H. simpl.
  destruct (Re.sub_from _ _ 0 s tt). reflexivity.
Qed.

Lemma sub_const_match (f : string -> option nat) (r s : string) (n : nat) :
  f s = Some n -> 0 < n -> s <> EmptyString ->
  Re.sub_const f r s = r ++ Re.sub_const f r (Str.drop n s).
Proof.
  intros H Hn Hs. destruct s as [|c s]; [contradiction|].
  unfold Re.sub_const, Re.sub. simpl. rewrite H. simpl.
  rewrite sub_from_skip.
  destruct n as [|n]; [lia|]. simpl.
  destruct (Re.sub_from _ _ 0 (Str.drop n s) tt). reflexivity.
Qed.

Lemma block_re_needs_opener (o s : string) :
  Re.istartswith s o = false -> block_re o s = None.
Proof. intros H. unfold block_re. rewrite H. reflexivity. Qed.

(** Nothing is removed from a text that has no opener and cannot begin
    one that goes on in [r]. *)
Lemma remove_blocks_app (d : ascii) (o a r : string) :
  count_ci (String d o) a = 0 -> blocked r o ->
  remove_blocks (String d o) (a ++ r) = a ++ remove_blocks (String d o) r.
Proof.
  intros Hc Hb. induction a as [|c a IH]; [reflexivity|].
  rewrite count_ci_cons in Hc.
  destruct (Re.istartswith (String c a) (String d o)) eqn:E; [lia|].
  change (String c a ++ r) with (String c (a ++ r)).
  unfold remove_blocks in *. rewrite sub_const_nomatch.
  - rewrite IH by lia. reflexivity.
  - apply block_re_needs_opener.
    change (String c (a ++ r)) with (String c a ++ r).
    simpl. simpl in E. rewrite istartswith_blocked by exact Hb. exact E.
Qed.

Lemma remove_blocks_none (d : ascii) (o s : string) :
  count_ci (String d o) s = 0 -> remove_blocks (String d o) s = s.
Proof.
  intros H. rewrite <- (app_empty_r s) at 1.
  rewrite remove_blocks_app; [|exact H|exact I].
  unfold remove_blocks, Re.sub_const. simpl. apply app_empty_r.
Qed.


Ltac keep_tag :=
  unfold remove_blocks; cbn [String.append];
  repeat (rewrite sub_const_nomatch
            by (apply block_re_needs_opener; reflexivity));
  reflexivity.

Lemma footer_tag_kept (x : string) :
  remove_blocks contacts_opener ("</footer>" ++ x)
  = "</footer>" ++ remove_blocks contacts_opener x.
Proof. keep_tag. Qed.

Lemma body_tag_kept (x : string) :
  remove_blocks contacts_opener ("</body>" ++ x)
  = "</body>" ++ remove_blocks contacts_opener x.
Proof. keep_tag. Qed.

(** The block the script inserted, with the line end after it, is one
    match of the removal pattern when a tag follows. *)
Lemma block_removed_before (tag c : string) :
  block_re contacts_opener (footer_block ++ NL ++ tag ++ c)
  = Some (String.length footer_block + 1) ->
  (forall x, remove_blocks contacts_opener (tag ++ x)
             = tag ++ remove_blocks contacts_opener x) ->
  remove_blocks contacts_opener (footer_block ++ NL ++ tag ++ c)
  = tag ++ remove_blocks contacts_opener c.
Proof.
  intros Hre Htag. unfold remove_blocks at 1.
  rewrite (sub_const_match _ _ _ _ Hre); [|lia|discriminate].
  fold (remove_blocks contacts_opener).
  replace (Str.drop (String.length footer_block + 1)
             (footer_block ++ NL ++ tag ++ c)) with (tag ++ c).
  - apply Htag.
  - rewrite <- app_assoc.
    replace (String.length footer_block + 1)
      with (String.length (footer_block ++ NL))
      by (rewrite length_app; reflexivity).
    rewrite drop_app_length. reflexivity.
Qed.

Section Tag.
Variables (t0 : ascii) (tag1 : string).
Let tag := String t0 tag1.
Hypothesis tag_blocked_c : blocked tag contacts_id.
Hypothesis tag_blocked_a : blocked tag auto_id.
Hypothesis tag_pure_c :
  forall c, count_ci contacts_opener (tag ++ c) = count_ci contacts_opener c.
Hypothesis tag_pure_a :
  forall c, count_ci auto_opener (tag ++ c) = count_ci auto_opener c.
Hypothesis block_removed :
  forall c, remove_blocks contacts_opener (footer_block ++ NL ++ tag ++ c)
            = tag ++ remove_blocks contacts_opener c.

End Tag.




Lemma find_ci_none (pat s : string) :
  find_ci pat s = None ->
  forall j, Re.istartswith (Str.drop j s) pat = false.
Proof.
  induction s as [|c s IH]; simpl.
  - destruct (Re.istartswith "" pat) eqn:E; [discriminate|].
    intros _ [|j]; exact E.
  - destruct (Re.istartswith (String c s) pat) eqn:E; [discriminate|].
    destruct (find_ci pat s) as [k|] eqn:Ek; [discriminate|].
    intros _ [|j]; [exact E|]. simpl. apply IH. reflexivity.
Qed.




End FooterFacts.

(** ** Shapes: spans, strips and the substitution of runs *)

Module ShapeFacts.
Import StrFacts Shape.
#[local] Arguments String.append !s1 s2 / : simpl nomatch.

Lemma string_length_ind (P : string -> Prop) :
  (forall s, (forall t, String.length t < String.length s -> P t) -> P s) ->
  forall s, P s.
Proof.
  intros H s. remember (String.length s) as n eqn:E.
  revert s E. induction n as [n IH] using lt_wf_ind.
  intros s ->. apply H. intros t Ht. apply (IH _ Ht). reflexivity.
Qed.

Lemma all_chars_app (p : ascii -> bool) (s t : string) :
  all_chars p (s ++ t) = all_chars p s && all_chars p t.
Proof.
  induction s as [|c s IH]; [reflexivity|].
  simpl. rewrite IH. apply andb_assoc.
Qed.

Lemma all_chars_ext (p q : ascii -> bool) (s : string) :
  (forall c, p c = q c) -> all_chars p s = all_chars q s.
Proof.
  intros H. induction s as [|c s IH]; [reflexivity|].
  simpl. rewrite H, IH. reflexivity.
Qed.

Lemma all_chars_weaken (p q : ascii -> bool) (s : string) :
  (forall c, p c = true -> q c = true) ->
  all_chars p s = true -> all_chars q s = true.
Proof.
  intros H. induction s as [|c s IH]; [reflexivity|].
  simpl. rewrite !andb_true_iff. intros [H1 H2]. auto.
Qed.

Lemma all_chars_has_char (p : ascii -> bool) (c : ascii) (s : string) :
  all_chars p s = true -> p c = false -> Str.has_char c s = false.
Proof.
  intros Hs Hc. induction s as [|d s IH]; [reflexivity|].
  simpl in *. apply andb_true_iff in Hs. destruct Hs as [Hd Hs].
  rewrite (IH Hs), orb_false_r. apply char_eqb_neq. intros ->. congruence.
Qed.

Lemma span_app (p : ascii -> bool) (s : string) :
  fst (Re.span p s) ++ snd (Re.span p s) = s.
Proof.
  induction s as [|c s IH]; [reflexivity|].
  simpl. destruct (p c); [|reflexivity].
  destruct (Re.span p s) as [a b]. simpl in *. rewrite IH. reflexivity.
Qed.

Lemma span_all (p : ascii -> bool) (s : string) :
  all_chars p (fst (Re.span p s)) = true.
Proof.
  induction s as [|c s IH]; [reflexivity|].
  simpl. destruct (p c) eqn:E; [|reflexivity].
  destruct (Re.span p s) as [a b]. simpl in *. rewrite E, IH. reflexivity.
Qed.

Lemma span_stop (p : ascii -> bool) (s : string) :
  first_in p (snd (Re.span p s)) = false.
Proof.
  induction s as [|c s IH]; [reflexivity|].
  simpl. destruct (p c) eqn:E; [|exact E].
  destruct (Re.span p s) as [a b]. exact IH.
Qed.

Lemma span_drop (p : ascii -> bool) (s : string) :
  snd (Re.span p s) = Str.drop (String.length (fst (Re.span p s))) s.
Proof.
  rewrite <- (span_app p s) at 3. rewrite drop_app_length. reflexivity.
Qed.

Lemma span_none (p : ascii -> bool) (s : string) :
  first_in p s = false -> Re.span p s = (EmptyString, s).
Proof. destruct s as [|c s]; simpl; [reflexivity|]. intros ->. reflexivity. Qed.

Lemma span_cons (p : ascii -> bool) (c : ascii) (s : string) :
  p c = true ->
  Re.span p (String c s)
  = (String c (fst (Re.span p s)), snd (Re.span p s)).
Proof. intros H. simpl. rewrite H. destruct (Re.span p s). reflexivity. Qed.

(** A span that takes everything. *)
Lemma span_whole (p : ascii -> bool) (a b : string) :
  all_chars p a = true -> first_in p b = false ->
  Re.span p (a ++ b) = (a, b).
Proof.
  intros Ha Hb. induction a as [|c a IH].
  - apply span_none. exact Hb.
  - simpl in Ha. apply andb_true_iff in Ha. destruct Ha as [Hc Ha].
    rewrite app_cons, (span_cons _ _ _ Hc), (IH Ha). reflexivity.
Qed.

(** *** [[class]{n,}] replaced by a constant *)

Lemma at_least_first (n : nat) (p : ascii -> bool) (s : string) :
  first_in p s = false -> Re.at_least n p s = None.
Proof.
  intros H. unfold Re.at_least. rewrite (span_none _ _ H). simpl.
  rewrite andb_false_r. reflexivity.
Qed.

Lemma at_least_some (n : nat) (p : ascii -> bool) (s : string) (k : nat) :
  Re.at_least n p s = Some k ->
  0 < k /\ n <= k /\ first_in p (Str.drop k s) = false
  /\ String.length (Str.drop k s) < String.length s.
Proof.
  unfold Re.at_least.
  destruct ((n <=? String.length (fst (Re.span p s)))
            && (0 <? String.length (fst (Re.span p s)))) eqn:E; [|discriminate].
  intros H. injection H as <-. apply andb_true_iff in E. destruct E as [E1 E2].
  apply Nat.leb_le in E1. apply Nat.ltb_lt in E2.
  rewrite <- span_drop. split; [exact E2|]. split; [exact E1|].
  split; [apply span_stop|].
  rewrite <- (span_app p s) at 2. rewrite length_app. lia.
Qed.

Lemma at_least_one (p : ascii -> bool) (c : ascii) (s : string) :
  p c = true -> exists k, Re.at_least 1 p (String c s) = Some k.
Proof.
  intros H. unfold Re.at_least. rewrite (span_cons _ _ _ H). simpl.
  eexists. reflexivity.
Qed.

Section Runs.
Variables (n : nat) (p : ascii -> bool) (r : string).

Lemma runs_keep (c : ascii) (s : string) :
  Re.at_least n p (String c s) = None ->
  runs_replaced n p r (String c s) = String c (runs_replaced n p r s).
Proof. apply FooterFacts.sub_const_nomatch. Qed.

Lemma runs_hit (s : string) (k : nat) :
  Re.at_least n p s = Some k ->
  runs_replaced n p r s = r ++ runs_replaced n p r (Str.drop k s).
Proof.
  intros H. destruct (at_least_some _ _ _ _ H) as [Hk _].
  apply FooterFacts.sub_const_match; [exact H | exact Hk |].
  intros ->. unfold Re.at_least in H. simpl in H.
  rewrite andb_false_r in H. discriminate.
Qed.

(** A text with no character of the class is left as it is. *)
Lemma runs_absent (s : string) :
  all_chars (fun c => negb (p c)) s = true -> runs_replaced n p r s = s.
Proof.
  induction s as [|c s IH]; [reflexivity|].
  simpl. rewrite andb_true_iff, negb_true_iff. intros [Hc Hs].
  rewrite runs_keep by (apply at_least_first; exact Hc).
  rewrite (IH Hs). reflexivity.
Qed.

(** The characters of the result are those of the text and of the
    replacement. *)
Lemma runs_chars (q : ascii -> bool) (s : string) :
  all_chars q r = true -> all_chars q s = true ->
  all_chars q (runs_replaced n p r s) = true.
Proof.
  intros Hr. induction s as [s IH] using string_length_ind. intros Hs.
  destruct s as [|c s]; [reflexivity|].
  destruct (Re.at_least n p (String c s)) as [k|] eqn:E.
  - rewrite (runs_hit _ _ E), all_chars_app, Hr.
    destruct (at_least_some _ _ _ _ E) as [_ [_ [_ Hlen]]].
    apply IH; [exact Hlen|].
    rewrite <- (take_drop k (String c s)), all_chars_app in Hs.
    apply andb_true_iff in Hs. apply Hs.
  - rewrite (runs_keep _ _ E). simpl in *.
    apply andb_true_iff in Hs. destruct Hs as [Hc Hs].
    rewrite Hc. apply IH; [simpl; lia | exact Hs].
Qed.

(** The result begins with a character of the class only if the
    replacement or the text does. *)
Lemma runs_first (s : string) :
  first_in p r = false -> first_in p s = false ->
  first_in p (runs_replaced n p r s) = false.
Proof.
  intros Hr Hs. destruct s as [|c s]; [reflexivity|].
  rewrite runs_keep by (apply at_least_first; exact Hs). exact Hs.
Qed.
End Runs.

(** With [n] = 1 every character of the class goes. *)
Lemma runs_removed (p : ascii -> bool) (s : string) :
  all_chars (fun c => negb (p c)) (runs_replaced 1 p EmptyString s) = true.
Proof.
  induction s as [s IH] using string_length_ind.
  destruct s as [|c s]; [reflexivity|].
  destruct (p c) eqn:Hc.
  - destruct (at_least_one p c s Hc) as [k E].
    rewrite (runs_hit _ _ _ _ _ E). simpl.
    apply IH. apply (at_least_some _ _ _ _ E).
  - rewrite runs_keep by (apply at_least_first; exact Hc).
    simpl. rewrite Hc. apply IH. simpl. lia.
Qed.

(** *** Runs of two or more, replaced by one character of the class *)

Lemma no_run2_cons (p : ascii -> bool) (c : ascii) (s : string) :
  no_run2 p (String c s)
  = negb (p c && first_in p s) && no_run2 p s.
Proof. destruct s as [|d s]; [simpl; rewrite andb_false_r|]; reflexivity. Qed.

Lemma at_least_two_none (p : ascii -> bool) (c : ascii) (s : string) :
  p c = true -> Re.at_least 2 p (String c s) = None -> first_in p s = false.
Proof.
  intros Hc. unfold Re.at_least. rewrite (span_cons _ _ _ Hc). simpl.
  destruct s as [|d s]; [reflexivity|]. simpl.
  destruct (p d); [|reflexivity].
  destruct (Re.span p s). simpl. discriminate.
Qed.

Lemma at_least_two_single (p : ascii -> bool) (c : ascii) (s : string) :
  first_in p s = false -> Re.at_least 2 p (String c s) = None.
Proof.
  intros H. unfold Re.at_least. simpl.
  destruct (p c); [|reflexivity].
  rewrite (span_none _ _ H). reflexivity.
Qed.

Section Squeeze.
Variables (p : ascii -> bool) (d : ascii).
Hypothesis d_in : p d = true.
Let r := String d EmptyString.

Lemma squeeze_first (s : string) :
  first_in p s = false -> first_in p (runs_replaced 2 p r s) = false.
Proof.
  intros Hs. destruct s as [|c s]; [reflexivity|].
  rewrite runs_keep by (apply at_least_first; exact Hs). exact Hs.
Qed.

Lemma squeeze_no_run2 (s : string) :
  no_run2 p (runs_replaced 2 p r s) = true.
Proof.
  induction s as [s IH] using string_length_ind.
  destruct s as [|c s]; [reflexivity|].
  destruct (Re.at_least 2 p (String c s)) as [k|] eqn:E.
  - rewrite (runs_hit _ _ _ _ _ E).
    destruct (at_least_some _ _ _ _ E) as [_ [_ [Hf Hlen]]].
    change (r ++ runs_replaced 2 p r (Str.drop k (String c s)))
      with (String d (runs_replaced 2 p r (Str.drop k (String c s)))).
    rewrite no_run2_cons, (squeeze_first _ Hf), andb_false_r.
    simpl. apply IH. exact Hlen.
  - rewrite (runs_keep _ _ _ _ _ E), no_run2_cons.
    rewrite IH by (simpl; lia). rewrite andb_true_r.
    destruct (p c) eqn:Hc; [|reflexivity].
    rewrite squeeze_first; [reflexivity|].
    apply (at_least_two_none p c s Hc E).
Qed.

(** A text with no run is left as it is. *)
Lemma squeeze_absent (s : string) :
  no_run2 p s = true -> runs_replaced 2 p r s = s.
Proof.
  induction s as [|c s IH]; [reflexivity|].
  rewrite no_run2_cons, andb_true_iff, negb_true_iff. intros [Hc Hs].
  rewrite runs_keep.
  - rewrite (IH Hs). reflexivity.
  - destruct (p c) eqn:E.
    + apply at_least_two_single. exact Hc.
    + apply at_least_first. exact E.
Qed.
End Squeeze.

(** *** [strip] *)

Lemma lstrip_suffix (p : ascii -> bool) (s : string) :
  exists pre, s = pre ++ Str.lstrip p s /\ all_chars p pre = true.
Proof.
  induction s as [|c s IH]; [exists EmptyString; split; reflexivity|].
  simpl. destruct (p c) eqn:E.
  - destruct IH as [pre [H1 H2]]. exists (String c pre).
    rewrite app_cons, <- H1. simpl. rewrite E, H2. split; reflexivity.
  - exists EmptyString. split; reflexivity.
Qed.

Lemma lstrip_first (p : ascii -> bool) (s : string) :
  first_in p (Str.lstrip p s) = false.
Proof.
  induction s as [|c s IH]; [reflexivity|].
  simpl. destruct (p c) eqn:E; [exact IH | exact E].
Qed.

Lemma lstrip_id (p : ascii -> bool) (s : string) :
  first_in p s = false -> Str.lstrip p s = s.
Proof. destruct s as [|c s]; simpl; [reflexivity|]. intros ->. reflexivity. Qed.

Lemma rstrip_cons (p : ascii -> bool) (c : ascii) (s : string) :
  Str.rstrip p (String c s)
  = match Str.rstrip p s with
    | EmptyString => if p c then EmptyString else String c EmptyString
    | String e t => String c (String e t)
    end.
Proof. reflexivity. Qed.

Lemma rstrip_prefix (p : ascii -> bool) (s : string) :
  exists post, s = Str.rstrip p s ++ post /\ all_chars p post = true.
Proof.
  induction s as [|c s IH]; [exists EmptyString; split; reflexivity|].
  destruct IH as [post [H1 H2]]. rewrite rstrip_cons.
  destruct (Str.rstrip p s) as [|e t].
  - simpl in H1. subst s. destruct (p c) eqn:E.
    + exists (String c post). simpl. rewrite E, H2. split; reflexivity.
    + exists post. split; [reflexivity | exact H2].
  - exists post. rewrite app_cons, <- H1. split; [reflexivity | exact H2].
Qed.

Lemma rstrip_last (p : ascii -> bool) (s : string) :
  last_in p (Str.rstrip p s) = false.
Proof.
  induction s as [|c s IH]; [reflexivity|].
  rewrite rstrip_cons. destruct (Str.rstrip p s) as [|e t].
  - destruct (p c) eqn:E; [reflexivity | exact E].
  - exact IH.
Qed.

Lemma rstrip_first (p : ascii -> bool) (s : string) :
  first_in p s = false -> first_in p (Str.rstrip p s) = false.
Proof.
  destruct s as [|c s]; [reflexivity|]. intros H. rewrite rstrip_cons.
  destruct (Str.rstrip p s); [|exact H].
  destruct (p c); [reflexivity | exact H].
Qed.

Lemma rstrip_id (p : ascii -> bool) (s : string) :
  last_in p s = false -> Str.rstrip p s = s.
Proof.
  induction s as [|c s IH]; [reflexivity|].
  intros H. rewrite rstrip_cons. destruct s as [|e t].
  - simpl in *. rewrite H. reflexivity.
  - rewrite (IH H). reflexivity.
Qed.

Lemma strip_id (p : ascii -> bool) (s : string) :
  first_in p s = false -> last_in p s = false -> Str.strip p s = s.
Proof.
  intros H1 H2. unfold Str.strip. rewrite (lstrip_id _ _ H1).
  apply rstrip_id. exact H2.
Qed.

(** What [strip] takes away is at the two ends. *)
Lemma strip_middle (p : ascii -> bool) (s : string) :
  exists pre post, s = pre ++ Str.strip p s ++ post
                   /\ all_chars p pre = true /\ all_chars p post = true.
Proof.
  destruct (lstrip_suffix p s) as [pre [H1 H2]].
  destruct (rstrip_prefix p (Str.lstrip p s)) as [post [H3 H4]].
  exists pre, post. unfold Str.strip. rewrite <- H3. auto.
Qed.

Lemma no_run2_app (p : ascii -> bool) (s t : string) :
  no_run2 p (s ++ t) = true -> no_run2 p s = true /\ no_run2 p t = true.
Proof.
  induction s as [|c s IH]; [auto|].
  rewrite app_cons, !no_run2_cons, !andb_true_iff, !negb_true_iff.
  intros [H1 H2]. destruct (IH H2) as [H3 H4].
  split; [|exact H4]. split; [|exact H3].
  destruct (p c); [|reflexivity]. simpl in *.
  destruct s as [|e s]; [reflexivity | exact H1].
Qed.

End ShapeFacts.

(** ** [slug] *)

Module SlugFacts.
Import StrFacts FixImages Shape ShapeFacts.
#[local] Arguments String.append !s1 s2 / : simpl nomatch.

Lemma slug_steps (s : string) :
  slug s
  = Str.strip is_hyphen
      (runs_replaced 2 is_hyphen "-"
         (runs_replaced 1 not_slug_char ""
            (runs_replaced 1 blank_or_underscore "-" (Str.lower s)))).
Proof. reflexivity. Qed.

Lemma slug_char_lower (c : ascii) : slug_char c = true -> Char.lower c = c.
Proof.
  destruct c as [[] [] [] [] [] [] [] []]; vm_compute;
    solve [reflexivity | discriminate].
Qed.

Lemma slug_char_no_blank (c : ascii) :
  slug_char c = true -> negb (blank_or_underscore c) = true.
Proof.
  destruct c as [[] [] [] [] [] [] [] []]; vm_compute;
    solve [reflexivity | discriminate].
Qed.

Lemma lower_fixed (s : string) :
  all_chars slug_char s = true -> Str.lower s = s.
Proof.
  induction s as [|c s IH]; [reflexivity|].
  simpl. rewrite andb_true_iff. intros [Hc Hs].
  rewrite (slug_char_lower _ Hc), (IH Hs). reflexivity.
Qed.

Lemma slug_shaped_parts (s : string) :
  slug_shaped s = true <->
  all_chars slug_char s = true /\ no_run2 is_hyphen s = true
  /\ first_in is_hyphen s = false /\ last_in is_hyphen s = false.
Proof.
  unfold slug_shaped. rewrite !andb_true_iff, !negb_true_iff. tauto.
Qed.

Lemma slug_shape (s : string) : slug_shaped (slug s) = true.
Proof.
  rewrite slug_steps.
  set (s1 := runs_replaced 1 blank_or_underscore "-" (Str.lower s)).
  set (s3 := runs_replaced 2 is_hyphen "-" (runs_replaced 1 not_slug_char "" s1)).
  assert (H3 : all_chars slug_char s3 = true).
  { apply runs_chars; [reflexivity|].
    rewrite (all_chars_ext _ (fun c => negb (not_slug_char c))).
    - apply runs_removed.
    - intros c. unfold not_slug_char. rewrite negb_involutive. reflexivity. }
  assert (H4 : no_run2 is_hyphen s3 = true)
    by (apply (squeeze_no_run2 is_hyphen "-"%char); reflexivity).
  destruct (strip_middle is_hyphen s3) as [pre [post [E [_ _]]]].
  apply slug_shaped_parts.
  rewrite E, !all_chars_app, !andb_true_iff in H3.
  rewrite E in H4. apply no_run2_app in H4. destruct H4 as [_ H4].
  apply no_run2_app in H4.
  split; [apply H3|]. split; [apply H4|]. split.
  - unfold Str.strip. apply rstrip_first. apply lstrip_first.
  - apply rstrip_last.
Qed.

Lemma slug_fixed (s : string) : slug_shaped s = true -> slug s = s.
Proof.
  intros H. apply slug_shaped_parts in H. destruct H as [H1 [H2 [H3 H4]]].
  rewrite slug_steps, (lower_fixed _ H1).
  rewrite (runs_absent 1 blank_or_underscore).
  - rewrite (runs_absent 1 not_slug_char).
    + rewrite (squeeze_absent is_hyphen "-"%char) by (reflexivity || exact H2).
      apply strip_id; assumption.
    + rewrite (all_chars_ext _ slug_char); [exact H1|].
      intros c. unfold not_slug_char. rewrite negb_involutive. reflexivity.
  - apply (all_chars_weaken slug_char); [|exact H1].
    apply slug_char_no_blank.
Qed.

Lemma str_lower_idem (s : string) : Str.lower (Str.lower s) = Str.lower s.
Proof.
  induction s as [|c s IH]; [reflexivity|].
  simpl. rewrite FooterFacts.lower_idem, IH. reflexivity.
Qed.

Lemma startswith_char (c : ascii) (s : string) :
  Str.startswith s (String c EmptyString)
  = first_in (fun x => Char.eqb x c) s.
Proof. destruct s as [|d s]; [reflexivity|]. simpl. apply andb_true_r. Qed.

Lemma endswith_char (c : ascii) (s : string) :
  Str.endswith s (String c EmptyString)
  = last_in (fun x => Char.eqb x c) s.
Proof.
  induction s as [|d s IH]; [reflexivity|].
  destruct s as [|e s].
  - unfold Str.endswith. simpl. unfold Char.eqb.
    destruct (Ascii.eqb d c); reflexivity.
  - change (last_in (fun x => Char.eqb x c) (String d (String e s)))
      with (last_in (fun x => Char.eqb x c) (String e s)).
    rewrite <- IH. unfold Str.endswith. simpl.
    rewrite Nat.sub_0_r. reflexivity.
Qed.

(** X1.  Whatever the text, its slug is made of lower-case letters,
    digits and hyphens only, has no two hyphens in a row and no hyphen
    at either end. *)
Theorem slug_is_in_normal_form (s : string) :
  all_chars slug_char (slug s) = true
  /\ no_run2 is_hyphen (slug s) = true
  /\ Str.startswith (slug s) "-" = false
  /\ Str.endswith (slug s) "-" = false.
Proof.
  pose proof (slug_shape s) as H. apply slug_shaped_parts in H.
  destruct H as [H1 [H2 [H3 H4]]].
  split; [exact H1|]. split; [exact H2|]. split.
  - rewrite startswith_char. exact H3.
  - rewrite endswith_char. exact H4.
Qed.

(** X2.  A text that is a slug in normal form is its own slug; so
    taking the slug twice gives the same as taking it once, and the
    case of the letters of the text is of no account. *)
Theorem slug_is_idempotent :
  (forall s : string, slug_shaped s = true -> slug s = s)
  /\ (forall s : string, slug (slug s) = slug s)
  /\ (forall s : string, slug (Str.lower s) = slug s).
Proof.
  split; [exact slug_fixed|]. split.
  - intros s. apply slug_fixed. apply slug_shape.
  - intros s. rewrite !slug_steps, str_lower_idem. reflexivity.
Qed.

Lemma slug_is_idempotent_witness :
  slug_shaped "minneapolis-skyline-2" = true
  /\ slug "minneapolis-skyline-2" = "minneapolis-skyline-2".
Proof.
  split; [reflexivity|].
  apply (proj1 slug_is_idempotent). reflexivity.
Defined.

End SlugFacts.

(** ** The fuzzy step of [maybe_fix_url] *)

Module FuzzyStep.
Import StrFacts FixImages Shape ShapeFacts SlugFacts Samples.
#[local] Arguments String.append !s1 s2 / : simpl nomatch.


(** *** The deletion of the runs of a token *)





Section Token.
Variables (x : ascii) (t : string).
Hypothesis x_once : Str.has_char x t = false.














End Token.





End FuzzyStep.

(** ** The images directory and the catalogue *)

Module CatalogFacts.
Import StrFacts FixImages Samples Shape ShapeFacts FixImagesMain.
#[local] Arguments String.append !s1 s2 / : simpl nomatch.

Lemma find_first {A : Type} (f : A -> bool) (l : list A) (x : A) :
  List.find f l = Some x ->
  exists l1 l2, l = (l1 ++ x :: l2)%list /\ f x = true
                /\ forall y, In y l1 -> f y = false.
Proof.
  induction l as [|a l IH]; simpl; [discriminate|].
  destruct (f a) eqn:E.
  - intros H. injection H as <-. exists [], l.
    split; [reflexivity|]. split; [exact E|]. intros y [].
  - intros H. destruct (IH H) as [l1 [l2 [H1 [H2 H3]]]].
    exists (a :: l1), l2. rewrite H1. split; [reflexivity|].
    split; [exact H2|]. intros y [<-|Hy]; auto.
Qed.




(** *** [build_catalog] *)


Lemma get_setdefault (m : list (string * string)) (k v k' : string) :
  Dict.get (Dict.setdefault m k v) k'
  = match Dict.get m k' with
    | Some x => Some x
    | None => if String.eqb k k' then Some v else None
    end.
Proof.
  induction m as [|[a b] m IH]; simpl; [reflexivity|].
  destruct (String.eqb a k) eqn:E.
  - simpl. destruct (String.eqb a k') eqn:E'; [reflexivity|].
    apply String.eqb_eq in E. subst a. rewrite E'.
    destruct (Dict.get m k'); reflexivity.
  - simpl. destruct (String.eqb a k'); [reflexivity | exact IH].
Qed.

Lemma get_slug_map (files : list string) (m : list (string * string))
      (k : string) :
  Dict.get (fold_left (fun m f => Dict.setdefault m (slug (Pathlib.stem f)) (Pathlib.name f))
                      files m) k
  = match Dict.get m k with
    | Some x => Some x
    | None => option_map Pathlib.name
                (List.find (fun f => String.eqb (slug (Pathlib.stem f)) k) files)
    end.
Proof.
  revert m. induction files as [|f files IH]; intros m; simpl.
  - destruct (Dict.get m k); reflexivity.
  - rewrite IH, get_setdefault.
    destruct (Dict.get m k); [reflexivity|].
    destruct (String.eqb (slug (Pathlib.stem f)) k); reflexivity.
Qed.

Lemma keys_setdefault (m : list (string * string)) (k v : string) :
  List.NoDup (Dict.keys m) -> List.NoDup (Dict.keys (Dict.setdefault m k v))
  /\ forall x, In x (Dict.keys (Dict.setdefault m k v))
               <-> In x (Dict.keys m) \/ x = k.
Proof.
  induction m as [|[a b] m IH]; simpl; intros H.
  - split; [apply NoDup_cons_iff; split; [intros [] | constructor]|].
    intros x. split.
    + intros [<-|[]]. auto.
    + intros [[]| ->]. auto.
  - destruct (String.eqb a k) eqn:E.
    + split; [exact H|]. apply String.eqb_eq in E. subst a. intros x.
      simpl. split; [tauto|]. intros [Hx| ->]; [exact Hx|]. left. reflexivity.
    + apply NoDup_cons_iff in H. destruct H as [H1 H2].
      destruct (IH H2) as [H3 H4]. apply String.eqb_neq in E. split.
      * simpl. apply NoDup_cons_iff. split; [|exact H3].
        intros Hin. apply H4 in Hin. destruct Hin as [Hin| ->]; auto.
      * intros x. simpl. rewrite H4. tauto.
Qed.

Lemma keys_slug_map (files : list string) (m : list (string * string)) :
  List.NoDup (Dict.keys m) ->
  List.NoDup (Dict.keys
           (fold_left (fun m f => Dict.setdefault m (slug (Pathlib.stem f)) (Pathlib.name f))
                      files m)).
Proof.
  revert m. induction files as [|f files IH]; intros m H; [exact H|].
  simpl. apply IH. apply keys_setdefault. exact H.
Qed.

Lemma catalog_files_eq (found : list string) :
  catalog_files found
  = List.filter
      (fun f => existsb (String.eqb (Str.lower (Pathlib.suffix f))) VALID_EXTS)
      found.
Proof. reflexivity. Qed.

Lemma catalog_files_spec (found : list string) (f : string) :
  In f (catalog_files found) <->
  In f found
  /\ In (Str.lower (Pathlib.suffix f)) VALID_EXTS.
Proof.
  rewrite catalog_files_eq, filter_In.
  split; intros [H1 H2]; (split; [exact H1|]).
  - apply existsb_exists in H2. destruct H2 as [x [Hx E]].
    apply String.eqb_eq in E. rewrite E. exact Hx.
  - apply existsb_exists. exists (Str.lower (Pathlib.suffix f)).
    split; [exact H2 | apply String.eqb_refl].
Qed.

(** X4.  In the slug dictionary [build_catalog] makes, the first file
    seen wins: the slug of the stem of every image file is a key, and
    it maps to the name of the first file of the listing that has this
    slug.  No key occurs twice. *)
Theorem build_catalog_first_seen_wins (found : list string) :
  (forall f : string,
      In f (catalog_files found) ->
      exists l1 g l2,
        catalog_files found = (l1 ++ g :: l2)%list
        /\ slug (Pathlib.stem g) = slug (Pathlib.stem f)
        /\ (forall h, In h l1 -> slug (Pathlib.stem h) <> slug (Pathlib.stem f))
        /\ Dict.get (slugs_of found) (slug (Pathlib.stem f))
           = Some (Pathlib.name g))
  /\ List.NoDup (Dict.keys (slugs_of found)).
Proof.
  split.
  - intros f Hf.
    assert (Hget : Dict.get (slugs_of found) (slug (Pathlib.stem f))
                   = option_map Pathlib.name
                       (List.find (fun g => String.eqb (slug (Pathlib.stem g)) (slug (Pathlib.stem f)))
                                  (catalog_files found)))
      by apply (get_slug_map _ []).
    destruct (List.find (fun g => String.eqb (slug (Pathlib.stem g)) (slug (Pathlib.stem f)))
                        (catalog_files found)) as [g|] eqn:E.
    + destruct (find_first _ _ _ E) as [l1 [l2 [H1 [H2 H3]]]].
      exists l1, g, l2. split; [exact H1|].
      split; [apply String.eqb_eq; exact H2|].
      split; [|exact Hget].
      intros h Hh. apply String.eqb_neq. apply H3. exact Hh.
    + exfalso. pose proof (find_none _ _ E f Hf) as Hn.
      simpl in Hn. rewrite String.eqb_refl in Hn. discriminate.
  - apply (keys_slug_map _ []). constructor.
Qed.


Lemma build_catalog_first_seen_wins_witness :
  exists l1 g l2,
    catalog_files ["img/My_Photo.jpg"; "img/notes.txt"; "img/my-photo.png"]
    = (l1 ++ g :: l2)%list
    /\ slug (Pathlib.stem g) = slug (Pathlib.stem "img/my-photo.png")
    /\ (forall h, In h l1 ->
           slug (Pathlib.stem h) <> slug (Pathlib.stem "img/my-photo.png"))
    /\ Dict.get (slugs_of ["img/My_Photo.jpg"; "img/notes.txt"; "img/my-photo.png"])
         (slug (Pathlib.stem "img/my-photo.png"))
       = Some (Pathlib.name g).
Proof.
  apply (proj1 (build_catalog_first_seen_wins
                  ["img/My_Photo.jpg"; "img/notes.txt"; "img/my-photo.png"])).
  vm_compute. auto.
Defined.

(** X5.  With the catalogue [build_catalog] made of a listing, every
    value the resolution returns is the web root followed by the name
    of an image file of that listing; the name has no slash in it, so
    the directory the file lies in under the images directory is not
    part of the value. *)
Theorem resolved_value_names_a_catalogued_file
  (found : list string) (make_relative : bool) (url v : string) :
  fix_url (names_of found) (slugs_of found) make_relative url = Some v ->
  exists f : string,
    In f found
    /\ In (Str.lower (Pathlib.suffix f)) VALID_EXTS
    /\ v = images_web_root make_relative ++ Pathlib.name f
    /\ Str.has_char "/" (Pathlib.name f) = false.
Proof.
  intros H. unfold fix_url in H.
  apply SecondRun.maybe_fix_url_in_catalog in H;
    [|apply SecondRun.slugs_of_values].
  destruct H as [n [-> Hn]].
  apply SecondRun.names_of_spec in Hn. destruct Hn as [f [Hf ->]].
  apply catalog_files_spec in Hf. destruct Hf as [H1 H2].
  exists f. split; [exact H1|]. split; [exact H2|].
  split; [reflexivity | apply SecondRun.name_no_slash].
Qed.

Lemma resolved_value_names_a_catalogued_file_witness :
  exists f : string,
    In f ["images/2024/trip/harbour.jpg"]
    /\ In (Str.lower (Pathlib.suffix f)) VALID_EXTS
    /\ "/images/harbour.jpg" = images_web_root false ++ Pathlib.name f
    /\ Str.has_char "/" (Pathlib.name f) = false.
Proof.
  apply (resolved_value_names_a_catalogued_file
           ["images/2024/trip/harbour.jpg"] false "img/harbor.jpg").
  vm_compute. reflexivity.
Defined.

End CatalogFacts.

(** ** The steps of the resolution *)

Module StepFacts.
Import StrFacts FixImages Samples Shape ShapeFacts.
#[local] Arguments String.append !s1 s2 / : simpl nomatch.



Lemma take_add (i n : nat) (s : string) :
  Str.take (i + n) s = Str.take i s ++ Str.take n (Str.drop i s).
Proof.
  revert s. induction i as [|i IH]; intros s; [reflexivity|].
  destruct s as [|c s]; [destruct n; reflexivity|].
  simpl. rewrite IH. reflexivity.
Qed.





End StepFacts.

Module UrlFacts.
Import StrFacts FixImages Samples Shape ShapeFacts.
#[local] Arguments String.append !s1 s2 / : simpl nomatch.

Lemma before_first_split (c : ascii) (s : string) :
  exists post, s = Str.before_first c s ++ post
               /\ (post = "" \/ Str.startswith post (String c "") = true).
Proof.
  induction s as [|d s IH]; [exists ""; auto|].
  simpl. destruct (Char.eqb d c) eqn:E.
  - exists (String d s). split; [reflexivity|]. right. simpl.
    rewrite E. reflexivity.
  - destruct IH as [post [H1 H2]]. exists post.
    rewrite app_cons, <- H1. auto.
Qed.

Lemma before_first_clean (c : ascii) (s : string) :
  Str.has_char c (Str.before_first c s) = false.
Proof.
  induction s as [|d s IH]; [reflexivity|].
  simpl. destruct (Char.eqb d c) eqn:E; [reflexivity|].
  simpl. rewrite E. exact IH.
Qed.

Lemma before_first_app (c : ascii) (a b : string) :
  Str.has_char c a = false ->
  Str.before_first c (a ++ b) = a ++ Str.before_first c b.
Proof.
  induction a as [|d a IH]; [reflexivity|].
  simpl. rewrite orb_false_iff. intros [-> H].
  rewrite (IH H). reflexivity.
Qed.

Lemma has_char_prefix (c : ascii) (a b : string) :
  Str.has_char c (a ++ b) = false -> Str.has_char c a = false.
Proof.
  rewrite SecondRun.has_char_app, orb_false_iff. tauto.
Qed.

Lemma has_char_drop (c : ascii) (n : nat) (s : string) :
  Str.has_char c s = false -> Str.has_char c (Str.drop n s) = false.
Proof.
  revert s. induction n as [|n IH]; intros [|d s]; simpl; try tauto.
  rewrite orb_false_iff. intros [_ H]. auto.
Qed.

(** X7.  The URL [normalize_url] returns has no question mark and no
    hash sign in it.  It is a piece of the URL given: what was cut off
    behind it starts with one of the two signs, and what was cut off in
    front of it, with the flag only, is one slash; so with the flag a
    URL that starts with two slashes still starts with one.  Without
    the flag a normalised URL is left as it is. *)
Theorem normalize_url_result (url : string) (make_relative : bool) :
  Str.has_char "?" (normalize_url url make_relative) = false
  /\ Str.has_char "#" (normalize_url url make_relative) = false
  /\ (exists pre post : string,
        url = pre ++ normalize_url url make_relative ++ post
        /\ (pre = "" \/ (make_relative = true /\ pre = "/"))
        /\ (post = "" \/ Str.startswith post "?" = true
            \/ Str.startswith post "#" = true))
  /\ normalize_url (normalize_url url make_relative) false
     = normalize_url url make_relative
  /\ (Str.startswith url "//" = true ->
      Str.startswith (normalize_url url true) "/" = true).
Proof.
  set (b1 := Str.before_first "?" url).
  set (b2 := Str.before_first "#" b1).
  assert (Hq : Str.has_char "?" b2 = false).
  { destruct (before_first_split "#" b1) as [post [H _]].
    apply (has_char_prefix _ _ post). fold b2 in H. rewrite <- H.
    apply before_first_clean. }
  assert (Hh : Str.has_char "#" b2 = false) by apply before_first_clean.
  assert (Hn : normalize_url url make_relative
               = if make_relative && Str.startswith b2 "/"
                 then Str.drop 1 b2 else b2) by reflexivity.
  assert (H1 : Str.has_char "?" (normalize_url url make_relative) = false).
  { rewrite Hn. destruct (make_relative && Str.startswith b2 "/");
      [apply has_char_drop|]; exact Hq. }
  assert (H2 : Str.has_char "#" (normalize_url url make_relative) = false).
  { rewrite Hn. destruct (make_relative && Str.startswith b2 "/");
      [apply has_char_drop|]; exact Hh. }
  split; [exact H1|]. split; [exact H2|]. split; [|split].
  - destruct (before_first_split "?" url) as [p1 [E1 T1]].
    destruct (before_first_split "#" b1) as [p2 [E2 T2]].
    fold b1 in E1. fold b2 in E2.
    assert (Hpost : p2 ++ p1 = "" \/ Str.startswith (p2 ++ p1) "?" = true
                    \/ Str.startswith (p2 ++ p1) "#" = true).
    { destruct T2 as [->|T2]; [tauto|].
      right. right. apply startswith_spec in T2. destruct T2 as [r ->].
      reflexivity. }
    assert (Hurl : url = b2 ++ p2 ++ p1).
    { rewrite <- app_assoc, <- E2. exact E1. }
    rewrite Hn. destruct (make_relative && Str.startswith b2 "/") eqn:E.
    + apply andb_true_iff in E. destruct E as [-> E].
      apply startswith_spec in E. destruct E as [r Er].
      exists "/", (p2 ++ p1). rewrite Hurl, Er. simpl. auto.
    + exists "", (p2 ++ p1). rewrite <- Hurl. auto.
  - unfold normalize_url at 1.
    rewrite (SecondRun.before_first_absent "?" _ H1).
    rewrite (SecondRun.before_first_absent "#" _ H2). reflexivity.
  - intros H. destruct url as [|c [|d r]]; cbn [Str.startswith] in H;
      rewrite ?andb_true_iff, ?char_eqb_eq in H.
    + discriminate.
    + destruct H as [_ H]. discriminate.
    + destruct H as [-> [-> _]]. reflexivity.
Qed.

Lemma normalize_url_result_witness :
  Str.startswith "//cdn.example.org/a.png?v=1" "//" = true
  /\ Str.startswith (normalize_url "//cdn.example.org/a.png?v=1" true) "/"
     = true.
Proof.
  split; [reflexivity|].
  apply (proj2 (proj2 (proj2 (proj2
           (normalize_url_result "//cdn.example.org/a.png?v=1" true))))).
  reflexivity.
Defined.

(** *** The name of a file under a directory *)

Lemma split_nonempty (c : ascii) (s : string) : Str.split c s <> [].
Proof.
  destruct s as [|d s]; simpl; [discriminate|].
  destruct (Char.eqb d c); [discriminate|].
  destruct (Str.split c s); discriminate.
Qed.

Lemma split_app (c : ascii) (a b : string) :
  Str.split c (a ++ String c b) = (Str.split c a ++ Str.split c b)%list.
Proof.
  induction a as [|d a IH]; simpl.
  - rewrite char_eqb_refl. reflexivity.
  - destruct (Char.eqb d c); [rewrite IH; reflexivity|].
    rewrite IH. pose proof (split_nonempty c a) as Hne.
    destruct (Str.split c a); [contradiction | reflexivity].
Qed.

Lemma name_of_component (n : string) :
  Pathlib.component n -> Pathlib.name n = n.
Proof.
  intros [Hs [He Hd]].
  apply String.eqb_neq in He. apply String.eqb_neq in Hd.
  unfold Pathlib.name, Pathlib.parts.
  rewrite (SecondRun.split_no_sep _ _ Hs). simpl. rewrite He, Hd. reflexivity.
Qed.

Lemma name_under_dir (dir n : string) :
  Pathlib.component n -> Pathlib.name (dir ++ String "/" n) = n.
Proof.
  intros [Hs [He Hd]].
  apply String.eqb_neq in He. apply String.eqb_neq in Hd.
  unfold Pathlib.name, Pathlib.parts.
  rewrite split_app, (SecondRun.split_no_sep _ _ Hs), List.filter_app.
  simpl. rewrite He, Hd. simpl. apply last_last.
Qed.

Lemma name_after_dir_part (d n : string) :
  dir_part d -> Pathlib.component n -> Pathlib.name (d ++ n) = n.
Proof.
  intros [->|[dir ->]] Hn; [apply name_of_component; exact Hn|].
  rewrite app_assoc. apply name_under_dir. exact Hn.
Qed.

Lemma dir_part_drop (d : string) : dir_part d -> dir_part (Str.drop 1 d).
Proof.
  intros [->|[dir ->]]; [left; reflexivity|].
  destruct dir as [|c dir]; [left; reflexivity|].
  right. exists dir. reflexivity.
Qed.

Lemma normalize_dir_name (d n tail : string) (flag : bool) :
  dir_part d -> Pathlib.component n ->
  Str.has_char "?" d = false -> Str.has_char "#" d = false ->
  Str.has_char "?" n = false -> Str.has_char "#" n = false ->
  tail = "" \/ Str.startswith tail "?" = true
  \/ Str.startswith tail "#" = true ->
  exists d', dir_part d' /\ normalize_url (d ++ n ++ tail) flag = d' ++ n.
Proof.
  intros Hd Hn Hdq Hdh Hnq Hnh Ht.
  assert (Hb : Str.before_first "#" (Str.before_first "?" (d ++ n ++ tail))
               = d ++ n).
  { rewrite <- app_assoc.
    assert (Hq : Str.has_char "?" (d ++ n) = false)
      by (rewrite SecondRun.has_char_app, Hdq, Hnq; reflexivity).
    assert (Hh : Str.has_char "#" (d ++ n) = false)
      by (rewrite SecondRun.has_char_app, Hdh, Hnh; reflexivity).
    rewrite (before_first_app _ _ _ Hq).
    destruct Ht as [->|[Ht|Ht]].
    - simpl. rewrite app_empty_r. apply SecondRun.before_first_absent. exact Hh.
    - apply startswith_spec in Ht. destruct Ht as [r ->]. simpl.
      rewrite app_empty_r. apply SecondRun.before_first_absent. exact Hh.
    - apply startswith_spec in Ht. destruct Ht as [r ->].
      rewrite (before_first_app _ _ _ Hh). simpl. apply app_empty_r. }
  unfold normalize_url. rewrite Hb.
  destruct (flag && Str.startswith (d ++ n) "/") eqn:E.
  - apply andb_true_iff in E. destruct E as [_ E].
    destruct d as [|c d].
    + exfalso. destruct Hn as [Hs _]. destruct n as [|c n]; [discriminate|].
      simpl in E, Hs. rewrite andb_true_r in E. rewrite E in Hs. discriminate.
    + exists d. split; [apply (dir_part_drop (String c d)); exact Hd|].
      reflexivity.
  - exists d. auto.
Qed.

(** X8.  A reference to a catalogued file name is moved to the web
    root, whatever directory it names and whatever query string or
    fragment follows the name: the value is the web root followed by
    the name, and nothing only when the reference is that value
    already.  The reference has to start with none of the schemes left
    alone; one that starts with two slashes does not. *)
Theorem catalogued_name_is_relocated
  (basenames : gset string) (slug_map : list (string * string))
  (root : string) (make_relative : bool) (d n tail : string) :
  n ∈ basenames -> Pathlib.component n ->
  Str.has_char "?" n = false -> Str.has_char "#" n = false ->
  dir_part d -> Str.has_char "?" d = false -> Str.has_char "#" d = false ->
  tail = "" \/ Str.startswith tail "?" = true
  \/ Str.startswith tail "#" = true ->
  Str.startswith_any (d ++ n ++ tail) SKIPPED_PREFIXES = false ->
  maybe_fix_url (d ++ n ++ tail) basenames slug_map root make_relative
  = if String.eqb (root ++ n) (d ++ n ++ tail) then None
    else Some (root ++ n).
Proof.
  intros Hin Hn Hnq Hnh Hd Hdq Hdh Ht Hskip.
  destruct (normalize_dir_name d n tail make_relative Hd Hn Hdq Hdh Hnq Hnh Ht)
    as [d' [Hd' Hnorm]].
  unfold maybe_fix_url. rewrite Hskip, Hnorm.
  rewrite (name_after_dir_part _ _ Hd' Hn).
  apply SecondRun.in_set_true in Hin. rewrite Hin. reflexivity.
Qed.

Lemma catalogued_name_is_relocated_witness :
  maybe_fix_url "//cdn.example.org/img/a.jpg?v=2#top" (names_of pair_ab)
    (slugs_of pair_ab) "images/" true
  = Some "images/a.jpg".
Proof.
  apply (catalogued_name_is_relocated (names_of pair_ab) (slugs_of pair_ab)
           "images/" true "//cdn.example.org/img/" "a.jpg" "?v=2#top").
  - apply SecondRun.names_of_spec. exists "images/a.jpg".
    split; [vm_compute; auto | reflexivity].
  - repeat split; discriminate.
  - reflexivity.
  - reflexivity.
  - right. exists "//cdn.example.org/img". reflexivity.
  - reflexivity.
  - reflexivity.
  - right. left. reflexivity.
  - reflexivity.
Defined.

Section Counted.
Variable found : list string.
Variable make_relative : bool.
Hypothesis names_clean :
  forall n : string, n ∈ names_of found ->
    Str.has_char "?" n = false /\ Str.has_char "#" n = false.

Lemma resolved_differs (url v : string) :
  fix_url (names_of found) (slugs_of found) make_relative url = Some v ->
  v <> url.
Proof.
  intros H Heq. subst v.
  pose proof H as H'. unfold fix_url in H'.
  apply SecondRun.maybe_fix_url_in_catalog in H';
    [|apply SecondRun.slugs_of_values].
  destruct H' as [n [E Hn]].
  destruct (names_clean n Hn) as [Hq Hh].
  assert (Hc : Pathlib.component n).
  { apply SecondRun.names_of_spec in Hn. destruct Hn as [f [Hf ->]].
    eapply SecondRun.catalog_file_component. exact Hf. }
  pose proof (SecondRun.canonical_value_is_kept (names_of found)
                (slugs_of found) make_relative n Hn Hc Hq Hh) as Hnone.
  change (images_web_root make_relative ++ n) with
    (images_web_root make_relative ++ n) in Hnone.
  rewrite <- E in Hnone. rewrite Hnone in H. discriminate.
Qed.
End Counted.

(** X9.  With a catalogue [build_catalog] made, whose file names have
    no question mark and no hash sign in them, a value that resolves is
    never resolved to itself.  So a [src] or [href] attribute whose
    value passes the filter and resolves is always rewritten, with the
    attribute name as written, and counted once; and so is a [url()]. *)
Theorem resolved_occurrence_is_rewritten_and_counted
  (found : list string) (make_relative : bool) (v : string) :
  (forall n : string, n ∈ names_of found ->
     Str.has_char "?" n = false /\ Str.has_char "#" n = false) ->
  (forall url : string,
      fix_url (names_of found) (slugs_of found) make_relative url = Some v ->
      v <> url)
  /\ (forall (m : attr_match) (changed : nat),
        Str.lower (am_attr m) <> "srcset" ->
        eligible (am_val m) = true ->
        fix_url (names_of found) (slugs_of found) make_relative (am_val m)
        = Some v ->
        repl_attr_safe (names_of found) (slugs_of found) make_relative m changed
        = (am_attr m ++ "=" ++ quote_of m ++ v ++ quote_of m, changed + 1))
  /\ (forall (m : css_match) (changed : nat),
        eligible (cm_val m) = true ->
        fix_url (names_of found) (slugs_of found) make_relative (cm_val m)
        = Some v ->
        repl_css (names_of found) (slugs_of found) make_relative m changed
        = ("url(" ++ Str.DQ ++ v ++ Str.DQ ++ ")", changed + 1)).
Proof.
  intros Hclean.
  assert (Hv : forall url,
             fix_url (names_of found) (slugs_of found) make_relative url
             = Some v ->
             v <> url /\ exists c r, v = String c r).
  { intros url H. split; [apply (resolved_differs found make_relative Hclean _ _ H)|].
    destruct (Resolution.maybe_fix_url_shape _ _ _ _ _ _ H) as [x ->].
    destruct make_relative; simpl; eauto. }
  split; [intros url H; apply (Hv url H)|]. split.
  - intros m changed Hattr Hel H.
    destruct (Hv _ H) as [Hne [c [r Ev]]].
    unfold repl_attr_safe, attr_new_val.
    apply String.eqb_neq in Hattr. rewrite Hattr, Hel, H.
    apply String.eqb_neq in Hne. subst v. simpl truthy. simpl or_else.
    rewrite Hne. reflexivity.
  - intros m changed Hel H.
    destruct (Hv _ H) as [Hne [c [r Ev]]].
    unfold repl_css. rewrite Hel, H.
    apply String.eqb_neq in Hne. subst v. simpl truthy. simpl or_else.
    rewrite Hne. reflexivity.
Qed.

Lemma pair_ab_clean (n : string) :
  n ∈ names_of pair_ab ->
  Str.has_char "?" n = false /\ Str.has_char "#" n = false
  /\ all_chars token_char n = true.
Proof.
  intros Hn. apply SecondRun.names_of_spec in Hn. destruct Hn as [f [Hf ->]].
  vm_compute in Hf. destruct Hf as [<-|[<-|[]]]; repeat split; reflexivity.
Qed.

Lemma resolved_occurrence_is_rewritten_and_counted_witness :
  repl_attr_safe (names_of pair_ab) (slugs_of pair_ab) true
    {| am_group0 := "SRC = 'x/a.jpg'"; am_attr := "SRC";
       am_quote := "'"; am_val := "x/a.jpg" |} 0
  = ("SRC='images/a.jpg'", 1).
Proof.
  refine (proj1 (proj2 (resolved_occurrence_is_rewritten_and_counted
                          pair_ab true "images/a.jpg" _))
            {| am_group0 := "SRC = 'x/a.jpg'"; am_attr := "SRC";
               am_quote := "'"; am_val := "x/a.jpg" |} 0 _ _ _).
  - intros n Hn. destruct (pair_ab_clean n Hn) as [H1 [H2 _]]. auto.
  - discriminate.
  - reflexivity.
  - vm_compute. reflexivity.
Defined.

End UrlFacts.

(** ** [fix_srcset] *)

Module SrcsetFacts.
Import StrFacts FixImages Samples Shape ShapeFacts.
#[local] Arguments String.append !s1 s2 / : simpl nomatch.

Lemma first_in_app (p : ascii -> bool) (a b : string) :
  a <> "" -> first_in p (a ++ b) = first_in p a.
Proof. destruct a as [|c a]; [contradiction | reflexivity]. Qed.

Lemma last_in_cons (p : ascii -> bool) (c : ascii) (s : string) :
  s <> "" -> last_in p (String c s) = last_in p s.
Proof. destruct s as [|d s]; [contradiction | reflexivity]. Qed.

Lemma app_nonempty_r (a b : string) : b <> "" -> a ++ b <> "".
Proof.
  intros H E. apply (f_equal String.length) in E.
  rewrite length_app in E. destruct b; [contradiction | simpl in E; lia].
Qed.

Lemma last_in_app (p : ascii -> bool) (a b : string) :
  b <> "" -> last_in p (a ++ b) = last_in p b.
Proof.
  intros H. induction a as [|c a IH]; [reflexivity|].
  rewrite app_cons, last_in_cons by (apply app_nonempty_r; exact H).
  exact IH.
Qed.

Lemma all_chars_first (p q : ascii -> bool) (s : string) :
  all_chars p s = true -> (forall c, p c = true -> q c = false) ->
  first_in q s = false.
Proof.
  destruct s as [|c s]; [reflexivity|]. simpl.
  rewrite andb_true_iff. intros [H _] Hpq. auto.
Qed.

Lemma all_chars_last (p q : ascii -> bool) (s : string) :
  all_chars p s = true -> (forall c, p c = true -> q c = false) ->
  last_in q s = false.
Proof.
  intros Hs Hpq. induction s as [|c s IH]; [reflexivity|].
  simpl in Hs. apply andb_true_iff in Hs. destruct Hs as [Hc Hs].
  destruct s as [|d s]; [simpl; auto|].
  rewrite last_in_cons by discriminate. auto.
Qed.

(** *** Tokens and entries *)

Lemma token_char_no_space (c : ascii) :
  token_char c = true -> Char.isspace c = false.
Proof.
  unfold token_char. rewrite andb_true_iff, !negb_true_iff. tauto.
Qed.

Lemma token_parts (t : string) :
  token t = true <-> t <> "" /\ all_chars token_char t = true.
Proof.
  unfold token. rewrite andb_true_iff, negb_true_iff, String.eqb_neq. tauto.
Qed.

Lemma token_no_comma (t : string) :
  all_chars token_char t = true -> Str.has_char "," t = false.
Proof.
  intros H. apply (all_chars_has_char token_char); [exact H|]. reflexivity.
Qed.

Lemma join_one (sep t : string) : Str.join sep [t] = t.
Proof. reflexivity. Qed.

Lemma join_more (sep t u : string) (l : list string) :
  Str.join sep (t :: u :: l) = t ++ sep ++ Str.join sep (u :: l).
Proof. reflexivity. Qed.

Lemma join_nonempty (sep t : string) (l : list string) :
  t <> "" -> Str.join sep (t :: l) <> "".
Proof.
  intros H. destruct l as [|u l]; [exact H|].
  rewrite join_more. destruct t; [contradiction | discriminate].
Qed.

Lemma join_first (p : ascii -> bool) (sep t : string) (l : list string) :
  t <> "" -> first_in p (Str.join sep (t :: l)) = first_in p t.
Proof.
  intros H. destruct l as [|u l]; [reflexivity|].
  rewrite join_more. apply first_in_app. exact H.
Qed.

Lemma entry_parts (toks : list string) :
  entry toks = true <->
  exists t ts, toks = t :: ts /\ Forall (fun x => token x = true) (t :: ts).
Proof.
  unfold entry. destruct toks as [|t ts].
  - split; [discriminate | intros [t [ts [H _]]]; discriminate].
  - split.
    + intros H. exists t, ts. split; [reflexivity|].
      apply List.Forall_forall. apply forallb_forall. exact H.
    + intros [t' [ts' [E H]]]. injection E as <- <-.
      apply forallb_forall. apply List.Forall_forall. exact H.
Qed.

(** The text of an entry has no comma, is not empty and has no blank at
    either end. *)
Lemma entry_text (t : string) (ts : list string) :
  Forall (fun x => token x = true) (t :: ts) ->
  all_chars (fun c => negb (Char.eqb c ",")) (Str.join " " (t :: ts)) = true
  /\ Str.join " " (t :: ts) <> ""
  /\ first_in Char.isspace (Str.join " " (t :: ts)) = false
  /\ last_in Char.isspace (Str.join " " (t :: ts)) = false.
Proof.
  revert t. induction ts as [|u ts IH]; intros t H.
  - apply Forall_inv in H. apply token_parts in H. destruct H as [H1 H2].
    rewrite join_one. split.
    + apply (all_chars_weaken token_char); [|exact H2].
      intros c. unfold token_char. rewrite andb_true_iff. tauto.
    + split; [exact H1|]. split.
      * apply (all_chars_first token_char); [exact H2|].
        apply token_char_no_space.
      * apply (all_chars_last token_char); [exact H2|].
        apply token_char_no_space.
  - pose proof (Forall_inv H) as Ht. apply token_parts in Ht.
    destruct Ht as [H1 H2]. apply Forall_inv_tail in H.
    destruct (IH u H) as [I1 [I2 [I3 I4]]].
    rewrite join_more. split.
    + rewrite !all_chars_app, I1, andb_true_r.
      apply (all_chars_weaken token_char); [|exact H2].
      intros c. unfold token_char. rewrite andb_true_iff. tauto.
    + split; [destruct t; [contradiction | discriminate]|]. split.
      * rewrite first_in_app by exact H1.
        apply (all_chars_first token_char); [exact H2|].
        apply token_char_no_space.
      * rewrite last_in_app by (apply app_nonempty_r; exact I2).
        rewrite last_in_app by exact I2. exact I4.
Qed.

(** *** [split()] and [join] *)

Lemma split_ws_word (w t s : string) :
  all_chars (fun c => negb (Char.isspace c)) t = true ->
  Str.split_ws_from (Some w) (t ++ s) = Str.split_ws_from (Some (w ++ t)) s.
Proof.
  revert w. induction t as [|c t IH]; intros w H.
  - rewrite app_empty_r. reflexivity.
  - simpl in H. apply andb_true_iff in H. destruct H as [Hc Ht].
    apply negb_true_iff in Hc. rewrite app_cons. simpl Str.split_ws_from.
    rewrite Hc, (IH _ Ht), app_assoc. reflexivity.
Qed.

Lemma split_ws_start (t s : string) :
  t <> "" -> all_chars (fun c => negb (Char.isspace c)) t = true ->
  Str.split_ws_from None (t ++ s) = Str.split_ws_from (Some t) s.
Proof.
  intros Hne H. destruct t as [|c t]; [contradiction|].
  simpl in H. apply andb_true_iff in H. destruct H as [Hc Ht].
  apply negb_true_iff in Hc. rewrite app_cons. simpl Str.split_ws_from.
  rewrite Hc. apply (split_ws_word (String c "") t s Ht).
Qed.

Lemma split_ws_blank (w : string) (c : ascii) (s : string) :
  Char.isspace c = true ->
  Str.split_ws_from (Some w) (String c s) = w :: Str.split_ws_from None s.
Proof. intros H. simpl. rewrite H. reflexivity. Qed.

Lemma token_no_space (t : string) :
  token t = true ->
  t <> "" /\ all_chars (fun c => negb (Char.isspace c)) t = true.
Proof.
  intros H. apply token_parts in H. destruct H as [H1 H2].
  split; [exact H1|].
  apply (all_chars_weaken token_char); [|exact H2].
  intros c Hc. rewrite (token_char_no_space _ Hc). reflexivity.
Qed.

Lemma split_ws_join (t : string) (ts : list string) :
  Forall (fun x => token x = true) (t :: ts) ->
  Str.split_ws (Str.join " " (t :: ts)) = t :: ts.
Proof.
  unfold Str.split_ws. revert t. induction ts as [|u ts IH]; intros t H.
  - apply Forall_inv in H. apply token_no_space in H. destruct H as [H1 H2].
    rewrite join_one, <- (app_empty_r t) at 1.
    rewrite (split_ws_start _ _ H1 H2). reflexivity.
  - pose proof (Forall_inv H) as Ht. apply token_no_space in Ht.
    destruct Ht as [H1 H2]. apply Forall_inv_tail in H.
    rewrite join_more, (split_ws_start _ _ H1 H2).
    change (" " ++ Str.join " " (u :: ts))
      with (String " " (Str.join " " (u :: ts))).
    rewrite split_ws_blank by reflexivity. rewrite (IH u H). reflexivity.
Qed.

(** *** [split(",")] and [join] *)

Lemma join_head (sep x t : string) (l : list string) :
  x ++ Str.join sep (t :: l) = Str.join sep ((x ++ t) :: l).
Proof.
  destruct l as [|u l]; [reflexivity|].
  rewrite !join_more, app_assoc. reflexivity.
Qed.

Lemma split_join_comma (e : string) (es : list string) :
  Forall (fun x => Str.has_char "," x = false) (e :: es) ->
  Str.split "," (Str.join ", " (e :: es))
  = e :: List.map (String.append " ") es.
Proof.
  revert e. induction es as [|u es IH]; intros e H.
  - rewrite join_one. apply SecondRun.split_no_sep.
    apply (Forall_inv H).
  - pose proof (Forall_inv H) as He. apply Forall_inv_tail in H.
    rewrite join_more.
    change (", " ++ Str.join ", " (u :: es))
      with (String "," (" " ++ Str.join ", " (u :: es))).
    rewrite (SecondRun.split_app_sep _ _ _ He), join_head, IH.
    + reflexivity.
    + constructor; [|apply (Forall_inv_tail H)].
      rewrite SecondRun.has_char_app, (Forall_inv H). reflexivity.
Qed.

Lemma strip_trimmed (e : string) :
  trimmed e -> Str.strip Char.isspace e = e.
Proof. intros [_ [H1 H2]]. apply strip_id; assumption. Qed.

Lemma strip_blank_trimmed (e : string) :
  trimmed e -> Str.strip Char.isspace (" " ++ e) = e.
Proof.
  intros [_ [H1 H2]]. unfold Str.strip.
  change (Str.lstrip Char.isspace (" " ++ e))
    with (Str.lstrip Char.isspace e).
  rewrite (lstrip_id _ _ H1). apply rstrip_id. exact H2.
Qed.

(** The entries [fix_srcset] finds in a text in normal form. *)
Lemma srcset_parts (es : list string) :
  Forall (fun x => Str.has_char "," x = false) es ->
  Forall trimmed es ->
  List.filter (fun p => negb (String.eqb p ""))
              (List.map (Str.strip Char.isspace)
                        (Str.split "," (Str.join ", " es)))
  = es.
Proof.
  intros Hc Ht. destruct es as [|e es]; [reflexivity|].
  rewrite (split_join_comma _ _ Hc). cbn [List.map].
  rewrite (strip_trimmed _ (Forall_inv Ht)). cbn [List.filter].
  destruct (Forall_inv Ht) as [Hne _]. apply String.eqb_neq in Hne.
  rewrite Hne. cbn [negb]. f_equal.
  apply Forall_inv_tail in Ht. clear -Ht.
  induction es as [|u es IH]; [reflexivity|].
  cbn [List.map]. rewrite (strip_blank_trimmed _ (Forall_inv Ht)).
  cbn [List.filter].
  destruct (Forall_inv Ht) as [Hne _]. apply String.eqb_neq in Hne.
  rewrite Hne. cbn [negb]. f_equal. apply IH. apply (Forall_inv_tail Ht).
Qed.

Lemma entries_text (entries : list (list string)) :
  Forall (fun toks => entry toks = true) entries ->
  Forall (fun x => Str.has_char "," x = false)
         (List.map (Str.join " ") entries)
  /\ Forall trimmed (List.map (Str.join " ") entries).
Proof.
  intros H. induction H as [|toks l Hx Hl [IH1 IH2]]; [split; constructor|].
  apply entry_parts in Hx. destruct Hx as [t [ts [-> Ht]]].
  destruct (entry_text t ts Ht) as [H1 [H2 [H3 H4]]].
  split; simpl List.map; constructor; try assumption.
  - apply (all_chars_has_char _ _ _ H1). reflexivity.
  - repeat split; assumption.
Qed.

Lemma split_ws_tokens (s : string) (cur : option string) :
  all_chars (fun c => negb (Char.eqb c ",")) s = true ->
  (forall w, cur = Some w -> token w = true) ->
  Forall (fun x => token x = true) (Str.split_ws_from cur s).
Proof.
  revert cur. induction s as [|c s IH]; intros cur Hs Hcur.
  - destruct cur as [w|]; simpl; [|constructor].
    constructor; [auto | constructor].
  - simpl in Hs. apply andb_true_iff in Hs. destruct Hs as [Hc Hs].
    simpl. destruct (Char.isspace c) eqn:E.
    + destruct cur as [w|].
      * constructor; [auto|]. apply IH; [exact Hs | discriminate].
      * apply IH; [exact Hs | discriminate].
    + apply IH; [exact Hs|]. intros w Hw. injection Hw as <-.
      assert (Hch : token_char c = true)
        by (unfold token_char; rewrite E, Hc; reflexivity).
      destruct cur as [w|].
      * pose proof (Hcur w eq_refl) as Hw. apply token_parts in Hw.
        destruct Hw as [H1 H2]. apply token_parts. split.
        -- destruct w; [contradiction | discriminate].
        -- rewrite all_chars_app, H2. simpl. rewrite Hch. reflexivity.
      * apply token_parts. split; [discriminate|].
        simpl. rewrite Hch. reflexivity.
Qed.

Lemma split_ws_from_some (w s : string) : Str.split_ws_from (Some w) s <> [].
Proof.
  revert w. induction s as [|c s IH]; intros w; simpl; [discriminate|].
  destruct (Char.isspace c); [discriminate | apply IH].
Qed.

Lemma split_ws_nonempty (p : string) :
  p <> "" -> first_in Char.isspace p = false -> Str.split_ws p <> [].
Proof.
  intros Hne H. destruct p as [|c p]; [contradiction|].
  unfold Str.split_ws. simpl in *. rewrite H. apply split_ws_from_some.
Qed.

(** The parts [fix_srcset] works on have no comma, are not empty and
    do not start with a blank. *)
Lemma srcset_part (val p : string) :
  In p (List.filter (fun p => negb (String.eqb p ""))
          (List.map (Str.strip Char.isspace) (Str.split "," val))) ->
  p <> "" /\ first_in Char.isspace p = false
  /\ all_chars (fun c => negb (Char.eqb c ",")) p = true.
Proof.
  intros H. apply filter_In in H. destruct H as [H Hne].
  apply negb_true_iff, String.eqb_neq in Hne.
  apply in_map_iff in H. destruct H as [q [<- Hq]].
  split; [exact Hne|]. split.
  - unfold Str.strip. apply rstrip_first. apply lstrip_first.
  - apply SecondRun.split_pieces in Hq.
    destruct (strip_middle Char.isspace q) as [pre [post [E _]]].
    assert (Hall : all_chars (fun c => negb (Char.eqb c ",")) q = true).
    { clear -Hq. induction q as [|c q IH]; [reflexivity|].
      simpl in *. apply orb_false_iff in Hq. destruct Hq as [H1 H2].
      rewrite H1, (IH H2). reflexivity. }
    rewrite E, !all_chars_app, !andb_true_iff in Hall. apply Hall.
Qed.

Section Engine.
Variable basenames : gset string.
Variable slug_map : list (string * string).
Variable make_relative : bool.

(** One entry: the URL is replaced, the rest is kept. *)
Lemma fix_entry_split (p t : string) (ts : list string) :
  Str.split_ws p = t :: ts ->
  Forall (fun x => token x = true) ts ->
  fix_entry basenames slug_map make_relative p
  = Str.strip Char.isspace
      (Str.join " "
         (or_else (fix_url basenames slug_map make_relative t) t :: ts)).
Proof.
  intros E H. unfold fix_entry. rewrite E.
  f_equal. destruct ts as [|u ts]; [apply app_empty_r|].
  apply Forall_inv in H. apply token_parts in H. destruct H as [Hu _].
  pose proof (join_nonempty " " u ts Hu) as Hne.
  destruct (Str.join " " (u :: ts)) eqn:E'; [contradiction|].
  rewrite join_more, E'. reflexivity.
Qed.

Lemma fix_entry_tokens (t : string) (ts : list string) :
  Forall (fun x => token x = true) (t :: ts) ->
  fix_entry basenames slug_map make_relative (Str.join " " (t :: ts))
  = Str.strip Char.isspace
      (Str.join " "
         (or_else (fix_url basenames slug_map make_relative t) t :: ts)).
Proof.
  intros H. apply fix_entry_split; [apply split_ws_join; exact H|].
  apply (Forall_inv_tail H).
Qed.

(** Nothing resolves: the text comes back as it was. *)
Lemma fix_srcset_unresolved (entries : list (list string)) :
  Forall (fun toks => entry toks = true) entries ->
  Forall (fun toks =>
            truthy (fix_url basenames slug_map make_relative (hd "" toks))
            = false) entries ->
  fix_srcset basenames slug_map make_relative (srcset_text entries)
  = srcset_text entries.
Proof.
  intros H Hn. unfold fix_srcset, srcset_text.
  destruct (entries_text _ H) as [H1 H2].
  rewrite (srcset_parts _ H1 H2), List.map_map. f_equal.
  apply List.map_ext_in. intros toks Hin.
  rewrite List.Forall_forall in H, Hn.
  pose proof (H _ Hin) as He. pose proof (Hn _ Hin) as Hu.
  apply entry_parts in He. destruct He as [t [ts [-> Ht]]].
  rewrite (fix_entry_tokens _ _ Ht). simpl hd in Hu.
  replace (or_else (fix_url basenames slug_map make_relative t) t) with t.
  - destruct (entry_text t ts Ht) as [_ Htr]. apply strip_trimmed. exact Htr.
  - destruct (fix_url basenames slug_map make_relative t) as [[|c r]|];
      try reflexivity. discriminate.
Qed.

(** X10.  In a [srcset] in normal form (entries separated by a comma
    and a blank, each a URL and descriptors with single blanks between
    them) [fix_srcset] replaces the URL of each entry by what it
    resolves to, when it resolves, and keeps the descriptors, the number
    of the entries and their order. *)
Theorem fix_srcset_replaces_urls_only (entries : list (list string)) :
  Forall (fun toks => entry toks = true) entries ->
  fix_srcset basenames slug_map make_relative (srcset_text entries)
  = Str.join ", "
      (List.map
         (fun toks =>
            Str.strip Char.isspace
              (Str.join " "
                 (or_else (fix_url basenames slug_map make_relative
                             (hd "" toks)) (hd "" toks)
                  :: tl toks)))
         entries).
Proof.
  intros H. unfold fix_srcset, srcset_text.
  destruct (entries_text _ H) as [H1 H2].
  rewrite (srcset_parts _ H1 H2), List.map_map. f_equal.
  apply List.map_ext_in. intros toks Hin.
  rewrite List.Forall_forall in H. apply H in Hin.
  apply entry_parts in Hin. destruct Hin as [t [ts [-> Ht]]].
  apply fix_entry_tokens. exact Ht.
Qed.

(** X11.  A [srcset] in normal form in which no URL resolves comes
    back from [fix_srcset] as it was, and the attribute that holds it
    is put back as matched and not counted. *)
Theorem srcset_with_nothing_to_fix_is_kept (entries : list (list string)) :
  Forall (fun toks => entry toks = true) entries ->
  Forall (fun toks =>
            fix_url basenames slug_map make_relative (hd "" toks) = None)
         entries ->
  fix_srcset basenames slug_map make_relative (srcset_text entries)
  = srcset_text entries
  /\ forall (m : attr_match) (changed : nat),
       Str.lower (am_attr m) = "srcset" ->
       am_val m = srcset_text entries ->
       repl_attr_safe basenames slug_map make_relative m changed
       = (am_group0 m, changed).
Proof.
  intros H Hn.
  assert (E : fix_srcset basenames slug_map make_relative (srcset_text entries)
              = srcset_text entries).
  { apply fix_srcset_unresolved; [exact H|].
    apply List.Forall_forall. intros toks Hin.
    rewrite List.Forall_forall in Hn. rewrite (Hn _ Hin). reflexivity. }
  split; [exact E|].
  intros m changed Hattr Hval. unfold repl_attr_safe, attr_new_val.
  rewrite Hattr, Hval, E. simpl String.eqb.
  destruct (srcset_text entries) as [|c r]; [reflexivity|].
  simpl truthy. simpl or_else. rewrite String.eqb_refl. reflexivity.
Qed.
End Engine.

Lemma fix_srcset_replaces_urls_only_witness :
  fix_srcset (names_of pair_ab) (slugs_of pair_ab) true
    (srcset_text [["x/a.jpg"; "1x"]; ["https://cdn.example/b.jpg"; "2x"]])
  = "images/a.jpg 1x, https://cdn.example/b.jpg 2x".
Proof.
  rewrite (fix_srcset_replaces_urls_only (names_of pair_ab) (slugs_of pair_ab)
             true [["x/a.jpg"; "1x"]; ["https://cdn.example/b.jpg"; "2x"]]).
  - vm_compute. reflexivity.
  - repeat constructor.
Defined.

Lemma srcset_with_nothing_to_fix_is_kept_witness :
  fix_srcset (names_of pair_ab) (slugs_of pair_ab) true
    (srcset_text [["images/a.jpg"; "1x"]; ["https://cdn.example/b.jpg"; "2x"]])
  = srcset_text [["images/a.jpg"; "1x"]; ["https://cdn.example/b.jpg"; "2x"]].
Proof.
  apply (srcset_with_nothing_to_fix_is_kept (names_of pair_ab)
           (slugs_of pair_ab) true).
  - repeat constructor.
  - repeat constructor; vm_compute; reflexivity.
Defined.

(** *** A second pass over a [srcset] *)

Section Catalogue.
Variable found : list string.
Variable make_relative : bool.
Hypothesis names_clean :
  forall n : string, n ∈ names_of found ->
    Str.has_char "?" n = false /\ Str.has_char "#" n = false
    /\ all_chars token_char n = true.

(** What stands for the URL of an entry after a pass is a token that
    does not resolve. *)
Lemma resolved_token (u : string) :
  token u = true ->
  token (or_else (fix_url (names_of found) (slugs_of found) make_relative u) u)
  = true
  /\ fix_url (names_of found) (slugs_of found) make_relative
       (or_else (fix_url (names_of found) (slugs_of found) make_relative u) u)
     = None.
Proof.
  intros Hu.
  destruct (fix_url (names_of found) (slugs_of found) make_relative u)
    as [v|] eqn:E; [|simpl; rewrite E; auto].
  pose proof E as E'. unfold fix_url in E'.
  apply SecondRun.maybe_fix_url_in_catalog in E';
    [|apply SecondRun.slugs_of_values].
  destruct E' as [n [-> Hn]].
  destruct (names_clean n Hn) as [Hq [Hh Ht]].
  assert (Hc : Pathlib.component n).
  { apply SecondRun.names_of_spec in Hn. destruct Hn as [f [Hf ->]].
    eapply SecondRun.catalog_file_component. exact Hf. }
  assert (Hv : exists c r, images_web_root make_relative ++ n = String c r)
    by (destruct make_relative; simpl; eauto).
  destruct Hv as [c [r Hv]]. simpl or_else. rewrite Hv. simpl or_else.
  rewrite <- Hv. split.
  - apply token_parts. split; [rewrite Hv; discriminate|].
    rewrite all_chars_app, Ht. destruct make_relative; reflexivity.
  - apply SecondRun.canonical_value_is_kept; assumption.
Qed.

Lemma fix_srcset_image (val : string) :
  exists entries : list (list string),
    Forall (fun toks => entry toks = true) entries
    /\ Forall (fun toks =>
                 truthy (fix_url (names_of found) (slugs_of found)
                           make_relative (hd "" toks)) = false) entries
    /\ fix_srcset (names_of found) (slugs_of found) make_relative val
       = srcset_text entries.
Proof.
  unfold fix_srcset, srcset_text.
  set (parts := List.filter (fun p => negb (String.eqb p ""))
                  (List.map (Str.strip Char.isspace) (Str.split "," val))).
  assert (Hparts : forall p, In p parts ->
            p <> "" /\ first_in Char.isspace p = false
            /\ all_chars (fun c => negb (Char.eqb c ",")) p = true)
    by (intros p; apply srcset_part).
  clearbody parts.
  assert (Hmap : exists entries : list (list string),
            Forall (fun toks => entry toks = true) entries
            /\ Forall (fun toks =>
                         truthy (fix_url (names_of found) (slugs_of found)
                                   make_relative (hd "" toks)) = false) entries
            /\ List.map (fix_entry (names_of found) (slugs_of found)
                           make_relative) parts
               = List.map (Str.join " ") entries).
  { induction parts as [|p parts IH].
    - exists []. repeat split; constructor.
    - destruct IH as [entries [I1 [I2 I3]]];
        [intros q Hq; apply Hparts; right; exact Hq|].
      destruct (Hparts p (or_introl eq_refl)) as [Hne [Hf Hc]].
      pose proof (split_ws_tokens p None Hc ltac:(discriminate)) as Htok.
      fold (Str.split_ws p) in Htok.
      pose proof (split_ws_nonempty p Hne Hf) as Hsome.
      destruct (Str.split_ws p) as [|u ts] eqn:Ep; [contradiction|].
      destruct (resolved_token u (Forall_inv Htok)) as [Hx Hnone].
      set (x := or_else (fix_url (names_of found) (slugs_of found)
                           make_relative u) u) in *.
      assert (Hent : Forall (fun t => token t = true) (x :: ts))
        by (constructor; [exact Hx | apply (Forall_inv_tail Htok)]).
      exists ((x :: ts) :: entries). split; [|split].
      + constructor; [|exact I1]. apply entry_parts. eauto.
      + constructor; [|exact I2]. simpl hd. rewrite Hnone. reflexivity.
      + cbn [List.map]. rewrite <- I3. f_equal.
        rewrite (fix_entry_split _ _ _ _ _ _ Ep (Forall_inv_tail Htok)).
        fold x. destruct (entry_text x ts Hent) as [_ Htr].
        apply (strip_trimmed _ Htr). }
  destruct Hmap as [entries [I1 [I2 I3]]]. exists entries.
  rewrite I3. auto.
Qed.

End Catalogue.

(** X12.  With a catalogue [build_catalog] made, whose file names have
    no question mark, hash sign, comma or blank in them, [fix_srcset]
    changes nothing in a value it has produced: a second pass over a
    [srcset] attribute gives its value back, and the attribute is put
    back as matched and not counted. *)
Theorem fix_srcset_second_pass_changes_nothing
  (found : list string) (make_relative : bool) :
  (forall n : string, n ∈ names_of found ->
     Str.has_char "?" n = false /\ Str.has_char "#" n = false
     /\ all_chars token_char n = true) ->
  forall val : string,
    fix_srcset (names_of found) (slugs_of found) make_relative
      (fix_srcset (names_of found) (slugs_of found) make_relative val)
    = fix_srcset (names_of found) (slugs_of found) make_relative val
    /\ forall (m : attr_match) (changed : nat),
         Str.lower (am_attr m) = "srcset" ->
         am_val m
         = fix_srcset (names_of found) (slugs_of found) make_relative val ->
         repl_attr_safe (names_of found) (slugs_of found) make_relative
           m changed
         = (am_group0 m, changed).
Proof.
  intros Hclean val.
  destruct (fix_srcset_image found make_relative Hclean val)
    as [entries [H1 [H2 H3]]].
  assert (E : fix_srcset (names_of found) (slugs_of found) make_relative
                (fix_srcset (names_of found) (slugs_of found) make_relative val)
              = fix_srcset (names_of found) (slugs_of found) make_relative val).
  { rewrite H3. apply fix_srcset_unresolved; assumption. }
  split; [exact E|].
  intros m changed Hattr Hval. unfold repl_attr_safe, attr_new_val.
  rewrite Hattr, Hval, E. simpl String.eqb.
  destruct (fix_srcset (names_of found) (slugs_of found) make_relative val)
    as [|c r]; [reflexivity|].
  simpl truthy. simpl or_else. rewrite String.eqb_refl. reflexivity.
Qed.

Lemma fix_srcset_second_pass_changes_nothing_witness :
  fix_srcset (names_of pair_ab) (slugs_of pair_ab) true
    (fix_srcset (names_of pair_ab) (slugs_of pair_ab) true
       " x/a.jpg   1x ,,b.jpg 2x,   https://cdn.example/c.jpg ")
  = fix_srcset (names_of pair_ab) (slugs_of pair_ab) true
      " x/a.jpg   1x ,,b.jpg 2x,   https://cdn.example/c.jpg ".
Proof.
  apply (fix_srcset_second_pass_changes_nothing pair_ab true
           UrlFacts.pair_ab_clean).
Defined.

(** *** A [srcset] with no entry *)

Lemma split_classes (p : ascii -> bool) (sep : ascii) (s : string) :
  all_chars (fun c => p c || Char.eqb c sep) s = true ->
  Forall (fun w => all_chars p w = true) (Str.split sep s).
Proof.
  induction s as [|c s IH]; [repeat constructor|].
  simpl. rewrite andb_true_iff. intros [Hc Hs]. specialize (IH Hs).
  destruct (Char.eqb c sep) eqn:E; [constructor; [reflexivity | exact IH]|].
  rewrite orb_false_r in Hc.
  destruct (Str.split sep s) as [|w ws].
  - repeat constructor. simpl. rewrite Hc. reflexivity.
  - constructor; [|apply (Forall_inv_tail IH)].
    simpl. rewrite Hc. apply (Forall_inv IH).
Qed.

Lemma strip_blank (p : ascii -> bool) (w : string) :
  all_chars p w = true -> Str.strip p w = "".
Proof.
  intros H. unfold Str.strip.
  replace (Str.lstrip p w) with ""; [reflexivity|].
  induction w as [|c w IH]; [reflexivity|].
  simpl in *. apply andb_true_iff in H. destruct H as [-> H]. auto.
Qed.

(** X13.  A [srcset] made of commas and blanks only has no entry:
    [fix_srcset] gives the empty text for it, and the attribute is put
    back as matched and not counted. *)
Theorem srcset_without_entries_is_left_alone
  (basenames : gset string) (slug_map : list (string * string))
  (make_relative : bool) (val : string) :
  all_chars (fun c => Char.isspace c || Char.eqb c ",") val = true ->
  fix_srcset basenames slug_map make_relative val = ""
  /\ forall (m : attr_match) (changed : nat),
       Str.lower (am_attr m) = "srcset" -> am_val m = val ->
       repl_attr_safe basenames slug_map make_relative m changed
       = (am_group0 m, changed).
Proof.
  intros H.
  assert (E : fix_srcset basenames slug_map make_relative val = "").
  { unfold fix_srcset.
    replace (List.filter (fun p => negb (String.eqb p ""))
               (List.map (Str.strip Char.isspace) (Str.split "," val)))
      with (@nil string); [reflexivity|].
    pose proof (split_classes Char.isspace "," val H) as Hs.
    induction Hs as [|w ws Hw _ IH]; [reflexivity|].
    cbn [List.map List.filter]. rewrite (strip_blank _ _ Hw). exact IH. }
  split; [exact E|].
  intros m changed Hattr Hval. unfold repl_attr_safe, attr_new_val.
  rewrite Hattr, Hval, E. reflexivity.
Qed.

Lemma srcset_without_entries_is_left_alone_witness :
  fix_srcset (names_of pair_ab) (slugs_of pair_ab) true " , ,  " = "".
Proof.
  apply (srcset_without_entries_is_left_alone (names_of pair_ab)
           (slugs_of pair_ab) true " , ,  ").
  reflexivity.
Defined.

End SrcsetFacts.

(** ** The matches of the patterns and what is put in their place *)

Module MatchFacts.
Import StrFacts FixImages Samples Shape ShapeFacts.
#[local] Arguments String.append !s1 s2 / : simpl nomatch.

Lemma contains_char (c : ascii) (s : string) :
  Str.contains s (String c "") = Str.has_char c s.
Proof.
  induction s as [|d s IH]; [reflexivity|].
  simpl. rewrite IH, andb_true_r. reflexivity.
Qed.

Lemma str_lower_length (s : string) :
  String.length (Str.lower s) = String.length s.
Proof. induction s as [|c s IH]; [reflexivity|]. simpl. rewrite IH. reflexivity. Qed.

Lemma has_char_lower (c : ascii) (s : string) :
  Str.has_char c s = true ->
  Str.has_char (Char.lower c) (Str.lower s) = true.
Proof.
  induction s as [|d s IH]; [discriminate|].
  simpl. rewrite !orb_true_iff, !char_eqb_eq. intros [->|H]; auto.
Qed.

(** The text a case-insensitive literal matched. *)
Lemma istartswith_take (s p : string) :
  Re.istartswith s p = true ->
  String.length (Str.take (String.length p) s) = String.length p
  /\ forall c, Char.lower c = c -> Str.has_char c p = false ->
               Str.has_char c (Str.take (String.length p) s) = false.
Proof.
  intros H. pose proof (EngineFacts.istartswith_lower_take _ _ H) as Hl.
  split.
  - rewrite <- (str_lower_length (Str.take _ s)), Hl. reflexivity.
  - intros c Hc Hp.
    destruct (Str.has_char c (Str.take (String.length p) s)) eqn:E;
      [|reflexivity].
    apply has_char_lower in E. rewrite Hl, Hc, Hp in E. discriminate.
Qed.

Lemma span_parts (p : ascii -> bool) (s a b : string) :
  Re.span p s = (a, b) ->
  s = a ++ b /\ all_chars p a = true /\ first_in p b = false.
Proof.
  intros E. pose proof (span_app p s) as H1.
  pose proof (span_all p s) as H2. pose proof (span_stop p s) as H3.
  rewrite E in H1, H2, H3. simpl in *. auto.
Qed.

(** What [ATTR_tail] matched. *)
Lemma ATTR_tail_match (t : string) (q : ascii) (v : string) (k : nat) :
  ATTR_tail t = Some (q, v, k) ->
  exists w1 w2 rest : string,
    t = (w1 ++ "=" ++ w2 ++ String q (v ++ String q "")) ++ rest
    /\ k = String.length (w1 ++ "=" ++ w2 ++ String q (v ++ String q ""))
    /\ all_chars Char.isspace w1 = true /\ all_chars Char.isspace w2 = true
    /\ is_quote q = true /\ v <> ""
    /\ all_chars (fun c => negb (is_quote c)) v = true.
Proof.
  unfold ATTR_tail.
  destruct (Re.span Char.isspace t) as [w1 t1] eqn:E1.
  destruct (span_parts _ _ _ _ E1) as [-> [Hw1 _]].
  destruct t1 as [|c t2]; [discriminate|].
  destruct (Ascii.eqb c "=") eqn:Ec.
  2:{ apply Ascii.eqb_neq in Ec.
      destruct c as [[] [] [] [] [] [] [] []]; try discriminate.
      contradiction. }
  apply Ascii.eqb_eq in Ec. subst c.
  destruct (Re.span Char.isspace t2) as [w2 t3] eqn:E2.
  destruct (span_parts _ _ _ _ E2) as [-> [Hw2 _]].
  destruct t3 as [|q0 t4]; [discriminate|].
  destruct (is_quote q0) eqn:Hq; [|discriminate].
  destruct (Re.span (fun c => negb (is_quote c)) t4) as [v0 t5] eqn:E3.
  destruct (span_parts _ _ _ _ E3) as [-> [Hv _]].
  destruct v0 as [|c0 v0]; [discriminate|].
  destruct t5 as [|q' rest]; [discriminate|].
  destruct (Char.eqb q' q0) eqn:Eq; [|discriminate].
  apply char_eqb_eq in Eq. subst q'.
  intros H. injection H as <- <- <-.
  exists w1, w2, rest. split.
  { rewrite !app_assoc. simpl. rewrite !app_assoc. reflexivity. }
  split.
  { rewrite !length_app. simpl. rewrite !length_app. simpl. lia. }
  repeat split; try assumption. discriminate.
Qed.

Lemma ATTR_alts_match (alts : list string) (s : string) (m : attr_match)
      (n : nat) :
  ATTR_alts alts s = Some (m, n) ->
  exists alt k,
    In alt alts /\ Re.istartswith s alt = true
    /\ ATTR_tail (Str.drop (String.length alt) s)
       = Some (am_quote m, am_val m, k)
    /\ n = String.length alt + k
    /\ am_group0 m = Str.take n s
    /\ am_attr m = Str.take (String.length alt) s.
Proof.
  induction alts as [|alt alts IH]; simpl; [discriminate|].
  destruct (Re.istartswith s alt) eqn:E.
  - destruct (ATTR_tail (Str.drop (String.length alt) s)) as [[[q v] k]|] eqn:Et.
    + intros H. injection H as <- <-. exists alt, k. simpl. auto 10.
    + intros H. destruct (IH H) as [a [k H']]. exists a, k. tauto.
  - intros H. destruct (IH H) as [a [k H']]. exists a, k. tauto.
Qed.

(** The anatomy of a match of [ATTR_RE]. *)
Lemma ATTR_RE_match (s : string) (m : attr_match) (n : nat) :
  ATTR_RE s = Some (m, n) ->
  exists w1 w2 : string,
    am_group0 m
    = am_attr m ++ w1 ++ "=" ++ w2
      ++ String (am_quote m) (am_val m ++ String (am_quote m) "")
    /\ all_chars Char.isspace w1 = true /\ all_chars Char.isspace w2 = true
    /\ s = am_group0 m ++ Str.drop n s
    /\ n = String.length (am_group0 m)
    /\ Str.has_char Char.dquote (am_attr m) = false
    /\ is_quote (am_quote m) = true
    /\ am_val m <> ""
    /\ all_chars (fun c => negb (is_quote c)) (am_val m) = true.
Proof.
  intros H. unfold ATTR_RE in H.
  destruct (ATTR_alts_match _ _ _ _ H) as [alt [k [Hin [Hs [Ht [Hn [Hg Ha]]]]]]].
  destruct (ATTR_tail_match _ _ _ _ Ht)
    as [w1 [w2 [rest [Et [Ek [Hw1 [Hw2 [Hq [Hv1 Hv2]]]]]]]]].
  destruct (istartswith_take _ _ Hs) as [Hlen Hno].
  exists w1, w2.
  assert (Hg' : am_group0 m
                = am_attr m ++ w1 ++ "=" ++ w2
                  ++ String (am_quote m) (am_val m ++ String (am_quote m) "")).
  { rewrite Hg, Hn, StepFacts.take_add, <- Ha. f_equal.
    rewrite Et, Ek. apply take_app_length. }
  split; [exact Hg'|]. split; [exact Hw1|]. split; [exact Hw2|].
  split; [rewrite Hg; symmetry; apply take_drop|].
  split.
  { rewrite Hg', length_app, Ha, Hlen, Hn, Ek. reflexivity. }
  split.
  { rewrite Ha. apply Hno; [reflexivity|].
    simpl in Hin. destruct Hin as [<-|[<-|[<-|[]]]]; reflexivity. }
  auto.
Qed.

Lemma quote_kept (s : string) (m : attr_match) (n : nat) :
  ATTR_RE s = Some (m, n) -> quote_of m = String (am_quote m) "".
Proof.
  intros H.
  destruct (ATTR_RE_match _ _ _ H)
    as [w1 [w2 [Hg [Hw1 [Hw2 [_ [_ [Ha [Hq [_ Hv]]]]]]]]]].
  unfold quote_of. unfold Str.DQ at 1. rewrite contains_char, Hg.
  rewrite !SecondRun.has_char_app, Ha.
  rewrite (all_chars_has_char _ _ _ Hw1) by reflexivity.
  rewrite (all_chars_has_char _ _ _ Hw2) by reflexivity.
  simpl Str.has_char. rewrite SecondRun.has_char_app.
  rewrite (all_chars_has_char _ _ _ Hv) by reflexivity.
  simpl Str.has_char. rewrite !orb_false_r, !orb_false_l, orb_diag.
  unfold is_quote in Hq. apply orb_true_iff in Hq.
  destruct Hq as [Hq|Hq]; apply char_eqb_eq in Hq; rewrite Hq; reflexivity.
Qed.

(** X14.  A match of [ATTR_RE] is the attribute name, blanks, the
    equals sign, blanks, a quote, the value and the same quote; the
    value is not empty and holds no quote.  What [repl_attr_safe] puts
    in the place of a match it rewrites is the attribute name as it was
    written, the equals sign and the new value between two quotes of
    the kind the value had; the blanks around the equals sign go. *)
Theorem rewritten_attribute_keeps_name_and_quote
  (basenames : gset string) (slug_map : list (string * string))
  (make_relative : bool) (s : string) (m : attr_match) (n : nat) :
  ATTR_RE s = Some (m, n) ->
  (exists w1 w2 : string,
      am_group0 m
      = am_attr m ++ w1 ++ "=" ++ w2
        ++ String (am_quote m) (am_val m ++ String (am_quote m) "")
      /\ all_chars Char.isspace w1 = true
      /\ all_chars Char.isspace w2 = true)
  /\ s = am_group0 m ++ Str.drop n s
  /\ n = String.length (am_group0 m)
  /\ is_quote (am_quote m) = true
  /\ am_val m <> ""
  /\ all_chars (fun c => negb (is_quote c)) (am_val m) = true
  /\ forall changed : nat,
       attr_substituted basenames slug_map make_relative m = true ->
       repl_attr_safe basenames slug_map make_relative m changed
       = (am_attr m ++ "="
          ++ String (am_quote m)
               (or_else (attr_new_val basenames slug_map make_relative m) ""
                ++ String (am_quote m) ""),
          changed + 1).
Proof.
  intros H.
  destruct (ATTR_RE_match _ _ _ H)
    as [w1 [w2 [Hg [Hw1 [Hw2 [Hs [Hn [_ [Hq [Hv1 Hv2]]]]]]]]]].
  split; [exists w1, w2; auto|].
  split; [exact Hs|]. split; [exact Hn|]. split; [exact Hq|].
  split; [exact Hv1|]. split; [exact Hv2|].
  intros changed Hsub. rewrite EngineFacts.repl_attr_safe_spec, Hsub.
  rewrite (quote_kept _ _ _ H). reflexivity.
Qed.

Lemma rewritten_attribute_keeps_name_and_quote_witness :
  ATTR_RE "SrC = 'x/a.jpg' alt=''>"
  = Some ({| am_group0 := "SrC = 'x/a.jpg'"; am_attr := "SrC";
             am_quote := "'"; am_val := "x/a.jpg" |}, 15)
  /\ repl_attr_safe (names_of pair_ab) (slugs_of pair_ab) true
       {| am_group0 := "SrC = 'x/a.jpg'"; am_attr := "SrC";
          am_quote := "'"; am_val := "x/a.jpg" |} 0
     = ("SrC='images/a.jpg'", 1).
Proof.
  assert (H : ATTR_RE "SrC = 'x/a.jpg' alt=''>"
              = Some ({| am_group0 := "SrC = 'x/a.jpg'"; am_attr := "SrC";
                         am_quote := "'"; am_val := "x/a.jpg" |}, 15))
    by (vm_compute; reflexivity).
  split; [exact H|].
  destruct (rewritten_attribute_keeps_name_and_quote
              (names_of pair_ab) (slugs_of pair_ab) true _ _ _ H)
    as [_ [_ [_ [_ [_ [_ Hrepl]]]]]].
  rewrite (Hrepl 0) by (vm_compute; reflexivity).
  vm_compute. reflexivity.
Defined.

End MatchFacts.

(** ** Substitutions that put the match back *)

Module KeepFacts.
Import StrFacts.
#[local] Arguments String.append !s1 s2 / : simpl nomatch.

Section Keeps.
Context {M St : Type}.
Variable match_at : string -> option (M * nat).
Variable repl : M -> St -> string * St.
Variable group0 : M -> string.
Hypothesis match_span :
  forall s m n, match_at s = Some (m, n) -> 0 < n /\ group0 m = Str.take n s.

(** When the callback gives back every match it is given, the text
    comes out as it was. *)
Lemma sub_from_keeps (skip : nat) (s : string) (st : St) :
  (forall m, In m (Re.finditer_from match_at skip s) ->
             forall st', fst (repl m st') = group0 m) ->
  fst (Re.sub_from match_at repl skip s st) = Str.drop skip s.
Proof.
  revert skip st. induction s as [|c s IH]; intros skip st H.
  - destruct skip; reflexivity.
  - destruct skip as [|k]; simpl in *; [|apply IH; exact H].
    destruct (match_at (String c s)) as [[m n]|] eqn:E.
    + destruct (match_span _ _ _ E) as [Hn Hg].
      pose proof (H m (or_introl eq_refl) st) as Hm.
      destruct (repl m st) as [r st1]. simpl in Hm. subst r.
      pose proof (IH (Nat.pred n) st1
                     (fun m' Hin => H m' (or_intror Hin))) as Hrest.
      destruct (Re.sub_from match_at repl (Nat.pred n) s st1) as [rest st2].
      simpl in *. subst rest. rewrite Hg.
      destruct n as [|n]; [lia|]. simpl. rewrite take_drop. reflexivity.
    + pose proof (IH 0 st H) as Hrest.
      destruct (Re.sub_from match_at repl 0 s st) as [rest st1].
      simpl in *. subst rest. reflexivity.
Qed.

Lemma sub_keeps (s : string) (st : St) :
  (forall m, In m (Re.finditer match_at s) ->
             forall st', fst (repl m st') = group0 m) ->
  fst (Re.sub match_at repl s st) = s.
Proof. apply (sub_from_keeps 0). Qed.
End Keeps.

Lemma filter_nil {A : Type} (f : A -> bool) (l : list A) :
  length (List.filter f l) = 0 -> forall x, In x l -> f x = false.
Proof.
  induction l as [|a l IH]; simpl; [tauto|].
  destruct (f a) eqn:E; [discriminate|].
  intros H x [<-|Hx]; auto.
Qed.

End KeepFacts.

(** ** [process_html]: the text, the count and the files *)

Module FileFacts.
Import StrFacts FixImages Samples Shape ShapeFacts FixImagesMain.
#[local] Arguments String.append !s1 s2 / : simpl nomatch.

Lemma ATTR_RE_span (s : string) (m : attr_match) (n : nat) :
  ATTR_RE s = Some (m, n) -> 0 < n /\ am_group0 m = Str.take n s.
Proof.
  intros H. unfold ATTR_RE in H.
  destruct (MatchFacts.ATTR_alts_match _ _ _ _ H)
    as [alt [k [_ [_ [Ht [Hn [Hg _]]]]]]].
  split; [|exact Hg].
  destruct (MatchFacts.ATTR_tail_match _ _ _ _ Ht) as [w1 [w2 [rest [_ [Ek _]]]]].
  rewrite Hn, Ek, !length_app. simpl. lia.
Qed.

Lemma CSS_URL_RE_span (s : string) (m : css_match) (n : nat) :
  CSS_URL_RE s = Some (m, n) -> 0 < n /\ cm_group0 m = Str.take n s.
Proof.
  unfold CSS_URL_RE.
  destruct (Re.istartswith s "url("); [|discriminate].
  destruct (Re.span Char.isspace (Str.drop 4 s)) as [w t1].
  destruct t1 as [|c t2]; [discriminate|].
  destruct (is_quote c).
  - destruct (Re.span css_val_char t2) as [v t3].
    destruct v as [|c0 v]; [discriminate|].
    destruct t3 as [|q t4]; [discriminate|].
    destruct (Char.eqb q c); [|discriminate].
    destruct (Re.span Char.isspace t4) as [w2 t5].
    destruct t5 as [|c5 t6]; [discriminate|].
    destruct c5 as [[] [] [] [] [] [] [] []]; try discriminate.
    intros H. injection H as <- <-. split; [lia | reflexivity].
  - destruct (Char.eqb c ")").
    + destruct w as [|c0 w]; [discriminate|].
      intros H. injection H as <- <-. split; [lia | reflexivity].
    + destruct (Re.span css_val_char (String c t2)) as [v t3].
      destruct t3 as [|c3 t4]; [discriminate|].
      destruct c3 as [[] [] [] [] [] [] [] []]; try discriminate.
      intros H. injection H as <- <-. split; [lia | reflexivity].
Qed.

(** X15.  When [process_html] counts no change, the text it made is
    the text it read: nothing was rewritten without being counted. *)
Theorem zero_count_means_text_unchanged
  (basenames : gset string) (slug_map : list (string * string))
  (make_relative : bool) (text : string) :
  snd (process_text basenames slug_map make_relative text) = 0 ->
  fst (process_text basenames slug_map make_relative text) = text.
Proof.
  unfold process_text.
  assert (Ha : forall m c,
             snd (repl_attr_safe basenames slug_map make_relative m c)
             = if attr_substituted basenames slug_map make_relative m
               then c + 1 else c).
  { intros m c. rewrite EngineFacts.repl_attr_safe_spec.
    destruct (attr_substituted basenames slug_map make_relative m);
      reflexivity. }
  assert (Hc : forall m c,
             snd (repl_css basenames slug_map make_relative m c)
             = if css_substituted basenames slug_map make_relative m
               then c + 1 else c).
  { intros m c. rewrite EngineFacts.repl_css_spec.
    destruct (css_substituted basenames slug_map make_relative m);
      reflexivity. }
  pose proof (SubFacts.sub_from_counts ATTR_RE _ _ Ha 0 text 0) as H1.
  pose proof (KeepFacts.sub_keeps ATTR_RE
                (repl_attr_safe basenames slug_map make_relative)
                am_group0 ATTR_RE_span text 0) as K1.
  unfold Re.sub in *.
  destruct (Re.sub_from ATTR_RE
              (repl_attr_safe basenames slug_map make_relative) 0 text 0)
    as [mid c1].
  pose proof (SubFacts.sub_from_counts CSS_URL_RE _ _ Hc 0 mid c1) as H2.
  pose proof (KeepFacts.sub_keeps CSS_URL_RE
                (repl_css basenames slug_map make_relative)
                cm_group0 CSS_URL_RE_span mid c1) as K2.
  unfold Re.sub in *.
  destruct (Re.sub_from CSS_URL_RE
              (repl_css basenames slug_map make_relative) 0 mid c1)
    as [out c2].
  simpl in *. intros Hz. subst c2.
  assert (Hz1 : length (List.filter
                          (attr_substituted basenames slug_map make_relative)
                          (Re.finditer_from ATTR_RE 0 text)) = 0) by lia.
  assert (Hz2 : length (List.filter
                          (css_substituted basenames slug_map make_relative)
                          (Re.finditer_from CSS_URL_RE 0 mid)) = 0) by lia.
  rewrite K2, K1; [reflexivity | |].
  - intros m Hin st. rewrite EngineFacts.repl_attr_safe_spec.
    rewrite (KeepFacts.filter_nil _ _ Hz1 m Hin). reflexivity.
  - intros m Hin st. rewrite EngineFacts.repl_css_spec.
    rewrite (KeepFacts.filter_nil _ _ Hz2 m Hin). reflexivity.
Qed.

Lemma zero_count_means_text_unchanged_witness :
  snd (process_text (names_of pair_ab) (slugs_of pair_ab) true
         "<a href='docs/manual.pdf'>manual</a> <img src='images/a.jpg'>") = 0
  /\ fst (process_text (names_of pair_ab) (slugs_of pair_ab) true
            "<a href='docs/manual.pdf'>manual</a> <img src='images/a.jpg'>")
     = "<a href='docs/manual.pdf'>manual</a> <img src='images/a.jpg'>".
Proof.
  assert (H : snd (process_text (names_of pair_ab) (slugs_of pair_ab) true
                     "<a href='docs/manual.pdf'>manual</a> <img src='images/a.jpg'>")
              = 0) by (vm_compute; reflexivity).
  split; [exact H|].
  apply (zero_count_means_text_unchanged _ _ _ _ H).
Defined.

(** *** The backup *)

Section OneRun.
Variable basenames : gset string.
Variable slug_map : list (string * string).
Variable make_relative : bool.

(** What one run of [process_html] does to the files. *)
Lemma process_html_step (path : string) (write : bool)
      (fs : gmap string string) (text : string) :
  fs !! path = Some text ->
  let new_text := fst (process_text basenames slug_map make_relative text) in
  let changed := snd (process_text basenames slug_map make_relative text) in
  let backup := Pathlib.add_suffix path ".bak" in
  process_html basenames slug_map make_relative path write fs
  = Some (changed,
          if negb (changed =? 0) && write
          then <[path := new_text]>
                 (match fs !! backup with
                  | Some _ => fs
                  | None => <[backup := text]> fs
                  end)
          else fs).
Proof.
  intros Hread. cbv zeta. unfold process_html. rewrite Hread.
  destruct (process_text basenames slug_map make_relative text)
    as [new_text changed].
  simpl. destruct (negb (changed =? 0) && write); reflexivity.
Qed.

Lemma process_html_files (path : string) (write : bool)
      (fs : gmap string string) (text : string) :
  fs !! path = Some text ->
  exists (n : nat) (fs' : gmap string string),
    process_html basenames slug_map make_relative path write fs = Some (n, fs')
    /\ n = snd (process_text basenames slug_map make_relative text)
    /\ (forall p, p <> path -> p <> Pathlib.add_suffix path ".bak" ->
                  fs' !! p = fs !! p)
    /\ (fs' = fs
        \/ (write = true /\ n <> 0
            /\ fs' !! path
               = Some (fst (process_text basenames slug_map make_relative text))
            /\ fs' !! Pathlib.add_suffix path ".bak"
               = Some (match fs !! Pathlib.add_suffix path ".bak" with
                       | Some old => old
                       | None => text
                       end))).
Proof.
  intros Hread. rewrite (process_html_step _ write _ _ Hread).
  eexists _, _. split; [reflexivity|]. split; [reflexivity|].
  pose proof (EngineFacts.backup_path_differs path) as Hne.
  set (backup := Pathlib.add_suffix path ".bak") in *.
  set (n := snd (process_text basenames slug_map make_relative text)).
  destruct (n =? 0) eqn:Ez; simpl negb; simpl andb;
    [split; [reflexivity | left; reflexivity]|].
  destruct write; [|split; [reflexivity | left; reflexivity]].
  apply Nat.eqb_neq in Ez. split.
  - intros p Hp Hb.
    rewrite lookup_insert_ne by (intros H; apply Hp; symmetry; exact H).
    destruct (fs !! backup); [reflexivity|].
    rewrite lookup_insert_ne by (intros H; apply Hb; symmetry; exact H).
    reflexivity.
  - right. split; [reflexivity|]. split; [exact Ez|].
    split; [apply lookup_insert_eq|].
    rewrite lookup_insert_ne by (intros H; apply Hne; symmetry; exact H).
    destruct (fs !! backup) as [old|] eqn:Eb; [exact Eb|].
    apply lookup_insert_eq.
Qed.
End OneRun.

Lemma runs_kept (path : string)
      (l : list (gset string * list (string * string) * bool * bool))
      (fs : gmap string string) (cur old : string) :
  fs !! path = Some cur ->
  fs !! Pathlib.add_suffix path ".bak" = Some old ->
  exists fs', runs path l fs = Some fs'
              /\ fs' !! Pathlib.add_suffix path ".bak" = Some old
              /\ forall p, p <> path -> p <> Pathlib.add_suffix path ".bak" ->
                           fs' !! p = fs !! p.
Proof.
  revert fs cur. induction l as [|[[[bn sm] flag] write] l IH];
    intros fs cur Hread Hbak.
  - exists fs. auto.
  - destruct (process_html_files bn sm flag path write fs cur Hread)
      as [n [fs1 [E [_ [Hframe Hcase]]]]].
    simpl. rewrite E.
    destruct Hcase as [->|[_ [_ [Hp Hb]]]].
    + apply (IH fs cur Hread Hbak).
    + rewrite Hbak in Hb.
      destruct (IH fs1 _ Hp Hb) as [fs' [H1 [H2 H3]]].
      exists fs'. split; [exact H1|]. split; [exact H2|].
      intros p Hp1 Hp2. rewrite (H3 p Hp1 Hp2). apply Hframe; assumption.
Qed.

(** X16.  However often [process_html] is run on a file, with whatever
    catalogues and flags, the backup next to it is written at most
    once: a backup that was there stays as it was, and one that was not
    there is either still not there, the file being as it was, or holds
    the text the file had before the first run.  No other file is
    touched, and the file stays readable. *)
Theorem backup_holds_the_first_original
  (path text : string) (fs : gmap string string)
  (l : list (gset string * list (string * string) * bool * bool)) :
  fs !! path = Some text ->
  exists fs' : gmap string string,
    runs path l fs = Some fs'
    /\ match fs !! Pathlib.add_suffix path ".bak" with
       | Some old => fs' !! Pathlib.add_suffix path ".bak" = Some old
       | None =>
           fs' !! Pathlib.add_suffix path ".bak" = Some text
           \/ (fs' !! Pathlib.add_suffix path ".bak" = None
               /\ fs' !! path = Some text)
       end
    /\ forall p, p <> path -> p <> Pathlib.add_suffix path ".bak" ->
                 fs' !! p = fs !! p.
Proof.
  intros Hread.
  destruct (fs !! Pathlib.add_suffix path ".bak") as [old|] eqn:Hbak.
  - destruct (runs_kept path l fs text old Hread Hbak) as [fs' H].
    exists fs'. exact H.
  - revert fs Hread Hbak.
    induction l as [|[[[bn sm] flag] write] l IH]; intros fs Hread Hbak.
    + exists fs. split; [reflexivity|]. split; [right|]; auto.
    + destruct (process_html_files bn sm flag path write fs text Hread)
        as [n [fs1 [E [_ [Hframe Hcase]]]]].
      simpl. rewrite E.
      destruct Hcase as [->|[_ [_ [Hp Hb]]]].
      * apply (IH fs Hread Hbak).
      * rewrite Hbak in Hb.
        destruct (runs_kept path l fs1 _ text Hp Hb) as [fs' [H1 [H2 H3]]].
        exists fs'. split; [exact H1|]. split; [left; exact H2|].
        intros p Hp1 Hp2. rewrite (H3 p Hp1 Hp2). apply Hframe; assumption.
Qed.

Lemma backup_holds_the_first_original_witness :
  exists fs' : gmap string string,
    runs "index.html"
      [(names_of pair_ab, slugs_of pair_ab, true, true);
       (names_of pair_ab, slugs_of pair_ab, false, true)]
      {[ "index.html" := "<img src='x/a.jpg'>" ]}
    = Some fs'
    /\ (fs' !! Pathlib.add_suffix "index.html" ".bak"
        = Some "<img src='x/a.jpg'>"
        \/ (fs' !! Pathlib.add_suffix "index.html" ".bak" = None
            /\ fs' !! "index.html" = Some "<img src='x/a.jpg'>")).
Proof.
  destruct (backup_holds_the_first_original "index.html" "<img src='x/a.jpg'>"
              {[ "index.html" := "<img src='x/a.jpg'>" ]}
              [(names_of pair_ab, slugs_of pair_ab, true, true);
               (names_of pair_ab, slugs_of pair_ab, false, true)])
    as [fs' [H1 [H2 _]]]; [vm_compute; reflexivity|].
  exists fs'. split; [exact H1|].
  assert (Hb : ({[ "index.html" := "<img src='x/a.jpg'>" ]}
                : gmap string string) !! Pathlib.add_suffix "index.html" ".bak"
               = None) by (vm_compute; reflexivity).
  rewrite Hb in H2. exact H2.
Defined.

End FileFacts.

(** ** [main]: the loop over the HTML files *)

Module MainFacts.
Import StrFacts FixImages Samples Shape ShapeFacts FixImagesMain.
#[local] Arguments String.append !s1 s2 / : simpl nomatch.

Lemma process_html_dry (bn : gset string) (sm : list (string * string))
      (flag : bool) (path : string) (fs : gmap string string) (n : nat)
      (fs' : gmap string string) :
  process_html bn sm flag path false fs = Some (n, fs') -> fs' = fs.
Proof.
  unfold process_html. destruct (fs !! path) as [text|]; [|discriminate].
  destruct (process_text bn sm flag text) as [new_text changed].
  rewrite andb_false_r. intros H. injection H as _ <-. reflexivity.
Qed.

Lemma html_loop_dry (bn : gset string) (sm : list (string * string))
      (flag : bool) (files : list string) (total : nat) (out : list string)
      (fs : gmap string string) :
  fix_lines out ->
  match html_loop bn sm flag false files total out fs with
  | Looped _ out' fs' => fs' = fs /\ fix_lines out'
  | Raised _ fs' => fs' = fs
  end.
Proof.
  revert total out. induction files as [|f files IH]; intros total out Hout;
    simpl; [auto|].
  destruct (process_html bn sm flag f false fs) as [[n fs1]|] eqn:E;
    [|reflexivity].
  apply process_html_dry in E. subst fs1.
  destruct (negb (n =? 0)); apply IH; [|exact Hout].
  apply Forall_app. split; [exact Hout|].
  constructor; [reflexivity | constructor].
Qed.

Lemma find_images_root_code (is_dir : string -> bool)
      (explicit : option string) (msg : string) (code : nat) :
  find_images_root is_dir explicit = SysExit msg code -> code = 1.
Proof.
  unfold find_images_root. destruct (truthy explicit).
  - destruct (is_dir (or_else explicit "")); [discriminate|].
    intros H. injection H as _ <-. reflexivity.
  - destruct (List.find is_dir CANDIDATES); [discriminate|].
    intros H. injection H as _ <-. reflexivity.
Qed.

(** X17.  A dry run changes no file, however [main] ends: with the
    status 1 when there is no images directory, with the exception of
    a file that cannot be read, or with its report, which then holds
    no line on backups. *)
Theorem dry_run_touches_no_file (args : Args) (w : World)
        (fs : gmap string string) :
  dry_run args = true ->
  match main args w fs with
  | Exited _ code => code = 1
  | Crashed _ fs' => fs' = fs
  | Returned stdout fs' =>
      fs' = fs
      /\ ~ In "Backups written alongside files as *.bak" stdout
  end.
Proof.
  intros Hdry. unfold main. rewrite Hdry.
  destruct (find_images_root (is_dir w) (images_dir args)) as [dir|msg code]
    eqn:E; [|apply (find_images_root_code _ _ _ _ E)].
  destruct (build_catalog (regular_files w dir)) as [[files bn] sm].
  pose proof (html_loop_dry bn sm (make_paths_relative args)
                (html_files w (root args)) 0 [] fs (List.Forall_nil _)) as H.
  simpl negb.
  destruct (html_loop bn sm (make_paths_relative args) false
              (html_files w (root args)) 0 [] fs) as [total out fs'|out fs'];
    [|exact H].
  destruct H as [-> Hout]. split; [reflexivity|].
  intros Hin. apply in_app_or in Hin. destruct Hin as [Hin|Hin].
  - unfold fix_lines in Hout. rewrite List.Forall_forall in Hout.
    apply Hout in Hin. discriminate.
  - destruct (total =? 0); simpl in Hin.
    + destruct Hin as [Hin|[]]. discriminate.
    + destruct Hin as [Hin|[]].
      apply (f_equal (fun s => Str.startswith s "D")) in Hin.
      discriminate.
Qed.

(** *** One file does not touch another *)

Lemma endswith_parts (s p : string) :
  Str.endswith s p = true -> exists x, s = x ++ p.
Proof.
  unfold Str.endswith. rewrite andb_true_iff. intros [_ H].
  apply String.eqb_eq in H.
  exists (Str.take (String.length s - String.length p) s).
  pose proof (take_drop (String.length s - String.length p) s) as T.
  rewrite H in T. symmetry. exact T.
Qed.

Lemma html_is_no_backup (g f : string) :
  Str.endswith g ".html" = true -> g <> Pathlib.add_suffix f ".bak".
Proof.
  intros H E. apply endswith_parts in H. destruct H as [x Hx].
  unfold Pathlib.add_suffix in E. rewrite Hx in E.
  apply (f_equal (last_in (fun c => Char.eqb c "l"))) in E.
  rewrite !SrcsetFacts.last_in_app in E by discriminate. discriminate.
Qed.

Lemma backup_inj (g f : string) :
  Pathlib.add_suffix g ".bak" = Pathlib.add_suffix f ".bak" -> g = f.
Proof.
  unfold Pathlib.add_suffix. revert f.
  induction g as [|c g IH]; intros [|d f] E; try reflexivity.
  - exfalso. apply (f_equal String.length) in E.
    rewrite app_cons in E. simpl in E. rewrite length_app in E.
    simpl in E. lia.
  - exfalso. apply (f_equal String.length) in E.
    rewrite app_cons in E. simpl in E. rewrite length_app in E.
    simpl in E. lia.
  - rewrite !app_cons in E. injection E as -> E. f_equal. apply IH. exact E.
Qed.

Lemma list_sum_cons (a : nat) (l : list nat) :
  list_sum (a :: l) = a + list_sum l.
Proof. reflexivity. Qed.

Section Loop.
Variable basenames : gset string.
Variable slug_map : list (string * string).
Variable make_relative : bool.
Variable write : bool.

(** X18.  The loop of [main] treats every HTML file by itself.  When
    the paths are distinct, end in [.html] and can be read, the total
    is the sum of the counts the files give as they stood before the
    run, a line is printed for each file whose count is not zero, each
    such file is rewritten and gets its backup (when the run writes),
    and no other file is touched. *)
Theorem html_files_are_processed_independently (files : list string) :
  List.NoDup files ->
  Forall (fun f => Str.endswith f ".html" = true) files ->
  forall (total : nat) (out : list string) (fs : gmap string string),
  (forall f, In f files -> exists t, fs !! f = Some t) ->
  exists fs' : gmap string string,
    html_loop basenames slug_map make_relative write files total out fs
    = Looped (total + list_sum (List.map (changed_in basenames slug_map make_relative fs) files))
             (out ++ List.map (fun f => fix_line f (changed_in basenames slug_map make_relative fs f))
                      (List.filter (fun f => negb (changed_in basenames slug_map make_relative fs f =? 0))
                                   files))
             fs'
    /\ (forall f, In f files ->
          fs' !! f
          = Some (if rewritten_in basenames slug_map make_relative write fs f
                  then fst (process_text basenames slug_map make_relative
                              (text_in fs f))
                  else text_in fs f))
    /\ (forall f, In f files ->
          fs' !! Pathlib.add_suffix f ".bak"
          = if rewritten_in basenames slug_map make_relative write fs f
            then Some (default (text_in fs f)
                               (fs !! Pathlib.add_suffix f ".bak"))
            else fs !! Pathlib.add_suffix f ".bak")
    /\ (forall p, (forall f, In f files ->
                     p <> f /\ p <> Pathlib.add_suffix f ".bak") ->
                  fs' !! p = fs !! p).
Proof.
  intros Hnd Hhtml. induction files as [|f files IH]; intros total out fs Hread.
  - exists fs. simpl. rewrite Nat.add_0_r, app_nil_r.
    split; [reflexivity|]. split; [intros f []|]. split; [intros f []|auto].
  - apply NoDup_cons_iff in Hnd. destruct Hnd as [Hf Hnd].
    pose proof (Forall_inv Hhtml) as Hfh. apply Forall_inv_tail in Hhtml.
    destruct (Hread f (or_introl eq_refl)) as [t Ht].
    destruct (FileFacts.process_html_files basenames slug_map make_relative
                f write fs t Ht) as [n [fs1 [E [Hn [Hframe _]]]]].
    pose proof (FileFacts.process_html_step basenames slug_map make_relative
                  f write fs t Ht) as Estep.
    cbv zeta in Estep. rewrite E, <- Hn in Estep. injection Estep as Hfs1.
    assert (Htext : text_in fs f = t) by (unfold text_in; rewrite Ht; reflexivity).
    assert (Hch : changed_in basenames slug_map make_relative fs f = n)
      by (unfold changed_in; rewrite Htext; symmetry; exact Hn).
    (* the other files are as they were *)
    assert (Hother : forall g, In g files ->
              fs1 !! g = fs !! g
              /\ fs1 !! Pathlib.add_suffix g ".bak"
                 = fs !! Pathlib.add_suffix g ".bak").
    { intros g Hg.
      assert (Hgf : g <> f) by (intros ->; contradiction).
      rewrite List.Forall_forall in Hhtml. split.
      - apply Hframe; [exact Hgf|]. apply html_is_no_backup. auto.
      - apply Hframe.
        + intros Heq. symmetry in Heq. revert Heq.
          apply html_is_no_backup. exact Hfh.
        + intros Heq. apply backup_inj in Heq. contradiction. }
    assert (Hsame : forall g, In g files ->
              text_in fs1 g = text_in fs g /\ changed_in basenames slug_map make_relative fs1 g = changed_in basenames slug_map make_relative fs g
              /\ rewritten_in basenames slug_map make_relative write fs1 g = rewritten_in basenames slug_map make_relative write fs g).
    { intros g Hg. destruct (Hother g Hg) as [H1 _].
      unfold rewritten_in, changed_in, text_in. rewrite H1. auto. }
    assert (Hread1 : forall g, In g files -> exists t', fs1 !! g = Some t').
    { intros g Hg. destruct (Hother g Hg) as [-> _]. apply Hread. right. exact Hg. }
    assert (Hmap : List.map (changed_in basenames slug_map make_relative fs1) files
                   = List.map (changed_in basenames slug_map make_relative fs) files).
    { apply List.map_ext_in. intros g Hg. apply (Hsame g Hg). }
    assert (Hfilter : List.filter (fun g => negb (changed_in basenames slug_map make_relative fs1 g =? 0)) files
                      = List.filter (fun g => negb (changed_in basenames slug_map make_relative fs g =? 0)) files).
    { apply List.filter_ext_in. intros g Hg.
      destruct (Hsame g Hg) as [_ [-> _]]. reflexivity. }
    assert (Hlines : List.map (fun g => fix_line g (changed_in basenames slug_map make_relative fs1 g))
                       (List.filter (fun g => negb (changed_in basenames slug_map make_relative fs g =? 0)) files)
                     = List.map (fun g => fix_line g (changed_in basenames slug_map make_relative fs g))
                         (List.filter (fun g => negb (changed_in basenames slug_map make_relative fs g =? 0)) files)).
    { apply List.map_ext_in. intros g Hg. apply filter_In in Hg.
      destruct Hg as [Hg _]. destruct (Hsame g Hg) as [_ [-> _]]. reflexivity. }
    cbn [html_loop]. rewrite E.
    destruct (IH Hnd Hhtml
                (if negb (n =? 0) then total + n else total)
                (if negb (n =? 0) then (out ++ [fix_line f n])%list else out)
                fs1 Hread1) as [fs' [L [Ha [Hb Hc]]]].
    assert (Hfree : forall g, In g files ->
              f <> g /\ f <> Pathlib.add_suffix g ".bak").
    { intros g Hg. split; [intros ->; contradiction|].
      apply html_is_no_backup. exact Hfh. }
    assert (Hfree' : forall g, In g files ->
              Pathlib.add_suffix f ".bak" <> g
              /\ Pathlib.add_suffix f ".bak" <> Pathlib.add_suffix g ".bak").
    { intros g Hg. rewrite List.Forall_forall in Hhtml. split.
      - intros Heq. symmetry in Heq. revert Heq.
        apply html_is_no_backup. auto.
      - intros Heq. apply backup_inj in Heq. subst g. contradiction. }
    exists fs'. split; [|split; [|split]].
    + cbn [List.map List.filter]. rewrite list_sum_cons, Hch.
      rewrite Hmap, Hfilter, Hlines in L.
      destruct (negb (n =? 0)) eqn:Ez.
      * rewrite L. f_equal; [lia|].
        cbn [List.map]. rewrite Hch, <- List.app_assoc. reflexivity.
      * rewrite L. apply negb_false_iff, Nat.eqb_eq in Ez. subst n.
        f_equal. lia.
    + intros g [<-|Hg].
      * rewrite (Hc f Hfree), Htext. unfold rewritten_in. rewrite Hch.
        rewrite Hfs1. destruct (negb (n =? 0) && write); [|exact Ht].
        apply lookup_insert_eq.
      * rewrite (Ha g Hg). destruct (Hsame g Hg) as [-> [_ ->]]. reflexivity.
    + intros g [<-|Hg].
      * rewrite (Hc _ Hfree'), Htext. unfold rewritten_in. rewrite Hch.
        rewrite Hfs1. destruct (negb (n =? 0) && write); [|reflexivity].
        pose proof (EngineFacts.backup_path_differs f) as Hne.
        rewrite lookup_insert_ne by (intros H; apply Hne; symmetry; exact H).
        destruct (fs !! Pathlib.add_suffix f ".bak") as [old|] eqn:Eb.
        -- rewrite Eb. reflexivity.
        -- rewrite lookup_insert_eq. reflexivity.
      * rewrite (Hb g Hg). destruct (Hsame g Hg) as [-> [_ ->]].
        destruct (Hother g Hg) as [_ ->]. reflexivity.
    + intros p Hp. rewrite Hc by (intros g Hg; apply Hp; right; exact Hg).
      destruct (Hp f (or_introl eq_refl)) as [H1 H2].
      apply Hframe; assumption.
Qed.
End Loop.

Lemma html_files_are_processed_independently_witness :
  exists fs' : gmap string string,
    html_loop (names_of pair_ab) (slugs_of pair_ab) true true
      ["a.html"; "b.html"] 0 []
      {[ "a.html" := "<img src='x/a.jpg'>"; "b.html" := "<p>no image</p>" ]}
    = Looped 1 ["[fix] a.html  (+1 change)"] fs'
    /\ fs' !! "a.html" = Some "<img src='images/a.jpg'>"
    /\ fs' !! "b.html" = Some "<p>no image</p>"
    /\ fs' !! "a.html.bak" = Some "<img src='x/a.jpg'>".
Proof.
  destruct (html_files_are_processed_independently
              (names_of pair_ab) (slugs_of pair_ab) true true
              ["a.html"; "b.html"]) with
      (total := 0) (out := @nil string)
      (fs := ({[ "a.html" := "<img src='x/a.jpg'>";
                 "b.html" := "<p>no image</p>" ]} : gmap string string))
    as [fs' [L [Ha [Hb _]]]].
  - repeat constructor; simpl; intuition discriminate.
  - repeat constructor.
  - intros f [<-|[<-|[]]]; eexists; vm_compute; reflexivity.
  - exists fs'. split; [|split; [|split]].
    + rewrite L. vm_compute. reflexivity.
    + rewrite (Ha "a.html") by (left; reflexivity). vm_compute. reflexivity.
    + rewrite (Ha "b.html") by (right; left; reflexivity).
      vm_compute. reflexivity.
    + change "a.html.bak" with (Pathlib.add_suffix "a.html" ".bak").
      rewrite (Hb "a.html") by (left; reflexivity). vm_compute. reflexivity.
Defined.

Lemma dry_run_touches_no_file_witness :
  match main {| images_dir := None; make_paths_relative := true;
                dry_run := true; root := "." |}
             {| is_dir := String.eqb "images";
                regular_files := fun _ => pair_ab;
                html_files := fun _ => ["a.html"] |}
             {[ "a.html" := "<img src='x/a.jpg'>" ]} with
  | Exited _ code => code = 1
  | Crashed _ fs' => fs' = {[ "a.html" := "<img src='x/a.jpg'>" ]}
  | Returned stdout fs' =>
      fs' = {[ "a.html" := "<img src='x/a.jpg'>" ]}
      /\ ~ In "Backups written alongside files as *.bak" stdout
  end.
Proof.
  apply (dry_run_touches_no_file
           {| images_dir := None; make_paths_relative := true;
              dry_run := true; root := "." |}).
  reflexivity.
Defined.

End MainFacts.

(** ** The structured data: [insert_json_ld] *)

Module JsonLdFacts.
Import StrFacts WireEmail WireEmailMain.
#[local] Arguments String.append !s1 s2 / : simpl nomatch.

Lemma startswith_app_l (a b x : string) :
  Str.startswith a x = true -> Str.startswith (a ++ b) x = true.
Proof.
  intros H. apply startswith_spec in H. destruct H as [r ->].
  rewrite app_assoc. apply startswith_app.
Qed.

Lemma contains_app_l (a b x : string) :
  Str.contains a x = true -> Str.contains (a ++ b) x = true.
Proof.
  induction a as [|c a IH].
  - simpl. rewrite orb_false_r. intros H.
    destruct x as [|d x]; [|discriminate]. destruct b; reflexivity.
  - rewrite app_cons. simpl Str.contains. rewrite !orb_true_iff.
    intros [H|H]; [left | right; auto].
    apply (startswith_app_l (String c a) b x H).
Qed.

Lemma contains_app_r (a b x : string) :
  Str.contains b x = true -> Str.contains (a ++ b) x = true.
Proof.
  intros H. induction a as [|c a IH]; [exact H|].
  rewrite app_cons. simpl Str.contains. rewrite IH. apply orb_true_r.
Qed.

Lemma tag_has_json_ld (a c : string) :
  has_json_ld (a ++ json_ld_tag ++ c) = true.
Proof.
  unfold has_json_ld. apply andb_true_iff. split.
  - apply orb_true_iff. right. apply contains_app_r, contains_app_l.
    vm_compute. reflexivity.
  - apply contains_app_r, contains_app_l. vm_compute. reflexivity.
Qed.

(** X19.  [insert_json_ld] changes nothing in a text it has produced.
    A page with a closing [head] tag, in whatever case, comes out with
    the media type and the name in it; a page without one comes out as
    it was. *)
Theorem insert_json_ld_is_idempotent (html : string) :
  insert_json_ld (insert_json_ld html) = insert_json_ld html
  /\ (find_ci "</head>" html <> None ->
      has_json_ld (insert_json_ld html) = true)
  /\ (find_ci "</head>" html = None -> insert_json_ld html = html).
Proof.
  assert (Hout : has_json_ld html = false ->
                 forall i, find_ci "</head>" html = Some i ->
                           has_json_ld (insert_json_ld html) = true).
  { intros Hno i Hi. unfold insert_json_ld. rewrite Hno, Hi.
    apply tag_has_json_ld. }
  split; [|split].
  - destruct (has_json_ld html) eqn:E.
    + unfold insert_json_ld. rewrite E, E. reflexivity.
    + destruct (find_ci "</head>" html) as [i|] eqn:Ei.
      * pose proof (Hout eq_refl i eq_refl) as H.
        unfold insert_json_ld at 1. rewrite H. reflexivity.
      * unfold insert_json_ld. rewrite E, Ei, E, Ei. reflexivity.
  - intros Hhead. destruct (has_json_ld html) eqn:E.
    + unfold insert_json_ld. rewrite E. exact E.
    + destruct (find_ci "</head>" html) as [i|] eqn:Ei; [|contradiction].
      apply (Hout eq_refl i eq_refl).
  - intros Hnone. unfold insert_json_ld. rewrite Hnone.
    destruct (has_json_ld html); reflexivity.
Qed.

Lemma insert_json_ld_is_idempotent_witness :
  find_ci "</head>" "<html><HEAD></HEAD></html>" <> None
  /\ has_json_ld (insert_json_ld "<html><HEAD></HEAD></html>") = true.
Proof.
  assert (H : find_ci "</head>" "<html><HEAD></HEAD></html>" <> None)
    by (vm_compute; discriminate).
  split; [exact H|].
  apply (proj1 (proj2 (insert_json_ld_is_idempotent _)) H).
Defined.

End JsonLdFacts.

(** ** A second run of [insert_footer] *)

Module FooterAgain.
Import StrFacts WireEmail WireEmailMain FooterFacts.
#[local] Arguments String.append !s1 s2 / : simpl nomatch.

Lemma find_ci_lower (pat s : string) :
  find_ci pat (Str.lower s) = find_ci pat s.
Proof.
  induction s as [|c s IH]; [reflexivity|].
  change (Str.lower (String c s)) with (String (Char.lower c) (Str.lower s)).
  cbn [find_ci]. rewrite IH.
  change (String (Char.lower c) (Str.lower s)) with (Str.lower (String c s)).
  rewrite istartswith_lower. reflexivity.
Qed.

Lemma take_length (i : nat) (s : string) :
  i <= String.length s -> String.length (Str.take i s) = i.
Proof.
  revert s. induction i as [|i IH]; intros [|c s]; simpl; intros H;
    try reflexivity; try lia.
  rewrite IH by lia. reflexivity.
Qed.

Lemma istartswith_inside (s pat : string) (i : nat) :
  pat <> "" -> Re.istartswith (Str.drop i s) pat = true ->
  i <= String.length s.
Proof.
  intros Hp H. destruct (Nat.le_gt_cases i (String.length s)) as [Hle|Hgt];
    [exact Hle|].
  exfalso. pose proof (ReFacts.drop_length_le i s) as Hd.
  destruct (Str.drop i s); [|simpl in Hd; lia].
  destruct pat; [contradiction | discriminate].
Qed.

Lemma retagged_lower (i : nat) (tag h : string) :
  Str.lower tag = tag ->
  Re.istartswith (Str.drop i h) tag = true ->
  Str.lower (retagged i tag h) = Str.lower h.
Proof.
  intros Hl Ht. unfold retagged.
  pose proof (take_drop i h) as T1.
  pose proof (take_drop (String.length tag) (Str.drop i h)) as T2.
  rewrite drop_drop in T2.
  apply (f_equal Str.lower) in T1, T2.
  rewrite lower_app in T1, T2.
  rewrite (istartswith_take_lower _ _ Ht) in T2.
  rewrite !lower_app, Hl, T2, T1. reflexivity.
Qed.

Lemma find_ci_retagged (pat tag h : string) (i : nat) :
  Str.lower tag = tag ->
  Re.istartswith (Str.drop i h) tag = true ->
  find_ci pat (retagged i tag h) = find_ci pat h.
Proof.
  intros Hl Ht.
  rewrite <- (find_ci_lower pat (retagged i tag h)), (retagged_lower _ _ _ Hl Ht).
  apply find_ci_lower.
Qed.

Lemma insert_before_retagged (i : nat) (tag h : string) :
  tag <> "" -> Re.istartswith (Str.drop i h) tag = true ->
  insert_before i tag (retagged i tag h) = insert_before i tag h.
Proof.
  intros Hne Ht. pose proof (istartswith_inside _ _ _ Hne Ht) as Hi.
  unfold insert_before, retagged.
  pose proof (take_length i h Hi) as Hlen.
  assert (E1 : Str.take i (Str.take i h ++ tag
                            ++ Str.drop (i + String.length tag) h)
               = Str.take i h).
  { rewrite <- Hlen at 1. apply take_app_length. }
  assert (E2 : Str.drop (i + String.length tag)
                 (Str.take i h ++ tag ++ Str.drop (i + String.length tag) h)
               = Str.drop (i + String.length tag) h).
  { rewrite <- app_assoc.
    replace (i + String.length tag)
      with (String.length (Str.take i h ++ tag)) at 1
      by (rewrite length_app, Hlen; reflexivity).
    apply drop_app_length. }
  rewrite E1, E2. reflexivity.
Qed.

Section Tag.
Variables (t0 : ascii) (tag1 : string).
Let tag := String t0 tag1.
Hypothesis tag_blocked_c : blocked tag contacts_id.
Hypothesis tag_blocked_a : blocked tag auto_id.
Hypothesis tag_pure_c :
  forall c, count_ci contacts_opener (tag ++ c) = count_ci contacts_opener c.
Hypothesis tag_pure_a :
  forall c, count_ci auto_opener (tag ++ c) = count_ci auto_opener c.
Hypothesis block_removed :
  forall c, remove_blocks contacts_opener (footer_block ++ NL ++ tag ++ c)
            = tag ++ remove_blocks contacts_opener c.

(** The removals of the next run take the block out again. *)
Lemma removed_after_tag (h : string) (i : nat) :
  Re.istartswith (Str.drop i h) tag = true ->
  clean h ->
  without_old_blocks (insert_before i tag h) = retagged i tag h.
Proof.
  intros Ht [Hc Ha].
  pose proof (count_at_tag contacts_id t0 tag1 tag_blocked_c tag_pure_c h i Ht)
    as Hc'.
  pose proof (count_at_tag auto_id t0 tag1 tag_blocked_a tag_pure_a h i Ht)
    as Ha'.
  fold tag contacts_opener in Hc'. fold tag auto_opener in Ha'.
  unfold retagged.
  set (a := Str.take i h) in *.
  set (c := Str.drop (i + String.length tag) h) in *.
  assert (Hins : count_ci auto_opener (insert_before i tag h) = 0).
  { pose proof (count_insert_before auto_id t0 tag1 0 tag_blocked_a eq_refl
                  tag_pure_a auto_in_block h i Ht) as H.
    fold tag auto_opener in H. rewrite H. lia. }
  unfold without_old_blocks.
  unfold auto_opener at 1.
  rewrite (remove_blocks_none _ _ (insert_before i tag h)) by exact Hins.
  unfold insert_before. fold a c. unfold contacts_opener at 1.
  rewrite remove_blocks_app; [|fold contacts_opener; lia|reflexivity].
  fold contacts_opener. rewrite block_removed.
  unfold contacts_opener at 1.
  rewrite remove_blocks_none; [reflexivity | fold contacts_opener; lia].
Qed.
End Tag.

Lemma removed_after_footer (h : string) (i : nat) :
  Re.istartswith (Str.drop i h) "</footer>" = true -> clean h ->
  without_old_blocks (insert_before i "</footer>" h) = retagged i "</footer>" h.
Proof.
  intros Ht Hclean.
  apply (removed_after_tag "<"%char "/footer>");
    [reflexivity | reflexivity | | | | exact Ht | exact Hclean].
  - intros c. apply footer_tag_pure. auto.
  - intros c. apply footer_tag_pure. auto.
  - intros c. apply block_removed_before; [|apply footer_tag_kept].
    vm_compute. reflexivity.
Qed.

Lemma removed_after_body (h : string) (i : nat) :
  Re.istartswith (Str.drop i h) "</body>" = true -> clean h ->
  without_old_blocks (insert_before i "</body>" h) = retagged i "</body>" h.
Proof.
  intros Ht Hclean.
  apply (removed_after_tag "<"%char "/body>");
    [reflexivity | reflexivity | | | | exact Ht | exact Hclean].
  - intros c. apply body_tag_pure. auto.
  - intros c. apply body_tag_pure. auto.
  - intros c. apply block_removed_before; [|apply body_tag_kept].
    vm_compute. reflexivity.
Qed.

(** X20.  On a page that has a closing [footer] or [body] tag, and in
    which every old block is closed, a second run of [insert_footer]
    changes nothing: the block the first run put in is taken out and
    put back at the same place. *)
Theorem insert_footer_is_idempotent_before_a_tag (html : string) :
  clean (without_old_blocks html) ->
  find_ci "</footer>" (without_old_blocks html) <> None
  \/ find_ci "</body>" (without_old_blocks html) <> None ->
  insert_footer (insert_footer html) = insert_footer html.
Proof.
  intros Hclean Htag. rewrite !insert_footer_place.
  set (h := without_old_blocks html) in *.
  unfold place_block at 2 3.
  destruct (find_ci "</footer>" h) as [i|] eqn:Ef.
  - destruct (find_ci_spec _ _ _ Ef) as [Ht _].
    rewrite (removed_after_footer h i Ht Hclean). unfold place_block.
    rewrite (find_ci_retagged "</footer>" "</footer>" h i eq_refl Ht), Ef.
    apply insert_before_retagged; [discriminate | exact Ht].
  - destruct (find_ci "</body>" h) as [i|] eqn:Eb; [|tauto].
    destruct (find_ci_spec _ _ _ Eb) as [Ht _].
    rewrite (removed_after_body h i Ht Hclean). unfold place_block.
    rewrite (find_ci_retagged "</footer>" "</body>" h i eq_refl Ht), Ef.
    rewrite (find_ci_retagged "</body>" "</body>" h i eq_refl Ht), Eb.
    apply insert_before_retagged; [discriminate | exact Ht].
Qed.

Lemma insert_footer_is_idempotent_before_a_tag_witness :
  insert_footer (insert_footer "<BODY><p>Hello</p></BODY>")
  = insert_footer "<BODY><p>Hello</p></BODY>".
Proof.
  apply insert_footer_is_idempotent_before_a_tag.
  - split; vm_compute; reflexivity.
  - right. vm_compute. discriminate.
Defined.

(** *** Without a tag *)








End FooterAgain.

(** ** The three steps together *)

Module WireFacts.
Import StrFacts WireEmail WireEmailMain FooterFacts.
#[local] Arguments String.append !s1 s2 / : simpl nomatch.

Lemma block_has_name : Str.contains footer_block NAME = true.
Proof. vm_compute. reflexivity. Qed.

Lemma place_block_has_name (h : string) :
  Str.contains (place_block h) NAME = true.
Proof.
  unfold place_block.
  destruct (find_ci "</footer>" h) as [i|];
    [|destruct (find_ci "</body>" h) as [i|]]; unfold insert_before.
  - apply JsonLdFacts.contains_app_r, JsonLdFacts.contains_app_l, block_has_name.
  - apply JsonLdFacts.contains_app_r, JsonLdFacts.contains_app_l, block_has_name.
  - apply JsonLdFacts.contains_app_r, JsonLdFacts.contains_app_r,
      JsonLdFacts.contains_app_l, block_has_name.
Qed.

(** X22.  The contact block names the organisation, so after
    [insert_footer] the name is always in the page, and the test of
    [insert_json_ld] comes down to the media type: in the run of the
    script a page that holds a script of that media type, whoever it
    describes, gets no structured data, and every other page with a
    closing [head] tag gets it. *)
Theorem name_test_is_always_passed_after_the_footer (html : string) :
  Str.contains (insert_footer html) NAME = true
  /\ insert_json_ld (insert_footer html)
     = if Str.contains (insert_footer html) "Application/ld+json"
          || Str.contains (insert_footer html) "application/ld+json"
       then insert_footer html
       else match find_ci "</head>" (insert_footer html) with
            | Some i =>
                Str.take i (insert_footer html) ++ json_ld_tag ++ NL
                ++ "</head>" ++ Str.drop (i + 7) (insert_footer html)
            | None => insert_footer html
            end.
Proof.
  assert (H : Str.contains (insert_footer html) NAME = true)
    by (rewrite insert_footer_place; apply place_block_has_name).
  split; [exact H|].
  unfold insert_json_ld, has_json_ld. rewrite H, andb_true_r. reflexivity.
Qed.

(** *** The mailto links of a text *)

Lemma mailto_re_span (s : string) (m : mailto_match) (n : nat) :
  mailto_re s = Some (m, n) -> 0 < n /\ mm_group0 m = Str.take n s.
Proof.
  unfold mailto_re. destruct (Re.istartswith s "mailto:"); [|discriminate].
  destruct (Re.span local_char (Str.drop 7 s)) as [local t1].
  destruct local as [|c local]; [discriminate|].
  destruct t1 as [|c1 t2]; [discriminate|].
  destruct (Ascii.eqb c1 "@") eqn:Ec.
  2:{ apply Ascii.eqb_neq in Ec.
      destruct c1 as [[] [] [] [] [] [] [] []]; try discriminate.
      contradiction. }
  apply Ascii.eqb_eq in Ec. subst c1.
  destruct (dom_end (fst (Re.span dom_char t2)) 0) as [e|]; [|discriminate].
  intros H. injection H as <- <-. split; [lia | reflexivity].
Qed.

Lemma mailto_re_needs_scheme (s : string) :
  Re.istartswith s "mailto:" = false -> mailto_re s = None.
Proof. intros H. unfold mailto_re. rewrite H. reflexivity. Qed.

Lemma finditer_none {M : Type} (match_at : string -> option (M * nat))
      (s : string) :
  (forall j, match_at (Str.drop j s) = None) ->
  forall skip, Re.finditer_from match_at skip s = [].
Proof.
  induction s as [|c s IH]; intros H skip; [reflexivity|].
  simpl. destruct skip as [|k].
  - pose proof (H 0) as H0. cbn [Str.drop] in H0. rewrite H0.
    apply IH. intros j. apply (H (S j)).
  - apply IH. intros j. apply (H (S j)).
Qed.

(** X23.  [mailto_re.sub(rewrite_mailto, t)] gives the text back as it
    was when none of the links it finds has the alias of a role as its
    local part; so it does when the text holds no [mailto:] at all. *)
Theorem text_without_role_links_is_kept (t : string) :
  ((forall m, In m (Re.finditer mailto_re t) ->
              Dict.get local_map (Str.lower (mm_local m)) = None) ->
   normalize_mailto t = t)
  /\ (find_ci "mailto:" t = None -> normalize_mailto t = t).
Proof.
  assert (Hkeep : (forall m, In m (Re.finditer mailto_re t) ->
                     Dict.get local_map (Str.lower (mm_local m)) = None) ->
                  normalize_mailto t = t).
  { intros H. unfold normalize_mailto.
    apply (KeepFacts.sub_keeps mailto_re _ mm_group0 mailto_re_span).
    intros m Hin st. simpl. unfold rewrite_mailto. rewrite (H m Hin).
    reflexivity. }
  split; [exact Hkeep|].
  intros Hnone. apply Hkeep. unfold Re.finditer.
  rewrite (finditer_none mailto_re t); [intros m []|].
  intros j. apply mailto_re_needs_scheme.
  apply (find_ci_none _ _ Hnone).
Qed.

Lemma text_without_role_links_is_kept_witness :
  normalize_mailto "<a href='mailto:jane.doe@ethicops.gt.tc'>Jane</a>"
  = "<a href='mailto:jane.doe@ethicops.gt.tc'>Jane</a>".
Proof.
  apply (proj1 (text_without_role_links_is_kept _)).
  intros m Hm. vm_compute in Hm. destruct Hm as [<-|[]]. reflexivity.
Defined.

(** *** The contact block after the three steps *)






(** *** The loop over the pages *)

(** X25.  The loop over the pages leaves every page it was given
    with the text the three steps make of it, writes a page only when
    that text differs from what it read, lists the names of the pages
    it wrote in their order, and touches no other file.  The paths
    have to be distinct and readable. *)
Theorem pages_are_written_only_when_changed (files : list string) :
  List.NoDup files ->
  forall (updated : list string) (fs : gmap string string),
  (forall p, In p files -> exists t, fs !! p = Some t) ->
  exists fs' : gmap string string,
    html_loop files updated fs
    = Looped (updated
              ++ List.map Pathlib.name
                   (List.filter
                      (fun p => negb (String.eqb (wire (default "" (fs !! p)))
                                                 (default "" (fs !! p))))
                      files))%list
             fs'
    /\ (forall p, In p files ->
          fs' !! p = Some (wire (default "" (fs !! p))))
    /\ (forall p, ~ In p files -> fs' !! p = fs !! p).
Proof.
  intros Hnd. induction files as [|f files IH]; intros updated fs Hread.
  - exists fs. simpl. rewrite app_nil_r. split; [reflexivity|].
    split; [intros p []|auto].
  - apply NoDup_cons_iff in Hnd. destruct Hnd as [Hf Hnd].
    destruct (Hread f (or_introl eq_refl)) as [t Ht].
    set (fs1 := if negb (String.eqb (wire t) t)
                then <[f := wire t]> fs else fs).
    assert (Hother : forall p, p <> f -> fs1 !! p = fs !! p).
    { intros p Hp. unfold fs1. destruct (negb (String.eqb (wire t) t));
        [|reflexivity].
      apply lookup_insert_ne. intros H. apply Hp. symmetry. exact H. }
    assert (Hrest : forall p, In p files -> fs1 !! p = fs !! p).
    { intros p Hp. apply Hother. intros ->. contradiction. }
    assert (Hself : fs1 !! f = Some (wire t)).
    { unfold fs1. destruct (String.eqb (wire t) t) eqn:E; simpl.
      - apply String.eqb_eq in E. rewrite E. exact Ht.
      - apply lookup_insert_eq. }
    destruct (IH Hnd
                (if negb (String.eqb (wire t) t)
                 then (updated ++ [Pathlib.name f])%list else updated)
                fs1) as [fs' [L [Ha Hb]]].
    { intros p Hp. rewrite (Hrest p Hp). apply Hread. right. exact Hp. }
    assert (Hfilter :
              List.filter
                (fun p => negb (String.eqb (wire (default "" (fs1 !! p)))
                                           (default "" (fs1 !! p)))) files
              = List.filter
                  (fun p => negb (String.eqb (wire (default "" (fs !! p)))
                                             (default "" (fs !! p)))) files).
    { apply List.filter_ext_in. intros p Hp. rewrite (Hrest p Hp).
      reflexivity. }
    rewrite Hfilter in L.
    exists fs'. split; [|split].
    + cbn [html_loop List.filter]. rewrite Ht. cbv zeta. simpl default.
      unfold fs1 in L.
      destruct (negb (String.eqb (wire t) t)); rewrite L; [|reflexivity].
      cbn [List.map]. rewrite <- List.app_assoc. reflexivity.
    + intros p [<-|Hp].
      * rewrite (Hb f Hf), Ht. exact Hself.
      * rewrite (Ha p Hp), (Hrest p Hp). reflexivity.
    + intros p Hp. rewrite Hb by (intros H; apply Hp; right; exact H).
      apply Hother. intros ->. apply Hp. left. reflexivity.
Qed.

Lemma pages_are_written_only_when_changed_witness :
  exists fs' : gmap string string,
    html_loop ["index.html"] []
      {[ "index.html" := "<p>Hello</p>"; "notes.txt" := "mailto:info@x.io" ]}
    = Looped ["index.html"] fs'
    /\ fs' !! "index.html" = Some (wire "<p>Hello</p>")
    /\ fs' !! "notes.txt" = Some "mailto:info@x.io".
Proof.
  destruct (pages_are_written_only_when_changed ["index.html"]) with
      (updated := @nil string)
      (fs := ({[ "index.html" := "<p>Hello</p>";
                 "notes.txt" := "mailto:info@x.io" ]} : gmap string string))
    as [fs' [L [Ha Hb]]].
  - repeat constructor. intros [].
  - intros p [<-|[]]. eexists. vm_compute. reflexivity.
  - exists fs'. split; [|split].
    + rewrite L. vm_compute. reflexivity.
    + rewrite (Ha "index.html") by (left; reflexivity). reflexivity.
    + rewrite (Hb "notes.txt") by (intros [H|[]]; discriminate).
      vm_compute. reflexivity.
Defined.

End WireFacts.
